(** * MusicToy: the note model, the event scheduler and the overdrive node

    A shallow embedding of [MusicToy/script/music.js], of
    [MusicToy/script/piece.js], of the play and stop functions of
    [MusicToy/script/main.js] and of the overdrive effect node, followed by
    the properties of these programs.

    Conventions of the embedding.
    - A JavaScript number that is used as a pitch number or as an index is an
      integer of [Z].  A number that is used as a time is a value of [num]:
      an exact rational, or the [Infinity] that [Piece.stop] sets.  The
      [-Infinity] of [Track.dispatch] is the value of its variable
      [leftTime] only.  Rounding of binary64 arithmetic and NaN are not part
      of [num].
    - The samples of the overdrive node are exact rationals in the
      properties; its arithmetic is also instantiated with binary64 numbers,
      to evaluate it on given samples.
    - The process-wide note table [Note.notesByNo] is threaded explicitly
      through every operation that builds a note.
    - A failed [assert] aborts the operation with an [error].
    - Calls on objects whose code lives outside these files (synthesis nodes,
      the synthesis network) are recorded in a trace, in program order. *)

From Stdlib Require Import ZArith QArith Qabs String Ascii List Lia Floats.
From Stdlib Require Import DecimalString Permutation Sorted.
From stdpp Require Import gmap strings list.
From Equations Require Import Equations.
Import ListNotations.

Local Open Scope Z_scope.

(** ** Failures *)

(** The failures the programs raise.  Every [assert] of the source maps to
    one of the first four:
    - ['invalid note name: ...'] is [InvalidNoteName];
    - ['invalid note number'], ['invalid note number after offset'] and
      ['note parsing failed'] are [InvalidNoteNumber];
    - ['invalid scale name: ...'] is [UnknownScale];
    - the two assertions of the audio handler are [ContractViolation].
    [TypeError] is the exception JavaScript itself raises when a method is
    called on [undefined]. *)
Inductive error : Set :=
| InvalidNoteName
| InvalidNoteNumber
| UnknownScale
| ContractViolation
| TypeError.

Inductive result (A : Type) : Type :=
| Ok (a : A)
| Err (e : error).
Arguments Ok {A} a.
Arguments Err {A} e.

(** [assert(cond, msg)]: nothing happens when [cond] holds, the operation is
    aborted otherwise. *)
Definition assert (cond : bool) (e : error) : result unit :=
  if cond then Ok tt else Err e.

(** ** Computations with a state that may fail *)

(** [ST S A]: a computation that reads and updates a state of type [S] and
    either returns a value of type [A] or is aborted by an [error]. *)
Definition ST (S A : Type) : Type := S -> result (A * S).

Definition ret {S A} (a : A) : ST S A := fun st => Ok (a, st).

Definition bind {S A B} (m : ST S A) (k : A -> ST S B) : ST S B :=
  fun st => match m st with
            | Ok (a, st') => k a st'
            | Err e => Err e
            end.

Definition lift {S A} (r : result A) : ST S A :=
  fun st => match r with
            | Ok a => Ok (a, st)
            | Err e => Err e
            end.

Definition get {S} : ST S S := fun st => Ok (st, st).

Definition modify {S} (f : S -> S) : ST S unit := fun st => Ok (tt, f st).

Declare Scope st_scope.
Delimit Scope st_scope with st.
Notation "'let*' x ':=' m 'in' k" := (bind m (fun x => k))
  (at level 10, x name, m at level 100, k at level 200) : st_scope.
Local Open Scope st_scope.

(** ** Notes (music.js) *)

Module Note.

Definition NUM_NOTES : Z := 128.
Definition NOTES_PER_OCTAVE : Z := 12.
Definition A4_NOTE_NO : Z := 69.
Definition C4_NOTE_NO : Z := 71.

(** A note object.  [ref] is the identity of the object (the rank of its
    allocation), so that two objects with the same number can be told
    apart, as [===] does on JavaScript objects. *)
Record t : Set := mk { ref : nat; noteNo : Z }.

(** [Note.notesByNo]: the table from note numbers to note objects.  The
    source indexes a JavaScript array with whatever number it is given, so
    the table is a finite map over all of [Z]. *)
Abbreviation table := (gmap Z t).

(** Computations that read and extend the note table and may fail. *)
Abbreviation M := (ST table).

(** [NOTE_NAME_PC]: pitch class of a note name. *)
Definition NOTE_NAME_PC : gmap string Z :=
  list_to_map
    [("C", 0); ("C#", 1); ("D", 2); ("D#", 3); ("E", 4); ("F", 5);
     ("F#", 6); ("G", 7); ("G#", 8); ("A", 9); ("A#", 10); ("B", 11)]%string.

(** [PC_NOTE_NAME]: note name of a pitch class. *)
Definition PC_NOTE_NAME : gmap Z string :=
  list_to_map
    [(0, "C"); (1, "C#"); (2, "D"); (3, "D#"); (4, "E"); (5, "F");
     (6, "F#"); (7, "G"); (8, "G#"); (9, "A"); (10, "A#"); (11, "B")]%string.

(** *** The regular expression [/([A-G]#?)([0-9])/i] *)

(** [[A-G]] under the [i] flag: the seven letters in either case. *)
Definition is_letter (c : ascii) : bool :=
  let n := nat_of_ascii c in
  ((65 <=? n) && (n <=? 71) || (97 <=? n) && (n <=? 103))%nat.

(** [[0-9]]. *)
Definition is_digit (c : ascii) : bool :=
  let n := nat_of_ascii c in ((48 <=? n) && (n <=? 57))%nat.

Definition is_sharp (c : ascii) : bool := Ascii.eqb c "#".

(** An attempt to match the expression at the start of [s].  The group
    [#?] is greedy: it takes a [#] when there is one, and when the digit
    does not follow it gives the [#] back, after which [[0-9]] faces the
    same [#] and fails.  The result is the two captured groups. *)
Definition match_here (s : string) : option (string * ascii) :=
  match s with
  | String l (String c rest) =>
      if is_letter l then
        if is_sharp c then
          match rest with
          | String d _ =>
              if is_digit d then Some (String l (String c EmptyString), d)
              else None
          | EmptyString => None
          end
        else if is_digit c then Some (String l EmptyString, c)
        else None
      else None
  | _ => None
  end.

(** [name.match(re)]: the match that starts leftmost in [name]. *)
Fixpoint regex_match (name : string) : option (string * ascii) :=
  match match_here name with
  | Some groups => Some groups
  | None =>
      match name with
      | String _ rest => regex_match rest
      | EmptyString => None
      end
  end.

(** [parseInt] of a one-digit string. *)
Definition parseInt (d : ascii) : Z := Z.of_nat (nat_of_ascii d) - 48.

(** [Note.nameToNo].  The last assertion is written with [||] in the
    source. *)
Definition nameToNo (name : string) : result Z :=
  match regex_match name with
  | None => Err InvalidNoteName
  | Some (namePart, numPart) =>
      match NOTE_NAME_PC !! namePart with
      | None => Err InvalidNoteName
      | Some pc =>
          let octNo := parseInt numPart in
          let noteNo := (octNo + 1) * NOTES_PER_OCTAVE + pc in
          match assert ((0 <=? noteNo) || (noteNo <? NUM_NOTES))
                       InvalidNoteNumber with
          | Err e => Err e
          | Ok _ => Ok noteNo
          end
      end
  end.

(** The argument of the constructor: a number, a string, or a value of
    another type. *)
Inductive value : Set :=
| VNum (n : Z)
| VStr (s : string)
| VOther.

(** The part of the constructor that follows the conversion of a name:
    look the number up in the table, allocate and record the note when it
    is not there. *)
Definition intern (val : Z) : M t :=
  fun tb => match tb !! val with
            | Some note => Ok (note, tb)
            | None =>
                let note := mk (size tb) val in
                Ok (note, <[val := note]> tb)
            end.

(** [Note(val)]. *)
Definition new (val : value) : M t :=
  match val with
  | VStr name => let* val' := lift (nameToNo name) in intern val'
  | VNum n => intern n
  | VOther => lift (Err InvalidNoteNumber)
  end.

(** [Note.sortFn]: the difference of the two numbers, whose sign a sort
    reads. *)
Definition sortFn (n1 n2 : t) : Z := noteNo n1 - noteNo n2.

(** [getPC]: [%] is the remainder that takes the sign of the dividend. *)
Definition getPC (note : t) : Z := Z.rem (noteNo note) NOTES_PER_OCTAVE.

(** [getOctNo]: [Math.floor] of the quotient.  The quotient of [Z] is that
    floor for a number below [2 ^ 53] in absolute value, where the
    division of the code is near enough to the exact quotient. *)
Definition getOctNo (note : t) : Z := noteNo note / NOTES_PER_OCTAVE - 1.

(** [String(n)] for an integer [n]. *)
Definition String_of_Z (n : Z) : string :=
  NilZero.string_of_int (Z.to_int n).

(** [getName]: a pitch class that is not in [PC_NOTE_NAME] reads as
    [undefined], which [+=] turns into the text ["undefined"]. *)
Definition getName (note : t) : string :=
  let octNo := getOctNo note in
  let pc := getPC note in
  let name := match PC_NOTE_NAME !! pc with
              | Some nm => nm
              | None => "undefined"%string
              end in
  (name ++ String_of_Z octNo)%string.

(** [offset]. *)
Definition offset (note : t) (numSemis : Z) : M t :=
  let offNo := noteNo note + numSemis in
  let* _ := lift (assert ((0 <=? offNo) && (offNo <? NUM_NOTES))
                             InvalidNoteNumber) in
  new (VNum offNo).

(** [shift]. *)
Definition shift (note : t) (numOcts : Z) : M t :=
  offset note (numOcts * NOTES_PER_OCTAVE).

End Note.

(** ** Scales (music.js) *)

Module Scale.
Import Note.

(** [scaleIntervs]: semitone intervals of the named scales.  A name that
    is not one of the six keys reads as a value that is not an array. *)
Definition scaleIntervs : gmap string (list Z) :=
  list_to_map
    [("major"%string, [2; 2; 1; 2; 2; 2]);
     ("natural minor"%string, [2; 1; 2; 2; 1; 2]);
     ("major pentatonic"%string, [2; 2; 3; 2]);
     ("minor pentatonic"%string, [3; 2; 2; 3]);
     ("blues"%string, [3; 2; 1; 1; 3]);
     ("chromatic"%string, [1; 1; 1; 1; 1; 1; 1; 1; 1; 1])].

(** The first argument of [genScale]: a note object, or a value handed to
    the constructor. *)
Inductive root : Set :=
| RNote (note : Note.t)
| RValue (val : Note.value).

(** The inner loop of [genScale]: each interval is applied to the note
    that is last in [notes] at that moment. *)
Fixpoint addIntervs (intervs : list Z) (notes : list Note.t)
  : M (list Note.t) :=
  match intervs with
  | [] => ret notes
  | interv :: rest =>
      match last notes with
      | None => lift (Err TypeError)
      | Some prevNote =>
          let* note := offset prevNote interv in
          addIntervs rest (notes ++ [note])
      end
  end.

(** The outer loop of [genScale], for the octave numbers [octNos]. *)
Fixpoint addOctaves (rootNote : Note.t) (intervs : list Z)
    (octNos : list nat) (notes : list Note.t) : M (list Note.t) :=
  match octNos with
  | [] => ret notes
  | octNo :: rest =>
      let* octRoot := shift rootNote (Z.of_nat octNo) in
      let* notes' := addIntervs intervs (notes ++ [octRoot]) in
      addOctaves rootNote intervs rest notes'
  end.

(** [genScale(rootNote, scale, numOctaves)]; [numOctaves] is [None] when
    the argument is left out. *)
Definition genScale (rootNote : root) (scale : string)
    (numOctaves : option nat) : M (list Note.t) :=
  let* rootNote := match rootNote with
                   | RNote note => ret note
                   | RValue val => Note.new val
                   end in
  let numOctaves := match numOctaves with
                    | Some n => n
                    | None => 1%nat
                    end in
  match scaleIntervs !! scale with
  | None => lift (Err UnknownScale)
  | Some intervs =>
      let* notes := addOctaves rootNote intervs (seq 0 numOctaves) [] in
      let* closing := shift rootNote (Z.of_nat numOctaves) in
      ret (notes ++ [closing])
  end.

End Scale.


(** ** Times *)

(** The numbers the scheduler uses as times: exact rationals, and the
    [Infinity] that [Piece.stop] sets. *)
Inductive num : Set :=
| Fin (q : Q)
| PInf.

Definition Qlt_bool (x y : Q) : bool := negb (Qle_bool y x).

Module Num.

(** [a < b]. *)
Definition ltb (a b : num) : bool :=
  match a, b with
  | Fin x, Fin y => Qlt_bool x y
  | Fin _, PInf => true
  | PInf, _ => false
  end.

(** [a <= b]. *)
Definition leb (a b : num) : bool :=
  match a, b with
  | Fin x, Fin y => Qle_bool x y
  | Fin _, PInf => true
  | PInf, PInf => true
  | PInf, Fin _ => false
  end.

(** [a > b] and [a >= b]. *)
Definition gtb (a b : num) : bool := ltb b a.
Definition geb (a b : num) : bool := leb b a.

(** [a === b]. *)
Definition eqb (a b : num) : bool :=
  match a, b with
  | Fin x, Fin y => Qeq_bool x y
  | PInf, PInf => true
  | _, _ => false
  end.

(** [a + q] for a finite [q]: [Infinity] absorbs it. *)
Definition addQ (a : num) (q : Q) : num :=
  match a with
  | Fin x => Fin (x + q)
  | PInf => PInf
  end.

(** The sign of [a - b] as [Array.prototype.sort] reads it from a
    comparison function: [Lt] for a negative difference, [Gt] for a
    positive one, [Eq] for zero and for the NaN that
    [Infinity - Infinity] is. *)
Definition sub_sign (a b : num) : comparison :=
  match a, b with
  | Fin x, Fin y => x ?= y
  | Fin _, PInf => Lt
  | PInf, PInf => Eq
  | PInf, Fin _ => Gt
  end%Q.

End Num.

(** ** Synthesis events (piece.js) *)

Inductive SynthEvt : Set :=
| NoteOnEvt (time : num) (note : Note.t) (vel : Q)
| NoteOffEvt (time : num) (note : Note.t)
| AllNotesOffEvt (time : num).

(** The field [time] of an event. *)
Definition time (evt : SynthEvt) : num :=
  match evt with
  | NoteOnEvt t _ _ => t
  | NoteOffEvt t _ => t
  | AllNotesOffEvt t => t
  end.

(** The constructors of the events as the source calls them; an argument
    that is left out is [None].  The note that stands in for a missing one
    is built from [C4_NOTE_NO]. *)
Module New.

(** [new NoteOnEvt(time, note, vel)]. *)
Definition NoteOnEvt (time : num) (note : option Note.t) (vel : option Q)
  : Note.M SynthEvt :=
  let* note := match note with
               | Some note => ret note
               | None => Note.new (Note.VNum Note.C4_NOTE_NO)
               end in
  let vel := match vel with
             | Some vel => vel
             | None => 1 # 2
             end in
  ret (NoteOnEvt time note vel).

(** [new NoteOffEvt(time, note)]. *)
Definition NoteOffEvt (time : num) (note : option Note.t) : Note.M SynthEvt :=
  let* note := match note with
               | Some note => ret note
               | None => Note.new (Note.VNum Note.C4_NOTE_NO)
               end in
  ret (NoteOffEvt time note).

End New.

(** A synthesis node is known by its identity only: the class [SynthNode]
    is not part of these files. *)
Definition node : Set := nat.

(** The calls the scheduler makes on synthesis nodes and on the synthesis
    network. *)
Inductive call : Set :=
| ProcessEvent (target : node) (evt : SynthEvt) (realTime : num)
    (** [target.processEvent(evt, realTime)] *)
| ProcessAllNotesOff (target : node)
    (** [target.processEvent(new AllNotesOffEvt())]: the event is built
        without a time and the call passes no [realTime] *)
| GenOutput (realTime : num).
    (** [synthNet.genOutput(realTime)] *)

(** [Array.prototype.sort] with a comparison function: a stable sort, here
    by insertion. *)
Module JsArray.
Section Sort.
Context {A : Type} (compareFn : A -> A -> comparison).

Fixpoint insert (x : A) (l : list A) : list A :=
  match l with
  | [] => [x]
  | y :: l' =>
      match compareFn x y with
      | Gt => y :: insert x l'
      | _ => x :: y :: l'
      end
  end.

Fixpoint sort (l : list A) : list A :=
  match l with
  | [] => []
  | x :: l' => insert x (sort l')
  end.
End Sort.
End JsArray.

(** ** Tracks (piece.js) *)

Module Track.

Record t : Set := mk { target : option node; events : list SynthEvt }.

(** [new Track(target)]. *)
Definition new (target : option node) : t := mk target [].

(** [addEvent].  The right operand of [||] is evaluated only when the
    array has two elements or more, so that the index [length - 2] is
    inside the array. *)
Definition addEvent (track : t) (evt : SynthEvt) : t :=
  let events := events track ++ [evt] in
  let atEnd :=
    if (length events =? 1)%nat then true
    else match events !! (length events - 2)%nat with
         | Some prev => Num.geb (time evt) (time prev)
         | None => false
         end in
  if atEnd then mk (target track) events
  else mk (target track)
          (JsArray.sort (fun a b => Num.sub_sign (time a) (time b)) events).

(** [this.events[idx].time]: reading [time] from an index outside the
    array raises a [TypeError]. *)
Definition timeAt (events : list SynthEvt) (idx : Z) : result num :=
  if idx <? 0 then Err TypeError
  else match events !! Z.to_nat idx with
       | Some evt => Ok (time evt)
       | None => Err TypeError
       end.

(** The value of [leftTime]: [-Infinity] at index 0, the time of the event
    on the left of [midIdx] elsewhere. *)
Inductive leftTime : Set :=
| NegInfinity
| LeftOf (t : num).

(** [leftTime < prevTime]: [-Infinity] is below every time. *)
Definition left_ltb (l : leftTime) (prevTime : num) : bool :=
  match l with
  | NegInfinity => true
  | LeftOf t => Num.ltb t prevTime
  end.

(** The three ways a turn of the search loop ends. *)
Inductive move : Set := Break | GoRight | GoLeft.

(** The body of the search loop after [midIdx] is computed: it reads
    [midTime] and [leftTime], and leaves the loop, or moves [minIdx] up, or
    moves [maxIdx] down. *)
Definition probe (events : list SynthEvt) (prevTime : num) (midIdx : Z)
  : result move :=
  match timeAt events midIdx with
  | Err e => Err e
  | Ok midTime =>
      match (if midIdx =? 0 then Ok NegInfinity
             else match timeAt events (midIdx - 1) with
                  | Ok t => Ok (LeftOf t)
                  | Err e => Err e
                  end) with
      | Err e => Err e
      | Ok leftTime =>
          if left_ltb leftTime prevTime && Num.geb midTime prevTime then
            Ok Break
          else if Num.ltb midTime prevTime then Ok GoRight
          else Ok GoLeft
      end
  end.

(** The [while] loop of [dispatch]; the result is the value of
    [(minIdx, maxIdx, midIdx)] when the loop is left. *)
Equations? search (events : list SynthEvt) (prevTime : num)
    (minIdx maxIdx midIdx : Z) : result (Z * Z * Z)
    by wf (Z.to_nat (maxIdx - minIdx + 1)) lt :=
  search events prevTime minIdx maxIdx midIdx with Z_le_dec minIdx maxIdx := {
    | right _ := Ok (minIdx, maxIdx, midIdx);
    | left _ with probe events prevTime ((minIdx + maxIdx) / 2) := {
        | Err e := Err e;
        | Ok Break := Ok (minIdx, maxIdx, (minIdx + maxIdx) / 2);
        | Ok GoRight :=
            search events prevTime ((minIdx + maxIdx) / 2 + 1) maxIdx
                   ((minIdx + maxIdx) / 2);
        | Ok GoLeft :=
            search events prevTime minIdx ((minIdx + maxIdx) / 2 - 1)
                   ((minIdx + maxIdx) / 2) } }.
Proof.
  all: assert (minIdx <= (minIdx + maxIdx) / 2 <= maxIdx)
    by (split; [apply Z.div_le_lower_bound | apply Z.div_le_upper_bound]; lia).
  all: lia.
Qed.

(** The [for] loop of [dispatch] over the events from [midIdx] on. *)
Fixpoint deliver (target : node) (events : list SynthEvt)
    (curTime realTime : num) : list call :=
  match events with
  | [] => []
  | evt :: rest =>
      if Num.geb (time evt) curTime then []
      else ProcessEvent target evt realTime
           :: deliver target rest curTime realTime
  end.

(** [dispatch(prevTime, curTime, realTime)]: the calls made on the target
    node, in order. *)
Definition dispatch (track : t) (prevTime curTime realTime : num)
  : result (list call) :=
  match target track with
  | None => Ok []
  | Some target =>
      if (length (events track) =? 0)%nat then Ok []
      else
        match search (events track) prevTime 0
                     (Z.of_nat (length (events track)) - 1) 0 with
        | Err e => Err e
        | Ok (minIdx, maxIdx, midIdx) =>
            if minIdx >? maxIdx then Ok []
            else Ok (deliver target (drop (Z.to_nat midIdx) (events track))
                             curTime realTime)
        end
  end.

(** [clear]. *)
Definition clear (track : t) : t := mk (target track) [].

End Track.

(** ** Pieces (piece.js) *)

(** What the scheduler reads from the synthesis network, whose class is not
    part of these files: the nodes, the sample rate in frames per second and
    the number of channels of the output node. *)
Module SynthNet.
Record t : Set :=
  mk { nodes : list node; sampleRate : positive; outNumChans : Z }.
End SynthNet.

Module Piece.

Record t : Set := mk {
  synthNet : option SynthNet.t;
  tracks : list Track.t;
  playTime : num;
  loopTime : num;
  prevTime : num;
  beatsPerMin : Q;
  beatsPerBar : Q;
  noteVal : Q
}.

(** [new Piece(synthNet)]. *)
Definition new (synthNet : option SynthNet.t) : t :=
  mk synthNet [] (Fin 0) (Fin 0) (Fin 0) 140 4 4.

(** Assignments to the fields [tracks], [playTime] and [prevTime]. *)
Definition set_tracks (v : list Track.t) (p : t) : t :=
  mk (synthNet p) v (playTime p) (loopTime p) (prevTime p)
     (beatsPerMin p) (beatsPerBar p) (noteVal p).

Definition set_playTime (v : num) (p : t) : t :=
  mk (synthNet p) (tracks p) v (loopTime p) (prevTime p)
     (beatsPerMin p) (beatsPerBar p) (noteVal p).

Definition set_prevTime (v : num) (p : t) : t :=
  mk (synthNet p) (tracks p) (playTime p) (loopTime p) v
     (beatsPerMin p) (beatsPerBar p) (noteVal p).

(** The state the methods of a piece run in: the piece itself and the
    calls made so far on the nodes and on the network. *)
Record world : Set := World { piece : t; trace : list call }.

(** The two ways a method acts on that state: it makes calls, and it
    assigns to fields of the piece. *)
Definition emit (cs : list call) : ST world unit :=
  modify (fun w => World (piece w) (trace w ++ cs)).

Definition update (f : t -> t) : ST world unit :=
  modify (fun w => World (f (piece w)) (trace w)).

(** [addTrack]. *)
Definition addTrack (track : Track.t) : ST world Track.t :=
  let* _ := update (fun p => set_tracks (tracks p ++ [track]) p) in
  ret track.

(** [beatTime(beatNo)]: the offset in seconds of a beat number, which may
    be fractional.  The quotient and the product are those of the
    rationals, without rounding; a tempo of zero, for which the source
    computes an infinity, is excluded wherever this function is used. *)
Definition beatTime (p : t) (beatNo : Q) : Q :=
  let beatLen := (60 / beatsPerMin p)%Q in
  (beatLen * beatNo)%Q.

(** [noteLen(len)]: the length in seconds of [len] note values; [len] is
    [None] when the argument is left out.  As for [beatTime], a tempo or a
    note value of zero is excluded wherever this function is used. *)
Definition noteLen (p : t) (len : option Q) : Q :=
  let len := match len with
             | Some len => len
             | None => 1%Q
             end in
  let beatLen := (60 / beatsPerMin p)%Q in
  let barLen := (beatLen * beatsPerBar p)%Q in
  let noteLen := (barLen / noteVal p)%Q in
  (len * noteLen * (99 # 100))%Q.


(** [setTime]. *)
Definition setTime (time : num) : ST world unit :=
  update (set_playTime time).

(** The loop of [dispatch] over the tracks that are left; [this.prevTime]
    is read at every turn. *)
Fixpoint dispatchTracks (rest : list Track.t) (curTime realTime : num)
  : ST world unit :=
  match rest with
  | [] => ret tt
  | track :: rest' =>
      let* w := get in
      let* cs := lift (Track.dispatch track (prevTime (piece w))
                                      curTime realTime) in
      let* _ := emit cs in
      dispatchTracks rest' curTime realTime
  end.

(** [dispatch(curTime, realTime)]. *)
Definition dispatch (curTime realTime : num) : ST world unit :=
  let* w := get in
  let* _ := dispatchTracks (tracks (piece w)) curTime realTime in
  update (set_prevTime curTime).

(** [stop]. *)
Definition stop : ST world unit :=
  let* w := get in
  let* _ := match synthNet (piece w) with
            | Some net => emit (map ProcessAllNotesOff (SynthNet.nodes net))
            | None => ret tt
            end in
  update (set_playTime PInf).

(** The variables [makeHandler] closes over and [genAudio] assigns. *)
Record handler : Set :=
  Handler { net : SynthNet.t; curTime : num; realTime : num }.

(** [makeHandler]: reading [sampleRate] from a missing network raises a
    [TypeError]. *)
Definition makeHandler : ST world handler :=
  let* w := get in
  match synthNet (piece w) with
  | None => lift (Err TypeError)
  | Some net => ret (Handler net (playTime (piece w)) (playTime (piece w)))
  end.

Section GenAudio.

(** The size of the buffers of the synthesis network, a constant that is
    declared outside these files. *)
Variable SYNTH_BUF_SIZE : positive.

(** [SYNTH_BUF_SIZE / sampleRate]. *)
Definition quantumTime (net : SynthNet.t) : Q :=
  Zpos SYNTH_BUF_SIZE # SynthNet.sampleRate net.

(** One turn of the loop of [genAudio].  The samples that
    [synthNet.genOutput] leaves in the output node are copied to the
    buffer of the audio event, which no other part of the program
    reads; the copy is not modelled. *)
Definition quantum (h : handler) : ST world handler :=
  let* _ := dispatch (curTime h) (realTime h) in
  let* _ := emit [GenOutput (realTime h)] in
  let curTime' := Num.addQ (curTime h) (quantumTime (net h)) in
  let realTime' := Num.addQ (realTime h) (quantumTime (net h)) in
  let* w := get in
  let* curTime'' :=
    if Num.leb (playTime (piece w)) (loopTime (piece w))
       && Num.gtb curTime' (loopTime (piece w))
    then
      let* _ := dispatch (Num.addQ (loopTime (piece w)) (1 # 100))
                         realTime' in
      let* _ := update (set_prevTime (Fin 0)) in
      ret (Fin 0)
    else ret curTime' in
  let* _ := update (set_playTime curTime'') in
  ret (Handler (net h) curTime'' realTime').

(** [count] turns of the loop. *)
Fixpoint quanta (count : nat) (h : handler) : ST world handler :=
  match count with
  | O => ret h
  | S count' => let* h' := quantum h in quanta count' h'
  end.

(** [genAudio(evt)], for an event whose output buffer has [numChans]
    channels of [numSamples] frames.  Once [numSamples] is known to be
    a multiple of [SYNTH_BUF_SIZE], the loop makes
    [numSamples / SYNTH_BUF_SIZE] turns. *)
Definition genAudio (numChans numSamples : Z) (h : handler)
  : ST world handler :=
  let* w := get in
  let curTime' :=
    if negb (Num.eqb (playTime (piece w)) (curTime h))
    then playTime (piece w) else curTime h in
  let* _ := lift (assert (numChans =? SynthNet.outNumChans (net h))
                         ContractViolation) in
  let* _ := lift (assert (Z.rem numSamples (Zpos SYNTH_BUF_SIZE) =? 0)
                         ContractViolation) in
  quanta (Z.to_nat (numSamples / Zpos SYNTH_BUF_SIZE))
         (Handler (net h) curTime' (realTime h)).

End GenAudio.

End Piece.

(** ** The page (main.js) *)

(** The two functions that [init] binds to the play and stop buttons.  They
    share the piece, the audio context, when the browser has one, and the
    variable [jsAudioNode]. *)
Module Page.

(** The calls made on the audio context and on the script processor nodes
    it creates.  A node is known by the rank of its creation. *)
Inductive audioCall : Set :=
| CreateScriptProcessor (bufferSize numIns numOuts : Z)
| SetOnAudioProcess (jsAudioNode : nat)
| Connect (jsAudioNode : nat)
| Disconnect (jsAudioNode : nat).

Definition is_create (c : audioCall) : bool :=
  match c with
  | CreateScriptProcessor _ _ _ => true
  | _ => false
  end.

(** The number of script processor nodes created so far. *)
Definition numCreated (calls : list audioCall) : nat :=
  length (List.filter is_create calls).

(** The state the two functions close over: whether [audioCtx] is defined,
    the variable [jsAudioNode], the piece with the calls made on its
    synthesis nodes, and the calls made on the audio interface. *)
Record t : Set := mk {
  audioCtx : bool;
  jsAudioNode : option nat;
  world : Piece.world;
  calls : list audioCall
}.

(** The state when [init] returns: no script processor node yet and no
    call made.  The piece is the one that [initSynth], whose code is
    outside these files, has filled. *)
Definition init (audioCtx : bool) (world : Piece.world) : t :=
  mk audioCtx None world [].

(** A method of the piece, run on the piece of the page. *)
Definition onPiece {A} (m : ST Piece.world A) : ST t A :=
  fun pg => match m (world pg) with
            | Ok (a, w) => Ok (a, mk (audioCtx pg) (jsAudioNode pg) w (calls pg))
            | Err e => Err e
            end.

Definition callAudio (cs : list audioCall) : ST t unit :=
  modify (fun pg => mk (audioCtx pg) (jsAudioNode pg) (world pg) (calls pg ++ cs)).

Definition set_jsAudioNode (v : option nat) : ST t unit :=
  modify (fun pg => mk (audioCtx pg) v (world pg) (calls pg)).

(** [stopAudio]. *)
Definition stopAudio : ST t unit :=
  let* pg := get in
  if negb (audioCtx pg) then ret tt
  else
    match jsAudioNode pg with
    | None => ret tt
    | Some node =>
        let* _ := onPiece Piece.stop in
        let* _ := callAudio [Disconnect node] in
        set_jsAudioNode None
    end.

(** [playAudio].  [bufferSize] is 2048 whenever [audioCtx] is defined. *)
Definition playAudio : ST t unit :=
  let* pg := get in
  if negb (audioCtx pg) then ret tt
  else
    let* _ := match jsAudioNode pg with
              | Some _ => stopAudio
              | None => ret tt
              end in
    let* _ := onPiece (Piece.setTime (Fin 0)) in
    let* pg' := get in
    let node := numCreated (calls pg') in
    let* _ := callAudio [CreateScriptProcessor 2048 2 2] in
    let* _ := set_jsAudioNode (Some node) in
    callAudio [SetOnAudioProcess node; Connect node].

End Page.

(** ** The overdrive node *)

(** The arithmetic the overdrive node does on samples, over exact rationals
    and over binary64 numbers. *)
Class Arith (A : Type) : Type := {
  one : A;
  add : A -> A -> A;
  sub : A -> A -> A;
  mul : A -> A -> A;
  div : A -> A -> A;
  opp : A -> A;
  abs : A -> A;
  gt0 : A -> bool
}.

#[export] Instance Q_Arith : Arith Q := {
  one := 1%Q;
  add := Qplus;
  sub := Qminus;
  mul := Qmult;
  div := Qdiv;
  opp := Qopp;
  abs := Qabs;
  gt0 := Qlt_bool 0
}.

#[export] Instance float_Arith : Arith float := {
  one := 1%float;
  add := PrimFloat.add;
  sub := PrimFloat.sub;
  mul := PrimFloat.mul;
  div := PrimFloat.div;
  opp := PrimFloat.opp;
  abs := PrimFloat.abs;
  gt0 := PrimFloat.ltb 0%float
}.

Module Overdrive.

Section Node.
Context {A : Type} `{Arith A}.

(** The node: its three parameters, the buffer of its input ([None]
    when [hasData()] is false) and the buffer of its output. *)
Record t : Type := mk {
  gain : A;
  threshold : A;
  factor : A;
  input : option (list A);
  output : list A
}.

(** The body of the loop of [update] for one sample [x] of the input:
    the value stored in the output. *)
Definition sample (node : t) (x : A) : A :=
  let f := div one (factor node) in
  let s := mul x (gain node) in
  let absS := abs s in
  let d := sub absS (threshold node) in
  if gt0 d then
    let absS' := add (sub absS d) (mul f d) in
    if gt0 s then absS' else opp absS'
  else s.

(** The loop of [update] from index [i] on, [rest] being what is left of
    the input buffer.  The buffers are typed arrays: a write past the
    end of [outBuf] is dropped. *)
Fixpoint fill (node : t) (i : nat) (rest outBuf : list A) : list A :=
  match rest with
  | [] => outBuf
  | x :: rest' => fill node (S i) rest' (<[i := sample node x]> outBuf)
  end.

(** [update(time, sampleRate)]. *)
Definition update (node : t) : t :=
  match input node with
  | None => node
  | Some inBuf =>
      mk (gain node) (threshold node) (factor node) (input node)
         (fill node 0 inBuf (output node))
  end.

End Node.
Arguments t A : clear implicits.

(** [new Overdrive()] over the rationals: the gain 1, the threshold 0.7 and
    the factor 1.  The buffers stand for those of the input and of the
    output the constructor creates. *)
Definition new (input : option (list Q)) (output : list Q) : t Q :=
  mk 1%Q (7 # 10)%Q 1%Q input output.

End Overdrive.

(** * Vocabulary of the properties *)

(** ** Tracks and windows *)

(** [time_le a b]: event [a] is not later than event [b]. *)
Definition time_le (a b : SynthEvt) : Prop := Num.leb (time a) (time b) = true.

(** A sequence of events is sorted by time when every event is not later
    than the next one. *)
Definition time_sorted (events : list SynthEvt) : Prop := Sorted time_le events.

(** The dispatch window [[prevTime, curTime)]. *)
Definition in_window (prevTime curTime : num) (evt : SynthEvt) : bool :=
  Num.leb prevTime (time evt) && Num.ltb (time evt) curTime.

(** The comparison function of [addEvent]. *)
Definition byTime (a b : SynthEvt) : comparison :=
  Num.sub_sign (time a) (time b).

(** The calls one [Track.dispatch] makes. *)
Definition delivered (track : Track.t) (prevTime curTime realTime : num)
  : list call :=
  match Track.dispatch track prevTime curTime realTime with
  | Ok cs => cs
  | Err _ => []
  end.

(** The calls one [Piece.dispatch] makes, track after track. *)
Definition deliveredAll (p : Piece.t) (curTime realTime : num) : list call :=
  flat_map (fun track => delivered track (Piece.prevTime p) curTime realTime)
           (Piece.tracks p).

(** ** Turns of the loop of [genAudio] *)

(** The condition under which a turn of the loop wraps around. *)
Definition wraps (SYNTH_BUF_SIZE : positive) (h : Piece.handler) (p : Piece.t)
  : bool :=
  let dt := Piece.quantumTime SYNTH_BUF_SIZE (Piece.net h) in
  Num.leb (Piece.playTime p) (Piece.loopTime p)
  && Num.gtb (Num.addQ (Piece.curTime h) dt) (Piece.loopTime p).

(** The handler and the world after one turn that wraps around. *)
Definition after_wrap (SYNTH_BUF_SIZE : positive) (h : Piece.handler)
    (w : Piece.world) : Piece.handler * Piece.world :=
  let p := Piece.piece w in
  let dt := Piece.quantumTime SYNTH_BUF_SIZE (Piece.net h) in
  let realTime' := Num.addQ (Piece.realTime h) dt in
  (Piece.Handler (Piece.net h) (Fin 0) realTime',
   Piece.World
     (Piece.set_playTime (Fin 0) (Piece.set_prevTime (Fin 0) p))
     (Piece.trace w
      ++ deliveredAll p (Piece.curTime h) (Piece.realTime h)
      ++ [GenOutput (Piece.realTime h)]
      ++ deliveredAll (Piece.set_prevTime (Piece.curTime h) p)
           (Num.addQ (Piece.loopTime p) (1 # 100)) realTime')).

(** The handler and the world after one turn that does not. *)
Definition after_step (SYNTH_BUF_SIZE : positive) (h : Piece.handler)
    (w : Piece.world) : Piece.handler * Piece.world :=
  let p := Piece.piece w in
  let dt := Piece.quantumTime SYNTH_BUF_SIZE (Piece.net h) in
  let curTime' := Num.addQ (Piece.curTime h) dt in
  let realTime' := Num.addQ (Piece.realTime h) dt in
  (Piece.Handler (Piece.net h) curTime' realTime',
   Piece.World
     (Piece.set_playTime curTime' (Piece.set_prevTime (Piece.curTime h) p))
     (Piece.trace w
      ++ deliveredAll p (Piece.curTime h) (Piece.realTime h)
      ++ [GenOutput (Piece.realTime h)])).

(** The handler and the world after one turn. *)
Definition after_turn (SYNTH_BUF_SIZE : positive) (h : Piece.handler)
    (w : Piece.world) : Piece.handler * Piece.world :=
  if wraps SYNTH_BUF_SIZE h (Piece.piece w)
  then after_wrap SYNTH_BUF_SIZE h w
  else after_step SYNTH_BUF_SIZE h w.

(** ** Notes, names and scales *)

(** A note table is well formed when every note is recorded under its own
    number, as it is in every table built by [Note]. *)
Definition table_wf (tb : gmap Z Note.t) : Prop :=
  forall val note, tb !! val = Some note -> Note.noteNo note = val.

(** The range of note numbers, [[0,128)]. *)
Definition in_range (noteNo : Z) : Prop := 0 <= noteNo < Note.NUM_NOTES.

(** The name of the note [noteNo] is read back as [noteNo]. *)
Definition name_read_back (noteNo : Z) : bool :=
  match Note.nameToNo (Note.getName (Note.mk 0 noteNo)) with
  | Ok noteNo' => noteNo' =? noteNo
  | Err _ => false
  end.

(** The name of the note [noteNo] is not a note name. *)
Definition name_refused (noteNo : Z) : bool :=
  match Note.nameToNo (Note.getName (Note.mk 0 noteNo)) with
  | Ok _ => false
  | Err e => match e with InvalidNoteName => true | _ => false end
  end.

(** Every character of [s] is a digit. *)
Fixpoint all_digits (s : string) : bool :=
  match s with
  | EmptyString => true
  | String c rest => Note.is_digit c && all_digits rest
  end.

(** The grammar of note names as the specification writes it,
    [^[A-Ga-g]#?-?[0-9]+$]: a letter, an optional [#], an optional minus
    sign, one digit or more, and nothing else. *)
Definition spec_note_grammar (s : string) : bool :=
  match s with
  | EmptyString => false
  | String letter rest =>
      let rest1 := match rest with
                   | String c r => if Note.is_sharp c then r else rest
                   | EmptyString => rest
                   end in
      let rest2 := match rest1 with
                   | String c r => if Ascii.eqb c "-" then r else rest1
                   | EmptyString => rest1
                   end in
      Note.is_letter letter
      && match rest2 with
         | EmptyString => false
         | String _ _ => all_digits rest2
         end
  end.

(** [s] starts with a match of the expression of [nameToNo]: a letter, an
    optional [#] and one digit, the letter with its [#] being [namePart]. *)
Definition note_match (s namePart : string) (digit : ascii) : Prop :=
  exists letter rest,
    Note.is_letter letter = true /\ Note.is_digit digit = true /\
    ((namePart = String letter EmptyString /\
      s = String letter (String digit rest)) \/
     (namePart = String letter (String "#" EmptyString) /\
      s = String letter (String "#" (String digit rest)))).

(** The match at the start of [after] is the leftmost one of
    [before ++ after]. *)
Definition leftmost (name before after : string) : Prop :=
  name = (before ++ after)%string /\
  forall before' after' namePart digit,
    name = (before' ++ after')%string ->
    (String.length before' < String.length before)%nat ->
    ~ note_match after' namePart digit.

(** [namePart] starts with one of the letters [A] to [G], in upper case. *)
Definition upper_name (namePart : string) : bool :=
  match namePart with
  | String letter _ =>
      let n := nat_of_ascii letter in ((65 <=? n) && (n <=? 71))%nat
  | EmptyString => false
  end.

(** [s] starts the way a name of the grammar of the specification starts:
    a letter of either case, an optional [#], an optional minus sign and a
    digit. *)
Definition name_start (s : string) : bool :=
  match s with
  | EmptyString => false
  | String letter rest =>
      let rest1 := match rest with
                   | String c r => if Note.is_sharp c then r else rest
                   | EmptyString => rest
                   end in
      let rest2 := match rest1 with
                   | String c r => if Ascii.eqb c "-" then r else rest1
                   | EmptyString => rest1
                   end in
      Note.is_letter letter
      && match rest2 with
         | EmptyString => false
         | String digit _ => Note.is_digit digit
         end
  end.

(** No name starts in [name] before the place where [after] starts, in
    upper or lower case, with a sign or without one. *)
Definition no_name_before (name before : string) : Prop :=
  forall before' after',
    name = (before' ++ after')%string ->
    (String.length before' < String.length before)%nat ->
    name_start after' = false.

(** No name starts anywhere in [name]. *)
Definition no_name_inside (name : string) : Prop :=
  forall before' after',
    name = (before' ++ after')%string -> name_start after' = false.

(** The numbers of one octave of a scale: [start], then every number is the
    one before it plus the next interval. *)
Fixpoint steps (start : Z) (intervs : list Z) : list Z :=
  match intervs with
  | [] => [start]
  | interv :: rest => start :: steps (start + interv) rest
  end.

(** The numbers of a scale over [numOctaves] octaves: the octaves one after
    the other, each from the root shifted by its rank, and then the root
    shifted by [numOctaves] octaves. *)
Definition scale_numbers (rootNo : Z) (intervs : list Z) (numOctaves : nat)
  : list Z :=
  flat_map (fun octNo => steps (rootNo + 12 * Z.of_nat octNo) intervs)
           (seq 0 numOctaves)
  ++ [rootNo + 12 * Z.of_nat numOctaves].

(** The sum of the intervals of a pattern. *)
Definition total (intervs : list Z) : Z := foldr Z.add 0 intervs.

(** The sign of a rational: -1, 0 or 1. *)
Definition Qsign (q : Q) : Z := Z.sgn (Qnum q).

(** ** Calls and windows *)

(** The call is a [genOutput] on the network. *)
Definition is_genOutput (c : call) : bool :=
  match c with
  | GenOutput _ => true
  | _ => false
  end.

(** The calls for the events of a track that lie in [[prevTime, curTime)]:
    one [processEvent] per event on the target, none when the track has no
    target. *)
Definition window_calls (track : Track.t) (prevTime curTime realTime : num)
  : list call :=
  match Track.target track with
  | Some target =>
      map (fun evt => ProcessEvent target evt realTime)
          (List.filter (in_window prevTime curTime) (Track.events track))
  | None => []
  end.

(** A call that the loop of [genAudio] may make while the playback stays in
    the loop: a [genOutput], or the delivery of an event that is before
    [loopTime + 0.01]. *)
Definition before_loop_end (loopTime : num) (c : call) : Prop :=
  match c with
  | ProcessEvent _ evt _ =>
      Num.ltb (time evt) (Num.addQ loopTime (1 # 100)) = true
  | ProcessAllNotesOff _ => False
  | GenOutput _ => True
  end.

(** What a call delivers: the target and the event of a [processEvent]. *)
Definition delivery (c : call) : option (node * SynthEvt) :=
  match c with
  | ProcessEvent target evt _ => Some (target, evt)
  | _ => None
  end.

(** The deliveries of a sequence of calls, in order. *)
Definition deliveries (calls : list call) : list (node * SynthEvt) :=
  omap delivery calls.

(** The deliveries a track owes for the window [[prevTime, curTime)]. *)
Definition window_of (prevTime curTime : num) (track : Track.t)
  : list (node * SynthEvt) :=
  match Track.target track with
  | Some target =>
      map (pair target)
          (List.filter (in_window prevTime curTime) (Track.events track))
  | None => []
  end.

(** The value of [curTime] after [count] turns that do not wrap around:
    the sum of the code, taken over the rationals, where it is not
    rounded. *)
Definition ticks (SYNTH_BUF_SIZE : positive) (h : Piece.handler) (count : nat)
  : num :=
  Nat.iter count
    (fun t => Num.addQ t (Piece.quantumTime SYNTH_BUF_SIZE (Piece.net h)))
    (Piece.curTime h).

(** [addTrack] for each track of a sequence, in order. *)
Fixpoint addTracks (tracks : list Track.t) : ST Piece.world unit :=
  match tracks with
  | [] => ret tt
  | track :: rest => let* _ := Piece.addTrack track in addTracks rest
  end.


(** The [realTime] a call carries, if it carries one. *)
Definition stamp (c : call) : option num :=
  match c with
  | ProcessEvent _ _ realTime => Some realTime
  | GenOutput realTime => Some realTime
  | ProcessAllNotesOff _ => None
  end.

(** The time stamps of a sequence of calls, in order. *)
Definition stamps (calls : list call) : list num := omap stamp calls.

(** [a <= b] on times, as a proposition. *)
Definition num_le (a b : num) : Prop := Num.leb a b = true.

(** The notes [m] and [n] have different names, or are one note. *)
Definition names_differ (m n : Z) : bool :=
  implb (String.eqb (Note.getName (Note.mk 0 m)) (Note.getName (Note.mk 0 n)))
        (m =? n).

(** ** Interned notes *)

(** A note is interned in a table when the table holds that very object
    under its number. *)
Definition interned (tb : gmap Z Note.t) (note : Note.t) : Prop :=
  tb !! Note.noteNo note = Some note.

(** A computation on the note table is replayable when a run that succeeds
    only adds notes to the table, keeps it well formed, and gives the same
    result without changing the table when it is run again later, on any
    table that has grown from the one it left. *)
Definition replayable {A : Type} (m : Note.M A) : Prop :=
  forall tb a tb1,
    m tb = Ok (a, tb1) ->
    tb ⊆ tb1 /\
    (table_wf tb -> table_wf tb1) /\
    forall tb2, tb1 ⊆ tb2 -> m tb2 = Ok (a, tb2).

(** ** The buttons of the page *)

(** A press on one of the two buttons. *)
Inductive click : Set := Play | Stop.

Definition press (c : click) : ST Page.t unit :=
  match c with
  | Play => Page.playAudio
  | Stop => Page.stopAudio
  end.

Fixpoint presses (clicks : list click) : ST Page.t unit :=
  match clicks with
  | [] => ret tt
  | c :: rest => let* _ := press c in presses rest
  end.

(** The script processor nodes that a sequence of calls leaves connected
    to the destination. *)
Definition connect_step (nodes : list nat) (c : Page.audioCall) : list nat :=
  match c with
  | Page.Connect node => nodes ++ [node]
  | Page.Disconnect node => List.filter (fun n => negb (n =? node)%nat) nodes
  | _ => nodes
  end.

Definition connected (calls : list Page.audioCall) : list nat :=
  fold_left connect_step calls [].

(** The node that [jsAudioNode] holds, if any. *)
Definition playing (pg : Page.t) : list nat :=
  match Page.jsAudioNode pg with
  | Some node => [node]
  | None => []
  end.

(** What a press on a button keeps true of the page, as long as no audio
    callback runs: the node that [jsAudioNode] holds is the one node
    connected, and while it holds one the play time is the 0 that
    [playAudio] has set. *)
Definition page_ok (pg : Page.t) : Prop :=
  connected (Page.calls pg) = playing pg /\
  (forall node, Page.jsAudioNode pg = Some node ->
     Piece.playTime (Piece.piece (Page.world pg)) = Fin 0).

(** ** Examples *)

(** A track with events at the times 1, 2 and 5. *)
Definition track125 : Track.t :=
  Track.mk (Some 7%nat)
    [AllNotesOffEvt (Fin 1); AllNotesOffEvt (Fin 2); AllNotesOffEvt (Fin 5)].

(** A piece that loops at 2 seconds and has reached them, with an event on
    the boundary; one quantum lasts a tenth of a second. *)
Definition loopingWorld : Piece.world :=
  Piece.World
    (Piece.mk (Some (SynthNet.mk [7%nat] 44100 2))
              [Track.mk (Some 7%nat) [AllNotesOffEvt (Fin 2)]]
              (Fin 2) (Fin 2) (Fin (19 # 10)) 140 4 4)
    [].

(** Its handler, twelve seconds after the start of the playback. *)
Definition loopingHandler : Piece.handler :=
  Piece.Handler (SynthNet.mk [7%nat] 44100 2) (Fin 2) (Fin 12).

(** A piece that plays from 0 with a note that starts at 5 seconds. *)
Definition pendingWorld : Piece.world :=
  Piece.World
    (Piece.mk (Some (SynthNet.mk [7%nat] 44100 2))
              [Track.mk (Some 7%nat) [NoteOnEvt (Fin 5) (Note.mk 0 60) 1]]
              (Fin 0) (Fin 10) (Fin 0) 140 4 4)
    [].

(** The table after [new Note(60)]. *)
Definition table60 : gmap Z Note.t := <[60 := Note.mk 0 60]> ∅.

(** The node with its default gain, the threshold 0.7 and the factor 2,
    and one sample of 1.0 in its input. *)
Definition softNode : Overdrive.t Q :=
  Overdrive.mk 1%Q (7 # 10)%Q 2%Q (Some [1%Q]) [0%Q].

(** * Properties *)

(** ** The order on times *)

Lemma Qlt_bool_iff (x y : Q) : Qlt_bool x y = true <-> (x < y)%Q.
Proof.
  unfold Qlt_bool. rewrite negb_true_iff, <- not_true_iff_false, Qle_bool_iff.
  split; [apply Qnot_le_lt | apply Qlt_not_le].
Qed.

Lemma Num_ltb_leb (a b : num) : Num.ltb a b = negb (Num.leb b a).
Proof. destruct a, b; reflexivity. Qed.

Lemma Num_leb_refl (a : num) : Num.leb a a = true.
Proof. destruct a; simpl; trivial. apply Qle_bool_iff, Qle_refl. Qed.

Lemma Num_leb_trans (a b c : num) :
  Num.leb a b = true -> Num.leb b c = true -> Num.leb a c = true.
Proof.
  destruct a, b, c; simpl; trivial; try discriminate.
  rewrite !Qle_bool_iff. apply Qle_trans.
Qed.

Lemma Num_leb_total (a b : num) : Num.leb a b = true \/ Num.leb b a = true.
Proof.
  destruct a, b; simpl; auto.
  rewrite !Qle_bool_iff. destruct (Qlt_le_dec q q0) as [Hlt | Hle]; auto.
  left. apply Qlt_le_weak, Hlt.
Qed.

Lemma Num_ltb_leb_trans (a b c : num) :
  Num.ltb a b = true -> Num.leb b c = true -> Num.ltb a c = true.
Proof.
  rewrite !Num_ltb_leb, !negb_true_iff. intros Hab Hbc.
  destruct (Num.leb c a) eqn:Hca; trivial.
  rewrite (Num_leb_trans _ _ _ Hbc Hca) in Hab. discriminate.
Qed.

Lemma Num_leb_ltb_trans (a b c : num) :
  Num.leb a b = true -> Num.ltb b c = true -> Num.ltb a c = true.
Proof.
  rewrite !Num_ltb_leb, !negb_true_iff. intros Hab Hbc.
  destruct (Num.leb c a) eqn:Hca; trivial.
  rewrite (Num_leb_trans _ _ _ Hca Hab) in Hbc. discriminate.
Qed.

(** ** Sorted tracks *)

Lemma time_sorted_strong (events : list SynthEvt) :
  time_sorted events -> StronglySorted time_le events.
Proof. apply Sorted_StronglySorted. intros a b c. apply Num_leb_trans. Qed.

(** A sorted sequence splits at [prevTime]: the events before it, then the
    events at or after it. *)
Lemma time_sorted_split (prevTime : num) (events : list SynthEvt) :
  time_sorted events ->
  exists lo hi,
    events = lo ++ hi /\
    Forall (fun evt => Num.ltb (time evt) prevTime = true) lo /\
    Forall (fun evt => Num.geb (time evt) prevTime = true) hi.
Proof.
  intros Hs. apply time_sorted_strong in Hs.
  induction Hs as [| evt events Hs IH Hall].
  - exists [], []. repeat split; constructor.
  - destruct (Num.ltb (time evt) prevTime) eqn:Hlt.
    + destruct IH as (lo & hi & -> & Hlo & Hhi).
      exists (evt :: lo), hi. repeat split; trivial. constructor; trivial.
    + exists [], (evt :: events). repeat split; [constructor |].
      assert (Hge : Num.geb (time evt) prevTime = true).
      { unfold Num.geb. rewrite Num_ltb_leb, negb_false_iff in Hlt. exact Hlt. }
      constructor; trivial.
      rewrite List.Forall_forall in Hall |- *. intros e He.
      unfold Num.geb in *. eapply Num_leb_trans; [exact Hge |]. apply Hall, He.
Qed.

(** ** The search loop of [Track.dispatch] *)

Lemma mid_between (minIdx maxIdx : Z) :
  minIdx <= maxIdx -> minIdx <= (minIdx + maxIdx) / 2 <= maxIdx.
Proof.
  intros. split; [apply Z.div_le_lower_bound | apply Z.div_le_upper_bound]; lia.
Qed.

Section Search.

Variables (prevTime : num) (lo hi : list SynthEvt).
Hypothesis Hlo : Forall (fun evt => Num.ltb (time evt) prevTime = true) lo.
Hypothesis Hhi : Forall (fun evt => Num.geb (time evt) prevTime = true) hi.

Let events := lo ++ hi.
Let k := Z.of_nat (length lo).
Let n := Z.of_nat (length events).

Lemma timeAt_lo (idx : Z) :
  0 <= idx < k ->
  exists t, Track.timeAt events idx = Ok t /\ Num.ltb t prevTime = true.
Proof.
  intros Hidx. unfold Track.timeAt.
  destruct (Z.ltb_spec idx 0) as [? | _]; [lia |].
  assert (Hlt : (Z.to_nat idx < length lo)%nat) by (subst k; lia).
  destruct (lookup_lt_is_Some_2 lo _ Hlt) as [evt Hevt].
  unfold events. rewrite (lookup_app_l_Some _ _ _ _ Hevt).
  exists (time evt). split; trivial.
  rewrite List.Forall_forall in Hlo. apply Hlo.
  apply list_elem_of_In, list_elem_of_lookup. eauto.
Qed.

Lemma timeAt_hi (idx : Z) :
  k <= idx < n ->
  exists t, Track.timeAt events idx = Ok t /\ Num.geb t prevTime = true.
Proof.
  intros Hidx. unfold Track.timeAt.
  destruct (Z.ltb_spec idx 0) as [? | _]; [subst k; lia |].
  assert (Hlen : (length lo <= Z.to_nat idx)%nat) by (subst k; lia).
  assert (Hlt : (Z.to_nat idx - length lo < length hi)%nat).
  { subst n k events. rewrite length_app in Hidx. lia. }
  destruct (lookup_lt_is_Some_2 hi _ Hlt) as [evt Hevt].
  unfold events. rewrite lookup_app_r by exact Hlen. rewrite Hevt.
  exists (time evt). split; trivial.
  rewrite List.Forall_forall in Hhi. apply Hhi.
  apply list_elem_of_In, list_elem_of_lookup. eauto.
Qed.

Lemma probe_lo (midIdx : Z) :
  0 <= midIdx < k -> Track.probe events prevTime midIdx = Ok Track.GoRight.
Proof.
  intros Hmid. unfold Track.probe.
  destruct (timeAt_lo midIdx Hmid) as (t & -> & Ht).
  assert (Hge : Num.geb t prevTime = false).
  { unfold Num.geb. rewrite Num_ltb_leb, negb_true_iff in Ht. exact Ht. }
  destruct (Z.eqb_spec midIdx 0) as [_ | Hne].
  - rewrite Hge, andb_false_r, Ht. reflexivity.
  - destruct (timeAt_lo (midIdx - 1)) as (l & -> & _); [lia |].
    rewrite Hge, andb_false_r, Ht. reflexivity.
Qed.

Lemma probe_first :
  k < n -> Track.probe events prevTime k = Ok Track.Break.
Proof.
  intros Hk. unfold Track.probe.
  destruct (timeAt_hi k) as (t & -> & Ht); [subst k; lia |].
  destruct (Z.eqb_spec k 0) as [_ | Hne].
  - simpl. rewrite Ht. reflexivity.
  - destruct (timeAt_lo (k - 1)) as (l & -> & Hl); [subst k; lia |].
    simpl. rewrite Hl, Ht. reflexivity.
Qed.

Lemma probe_hi (midIdx : Z) :
  k < midIdx < n -> Track.probe events prevTime midIdx = Ok Track.GoLeft.
Proof.
  intros Hmid. unfold Track.probe.
  destruct (timeAt_hi midIdx) as (t & -> & Ht); [lia |].
  destruct (Z.eqb_spec midIdx 0) as [-> | _]; [subst k; lia |].
  destruct (timeAt_hi (midIdx - 1)) as (l & -> & Hl); [lia |].
  assert (Hlt : forall x, Num.geb x prevTime = true -> Num.ltb x prevTime = false).
  { intros x Hx. rewrite Num_ltb_leb. unfold Num.geb in Hx. rewrite Hx. reflexivity. }
  simpl. rewrite (Hlt _ Hl), (Hlt _ Ht). reflexivity.
Qed.

(** What [probe] answers at [midIdx], by the position of [midIdx]. *)
Lemma probe_cases (midIdx : Z) :
  0 <= midIdx < n ->
  (midIdx < k /\ Track.probe events prevTime midIdx = Ok Track.GoRight) \/
  (midIdx = k /\ Track.probe events prevTime midIdx = Ok Track.Break) \/
  (k < midIdx /\ Track.probe events prevTime midIdx = Ok Track.GoLeft).
Proof.
  intros Hmid.
  destruct (Z.lt_trichotomy midIdx k) as [Hlt | [-> | Hgt]].
  - left. split; [exact Hlt | apply probe_lo; lia].
  - right; left. split; [reflexivity | apply probe_first; lia].
  - right; right. split; [exact Hgt | apply probe_hi; lia].
Qed.

(** When some event is at or after [prevTime], the loop is left through
    [break], with [midIdx] on the first such event. *)
Lemma search_found (minIdx maxIdx midIdx : Z) :
  0 <= minIdx -> minIdx <= k <= maxIdx -> maxIdx < n ->
  exists minIdx' maxIdx',
    Track.search events prevTime minIdx maxIdx midIdx = Ok (minIdx', maxIdx', k)
    /\ minIdx' <= maxIdx'.
Proof.
  funelim (Track.search events prevTime minIdx maxIdx midIdx);
    intros Hmin Hk Hmax; try lia;
    pose proof (mid_between _ _ l) as Hbetween;
    match goal with
    | Hq : Track.probe _ _ _ = _ |- _ => rename Hq into Hprobe
    end;
    destruct (probe_cases ((minIdx + maxIdx) / 2))
      as [[Hm Hp] | [[Hm Hp] | [Hm Hp]]];
    try lia;
    rewrite Hp in Hprobe; inversion Hprobe; subst.
  - exists minIdx, maxIdx. rewrite Hm. split; [reflexivity | lia].
  - match goal with IH : _ -> _ |- _ => apply IH; trivial; lia end.
  - match goal with IH : _ -> _ |- _ => apply IH; trivial; lia end.
Qed.

(** When every event is before [prevTime], the loop is left with
    [minIdx > maxIdx]. *)
Lemma search_none (minIdx maxIdx midIdx : Z) :
  k = n ->
  0 <= minIdx -> maxIdx < n ->
  exists minIdx' maxIdx' midIdx',
    Track.search events prevTime minIdx maxIdx midIdx
    = Ok (minIdx', maxIdx', midIdx')
    /\ minIdx' > maxIdx'.
Proof.
  intros Hk.
  funelim (Track.search events prevTime minIdx maxIdx midIdx);
    intros Hmin Hmax;
    [ exists minIdx, maxIdx, midIdx; split; [reflexivity | lia] | ..];
    pose proof (mid_between _ _ l) as Hbetween;
    match goal with
    | Hq : Track.probe _ _ _ = _ |- _ => rename Hq into Hprobe
    end;
    destruct (probe_cases ((minIdx + maxIdx) / 2))
      as [[Hm Hp] | [[Hm Hp] | [Hm Hp]]];
    try lia;
    rewrite Hp in Hprobe; inversion Hprobe; subst.
  match goal with IH : _ -> _ |- _ => apply IH; trivial; lia end.
Qed.

End Search.

(** On any sequence of events the loop stays inside the array, so that it
    ends without a [TypeError]. *)
Lemma probe_in_range (events : list SynthEvt) (prevTime : num) (midIdx : Z) :
  0 <= midIdx < Z.of_nat (length events) ->
  exists m, Track.probe events prevTime midIdx = Ok m.
Proof.
  intros Hmid.
  assert (Hat : forall idx, 0 <= idx < Z.of_nat (length events) ->
                            exists t, Track.timeAt events idx = Ok t).
  { intros idx Hidx. unfold Track.timeAt.
    destruct (Z.ltb_spec idx 0) as [? | _]; [lia |].
    destruct (lookup_lt_is_Some_2 events (Z.to_nat idx)) as [evt ->]; [lia |].
    eauto. }
  unfold Track.probe. destruct (Hat midIdx Hmid) as [t ->].
  destruct (Z.eqb_spec midIdx 0) as [_ | Hne].
  - destruct (_ && _); [| destruct (Num.ltb _ _)]; eauto.
  - destruct (Hat (midIdx - 1)) as [l ->]; [lia |].
    destruct (_ && _); [| destruct (Num.ltb _ _)]; eauto.
Qed.

Lemma search_in_range (events : list SynthEvt) (prevTime : num)
    (minIdx maxIdx midIdx : Z) :
  0 <= minIdx -> maxIdx < Z.of_nat (length events) ->
  exists r, Track.search events prevTime minIdx maxIdx midIdx = Ok r.
Proof.
  funelim (Track.search events prevTime minIdx maxIdx midIdx);
    intros Hmin Hmax; eauto;
    pose proof (mid_between _ _ l) as Hbetween.
  - match goal with IH : _ -> _ |- _ => apply IH; lia end.
  - match goal with IH : _ -> _ |- _ => apply IH; lia end.
  - destruct (probe_in_range events prevTime ((minIdx + maxIdx) / 2)) as [m Hm];
      [lia | congruence].
Qed.

(** [Track.dispatch] never fails. *)
Lemma Track_dispatch_total (track : Track.t) (prevTime curTime realTime : num) :
  exists cs, Track.dispatch track prevTime curTime realTime = Ok cs.
Proof.
  unfold Track.dispatch. destruct (Track.target track); [| eauto].
  destruct (length (Track.events track) =? 0)%nat; [eauto |].
  destruct (search_in_range (Track.events track) prevTime 0
              (Z.of_nat (length (Track.events track)) - 1) 0)
    as [[[minIdx maxIdx] midIdx] ->]; [lia | lia |].
  destruct (minIdx >? maxIdx); eauto.
Qed.

(** ** The delivery loop of [Track.dispatch] *)

Lemma deliver_sorted (target : node) (events : list SynthEvt)
    (curTime realTime : num) :
  StronglySorted time_le events ->
  Track.deliver target events curTime realTime
  = map (fun evt => ProcessEvent target evt realTime)
        (List.filter (fun evt => Num.ltb (time evt) curTime) events).
Proof.
  induction 1 as [| evt events Hs IH Hall]; [reflexivity |].
  simpl. rewrite (Num_ltb_leb (time evt)). fold (Num.geb (time evt) curTime).
  destruct (Num.geb (time evt) curTime) eqn:Hge; simpl.
  - assert (Hnone : List.filter (fun e => Num.ltb (time e) curTime) events = []).
    { clear IH. induction Hall as [| e es He _ IHes]; [reflexivity |].
      simpl. rewrite Num_ltb_leb.
      rewrite (Num_leb_trans _ _ _ Hge He). simpl.
      apply IHes. inversion Hs; assumption. }
    rewrite Hnone. reflexivity.
  - rewrite IH. reflexivity.
Qed.

Lemma filter_window_lo (prevTime curTime : num) (lo : list SynthEvt) :
  Forall (fun evt => Num.ltb (time evt) prevTime = true) lo ->
  List.filter (in_window prevTime curTime) lo = [].
Proof.
  induction 1 as [| evt lo Hevt _ IH]; [reflexivity |].
  simpl. unfold in_window at 1.
  rewrite Num_ltb_leb, negb_true_iff in Hevt. rewrite Hevt. exact IH.
Qed.

Lemma filter_window_hi (prevTime curTime : num) (hi : list SynthEvt) :
  Forall (fun evt => Num.geb (time evt) prevTime = true) hi ->
  List.filter (in_window prevTime curTime) hi
  = List.filter (fun evt => Num.ltb (time evt) curTime) hi.
Proof.
  induction 1 as [| evt hi Hevt _ IH]; [reflexivity |].
  simpl. unfold in_window at 1. unfold Num.geb in Hevt.
  rewrite Hevt, IH. reflexivity.
Qed.

Lemma time_sorted_filter (f : SynthEvt -> bool) (events : list SynthEvt) :
  time_sorted events -> time_sorted (List.filter f events).
Proof.
  intros Hs. apply StronglySorted_Sorted.
  apply time_sorted_strong in Hs.
  induction Hs as [| evt events Hs IH Hall]; [constructor |].
  simpl. destruct (f evt); [| exact IH].
  constructor; [exact IH |].
  rewrite List.Forall_forall in Hall |- *.
  intros e He. apply Hall. apply List.filter_In in He. tauto.
Qed.

(** On a sorted track with a target, [Track.dispatch] delivers the events
    of the window, in the order of the track. *)
Lemma dispatch_on_sorted (track : Track.t) (target : node)
    (prevTime curTime realTime : num) :
  Track.target track = Some target ->
  time_sorted (Track.events track) ->
  Track.dispatch track prevTime curTime realTime
  = Ok (map (fun evt => ProcessEvent target evt realTime)
            (List.filter (in_window prevTime curTime) (Track.events track))).
Proof.
  intros Htarget Hsorted.
  destruct track as [tg events]. simpl in *. subst tg.
  destruct (time_sorted_split prevTime _ Hsorted) as (lo & hi & -> & Hlo & Hhi).
  assert (Hstrong : StronglySorted time_le hi).
  { apply time_sorted_strong in Hsorted.
    clear -Hsorted. induction lo; [exact Hsorted |].
    apply IHlo. inversion Hsorted; assumption. }
  unfold Track.dispatch. simpl.
  rewrite List.filter_app, (filter_window_lo _ _ _ Hlo),
    (filter_window_hi _ _ _ Hhi). simpl.
  destruct (Nat.eqb_spec (length (lo ++ hi)) 0) as [Hz | Hnz].
  { apply length_zero_iff_nil, app_eq_nil in Hz. destruct Hz as [_ ->].
    reflexivity. }
  destruct hi as [| evt hi'].
  - destruct (search_none prevTime lo [] Hlo Hhi 0
                (Z.of_nat (length (lo ++ [])) - 1) 0)
      as (minIdx & maxIdx & midIdx & -> & Hgt); trivial; try lia.
    { rewrite app_nil_r. reflexivity. }
    destruct (Z.gtb_spec minIdx maxIdx); [reflexivity | lia].
  - destruct (search_found prevTime lo (evt :: hi') Hlo Hhi 0
                (Z.of_nat (length (lo ++ evt :: hi')) - 1) 0)
      as (minIdx & maxIdx & -> & Hle); trivial; try lia.
    { rewrite length_app. simpl. lia. }
    destruct (Z.gtb_spec minIdx maxIdx); [lia |].
    rewrite Nat2Z.id, drop_app_length.
    rewrite (deliver_sorted _ _ _ _ Hstrong). reflexivity.
Qed.


(** C1. For every track that has a target node and whose events are sorted
    by time, [Track.dispatch(prevTime, curTime, realTime)] returns normally
    and makes on the target exactly the calls [processEvent(evt, realTime)]
    for the events [evt] of the track whose time lies in
    [[prevTime, curTime)], one call per such event, in the order of the
    track, which is the order of ascending time. *)
Theorem Track_dispatch_window (track : Track.t) (target : node)
    (prevTime curTime realTime : num) :
  Track.target track = Some target ->
  time_sorted (Track.events track) ->
  Track.dispatch track prevTime curTime realTime
  = Ok (map (fun evt => ProcessEvent target evt realTime)
            (List.filter (in_window prevTime curTime) (Track.events track)))
  /\ time_sorted (List.filter (in_window prevTime curTime) (Track.events track)).
Proof.
  intros Htarget Hsorted. split.
  - apply dispatch_on_sorted; assumption.
  - apply time_sorted_filter, Hsorted.
Qed.

Lemma track125_sorted : time_sorted (Track.events track125).
Proof. repeat constructor. Defined.

(** [dispatch(0,3)] then [dispatch(3,6)] on the track with events at 1, 2
    and 5: the three events are delivered once each, in order. *)
Lemma Track_dispatch_window_witness :
  time_sorted (Track.events track125) /\
  Track.dispatch track125 (Fin 0) (Fin 3) (Fin 10)
  = Ok [ProcessEvent 7%nat (AllNotesOffEvt (Fin 1)) (Fin 10);
        ProcessEvent 7%nat (AllNotesOffEvt (Fin 2)) (Fin 10)] /\
  Track.dispatch track125 (Fin 3) (Fin 6) (Fin 11)
  = Ok [ProcessEvent 7%nat (AllNotesOffEvt (Fin 5)) (Fin 11)].
Proof.
  split; [exact track125_sorted |]. split.
  - apply (Track_dispatch_window track125 7%nat (Fin 0) (Fin 3) (Fin 10));
      [reflexivity | exact track125_sorted].
  - apply (Track_dispatch_window track125 7%nat (Fin 3) (Fin 6) (Fin 11));
      [reflexivity | exact track125_sorted].
Defined.

(** A window that starts where it ends holds no event, and two windows that
    follow each other hold together what the window over both holds. *)
Lemma in_window_empty (curTime : num) (evt : SynthEvt) :
  in_window curTime curTime evt = false.
Proof.
  unfold in_window. rewrite Num_ltb_leb. destruct (Num.leb _ _); reflexivity.
Qed.

Lemma window_append (a b c : num) (events : list SynthEvt) :
  time_sorted events -> Num.leb a b = true -> Num.leb b c = true ->
  List.filter (in_window a b) events ++ List.filter (in_window b c) events
  = List.filter (in_window a c) events.
Proof.
  intros Hs Hab Hbc. apply time_sorted_strong in Hs.
  induction Hs as [| evt events Hs IH Hall]; [reflexivity |].
  simpl. destruct (Num.leb b (time evt)) eqn:Hb.
  - (* [evt] and all that follow are at or after [b] *)
    assert (Hnone : List.filter (in_window a b) events = []).
    { clear IH. induction Hall as [| e es He _ IHes]; [reflexivity |].
      simpl. unfold in_window at 1. rewrite (Num_ltb_leb (time e)).
      rewrite (Num_leb_trans _ _ _ Hb He), andb_false_r.
      apply IHes. inversion Hs; assumption. }
    assert (Hab' : in_window a b evt = false).
    { unfold in_window. rewrite Num_ltb_leb, Hb. apply andb_false_r. }
    assert (Hac : in_window a c evt = in_window b c evt).
    { unfold in_window. rewrite Hb, (Num_leb_trans _ _ _ Hab Hb). reflexivity. }
    rewrite Hab', Hac, <- IH, Hnone. reflexivity.
  - assert (Hlt : Num.ltb (time evt) b = true)
      by (rewrite Num_ltb_leb, Hb; reflexivity).
    assert (Hbc' : in_window b c evt = false).
    { unfold in_window. rewrite Hb. reflexivity. }
    assert (Hac : in_window a c evt = in_window a b evt).
    { unfold in_window.
      rewrite Hlt, (Num_ltb_leb_trans _ _ _ Hlt Hbc). reflexivity. }
    rewrite Hbc', Hac, <- IH. destruct (in_window a b evt); reflexivity.
Qed.

(** [dispatch(0,4)] then [dispatch(4,4)] on events at 0, 2 and 4: the event
    at 0 is delivered, the event at 4 is not, and the second call delivers
    nothing. *)
Example Track_dispatch_0_4_then_4_4 :
  let track := Track.mk (Some 7%nat)
      [AllNotesOffEvt (Fin 0); AllNotesOffEvt (Fin 2); AllNotesOffEvt (Fin 4)] in
  Track.dispatch track (Fin 0) (Fin 4) (Fin 0)
  = Ok [ProcessEvent 7%nat (AllNotesOffEvt (Fin 0)) (Fin 0);
        ProcessEvent 7%nat (AllNotesOffEvt (Fin 2)) (Fin 0)] /\
  Track.dispatch track (Fin 4) (Fin 4) (Fin 0) = Ok [].
Proof. split; reflexivity. Qed.

(** ** [Track.addEvent] keeps a track sorted *)

Lemma sub_sign_le (a b : num) :
  Num.sub_sign a b <> Gt <-> Num.leb a b = true.
Proof.
  destruct a, b; simpl; try (split; congruence).
  rewrite Qle_bool_iff. symmetry. apply Qle_alt.
Qed.

Lemma sub_sign_Gt (a b : num) : Num.sub_sign a b = Gt -> Num.leb b a = true.
Proof.
  destruct a, b; simpl; try congruence.
  rewrite Qle_bool_iff, <- Qgt_alt. apply Qlt_le_weak.
Qed.

Lemma insert_perm (x : SynthEvt) (l : list SynthEvt) :
  Permutation (JsArray.insert byTime x l) (x :: l).
Proof.
  induction l as [| y l IH]; simpl; [reflexivity |].
  destruct (byTime x y); try reflexivity.
  rewrite IH. apply perm_swap.
Qed.

Lemma sort_perm (l : list SynthEvt) : Permutation (JsArray.sort byTime l) l.
Proof.
  induction l as [| x l IH]; simpl; [reflexivity |].
  rewrite insert_perm, IH. reflexivity.
Qed.

Lemma insert_sorted (x : SynthEvt) (l : list SynthEvt) :
  time_sorted l -> time_sorted (JsArray.insert byTime x l).
Proof.
  unfold time_sorted. induction 1 as [| y l Hs IH Hhd]; simpl.
  - repeat constructor.
  - destruct (byTime x y) eqn:Hc.
    + constructor; [constructor; assumption |]. constructor.
      apply sub_sign_le. unfold byTime in Hc. congruence.
    + constructor; [constructor; assumption |]. constructor.
      apply sub_sign_le. unfold byTime in Hc. congruence.
    + constructor; [exact IH |].
      apply sub_sign_Gt in Hc.
      destruct l as [| z l]; simpl.
      * constructor. exact Hc.
      * destruct (byTime x z); constructor; trivial; inversion Hhd; assumption.
Qed.

Lemma sort_sorted (l : list SynthEvt) : time_sorted (JsArray.sort byTime l).
Proof.
  induction l as [| x l IH]; simpl; [constructor | apply insert_sorted, IH].
Qed.

Lemma snoc_sorted (events : list SynthEvt) (tail evt : SynthEvt) :
  time_sorted events -> last events = Some tail -> time_le tail evt ->
  time_sorted (events ++ [evt]).
Proof.
  unfold time_sorted. induction 1 as [| e l Hs IH Hhd]; [discriminate |].
  intros Hlast Hle. simpl. destruct l as [| e' l'].
  - simpl in *. injection Hlast as ->. repeat constructor. exact Hle.
  - constructor; [apply IH; trivial |].
    simpl. constructor. inversion Hhd; assumption.
Qed.

(** The element that [addEvent] compares the new event with is the event
    that was last before the [push]. *)
Lemma before_last (events : list SynthEvt) (evt : SynthEvt) :
  events <> [] ->
  (events ++ [evt]) !! (length (events ++ [evt]) - 2)%nat = last events.
Proof.
  intros Hne. rewrite length_app. simpl. rewrite last_lookup.
  destruct events as [| e l]; [congruence |].
  replace (length (e :: l) + 1 - 2)%nat with (Init.Nat.pred (length (e :: l)))
    by (simpl; lia).
  apply lookup_app_l. simpl. lia.
Qed.

(** The events after [addEvent], by the event that was last. *)
Lemma addEvent_events (track : Track.t) (evt : SynthEvt) :
  Track.events (Track.addEvent track evt)
  = match last (Track.events track) with
    | None => [evt]
    | Some tail =>
        if Num.geb (time evt) (time tail) then Track.events track ++ [evt]
        else JsArray.sort byTime (Track.events track ++ [evt])
    end.
Proof.
  destruct track as [tg events]. unfold Track.addEvent. simpl.
  destruct events as [| e l] using rev_ind; [reflexivity |].
  clear IHl. rewrite before_last by (destruct l; discriminate).
  rewrite last_snoc, length_app, length_app. simpl.
  replace (length l + 1 + 1 =? 1)%nat with false
    by (symmetry; apply Nat.eqb_neq; lia).
  destruct (Num.geb (time evt) (time e)); reflexivity.
Qed.

Lemma addEvent_keeps_sorted (track : Track.t) (evt : SynthEvt) :
  time_sorted (Track.events track) ->
  time_sorted (Track.events (Track.addEvent track evt)).
Proof.
  intros Hsorted. rewrite addEvent_events.
  destruct (last (Track.events track)) as [tail |] eqn:Hlast.
  - destruct (Num.geb (time evt) (time tail)) eqn:Hge.
    + apply (snoc_sorted _ tail); assumption.
    + apply sort_sorted.
  - repeat constructor.
Qed.

(** A track built by [new Track(target)] and any sequence of [addEvent] is
    sorted by time. *)
Lemma Track_built_sorted (target : option node) (evts : list SynthEvt) :
  time_sorted (Track.events (fold_left Track.addEvent evts (Track.new target))).
Proof.
  assert (Hall : forall track,
             time_sorted (Track.events track) ->
             time_sorted (Track.events (fold_left Track.addEvent evts track))).
  { induction evts as [| evt evts IH]; intros track Hsorted; [exact Hsorted |].
    simpl. apply IH, addEvent_keeps_sorted, Hsorted. }
  apply Hall. constructor.
Qed.

(** C6. When the events of a track are sorted by time, they are sorted by
    time again after [addEvent(evt)], and they are the former events and
    [evt]; the target is the same.  On an empty track, and when [evt] is not
    earlier than the event that was last, [evt] is appended in place;
    otherwise the sequence with [evt] appended is sorted by time as a
    whole. *)
Theorem Track_addEvent_sorted (track : Track.t) (evt : SynthEvt) :
  time_sorted (Track.events track) ->
  let track' := Track.addEvent track evt in
  time_sorted (Track.events track') /\
  Permutation (Track.events track') (Track.events track ++ [evt]) /\
  Track.target track' = Track.target track /\
  (Track.events track = [] -> Track.events track' = [evt]) /\
  (forall tail, last (Track.events track) = Some tail ->
     Num.geb (time evt) (time tail) = true ->
     Track.events track' = Track.events track ++ [evt]) /\
  (forall tail, last (Track.events track) = Some tail ->
     Num.geb (time evt) (time tail) = false ->
     Track.events track' = JsArray.sort byTime (Track.events track ++ [evt])).
Proof.
  intros Hsorted track'. subst track'.
  split; [apply addEvent_keeps_sorted, Hsorted |].
  rewrite addEvent_events. split; [| split; [| split; [| split]]].
  - destruct (last (Track.events track)) as [tail |] eqn:Hlast.
    + destruct (Num.geb (time evt) (time tail)); [reflexivity | apply sort_perm].
    + apply last_None in Hlast. rewrite Hlast. reflexivity.
  - unfold Track.addEvent. destruct (if (_ =? _)%nat then _ else _); reflexivity.
  - intros ->. reflexivity.
  - intros tail -> ->. reflexivity.
  - intros tail -> ->. reflexivity.
Qed.

(** [addEvent] of an event at 3 on the track with events at 1, 2 and 5. *)
Lemma Track_addEvent_sorted_witness :
  time_sorted (Track.events track125) /\
  Track.events (Track.addEvent track125 (AllNotesOffEvt (Fin 3)))
  = [AllNotesOffEvt (Fin 1); AllNotesOffEvt (Fin 2); AllNotesOffEvt (Fin 3);
     AllNotesOffEvt (Fin 5)] /\
  time_sorted (Track.events (Track.addEvent track125 (AllNotesOffEvt (Fin 3)))).
Proof.
  split; [exact track125_sorted |]. split; [reflexivity |].
  apply (Track_addEvent_sorted track125 (AllNotesOffEvt (Fin 3))).
  exact track125_sorted.
Defined.

(** ** [Piece.dispatch] *)

Lemma Track_dispatch_delivered (track : Track.t) (prevTime curTime realTime : num) :
  Track.dispatch track prevTime curTime realTime
  = Ok (delivered track prevTime curTime realTime).
Proof.
  unfold delivered.
  destruct (Track_dispatch_total track prevTime curTime realTime) as [cs ->].
  reflexivity.
Qed.

Lemma dispatchTracks_spec (rest : list Track.t) (curTime realTime : num)
    (w : Piece.world) :
  Piece.dispatchTracks rest curTime realTime w
  = Ok (tt, Piece.World (Piece.piece w)
              (Piece.trace w ++
               flat_map (fun track =>
                           delivered track (Piece.prevTime (Piece.piece w))
                                     curTime realTime) rest)).
Proof.
  revert w. induction rest as [| track rest IH]; intros [p tr]; simpl.
  - unfold ret. rewrite app_nil_r. reflexivity.
  - unfold bind, get, lift, Piece.emit, modify. simpl.
    rewrite Track_dispatch_delivered, IH. simpl.
    rewrite <- app_assoc. reflexivity.
Qed.

Lemma Piece_dispatch_spec (curTime realTime : num) (w : Piece.world) :
  Piece.dispatch curTime realTime w
  = Ok (tt, Piece.World (Piece.set_prevTime curTime (Piece.piece w))
              (Piece.trace w ++ deliveredAll (Piece.piece w) curTime realTime)).
Proof.
  unfold Piece.dispatch, bind, get. rewrite dispatchTracks_spec.
  reflexivity.
Qed.

(** C10. [Piece.dispatch(curTime, realTime)] returns normally.  Of the
    fields of the piece it changes [prevTime] only, which becomes [curTime]:
    the play time, the loop time, the tempo, the time signature, the
    synthesis network, the tracks and the events of every track are what
    they were.  Its other effect is the calls the tracks make on their
    target nodes, which are added to the trace. *)
Theorem Piece_dispatch_frame (curTime realTime : num) (w : Piece.world) :
  exists w',
    Piece.dispatch curTime realTime w = Ok (tt, w') /\
    Piece.prevTime (Piece.piece w') = curTime /\
    Piece.playTime (Piece.piece w') = Piece.playTime (Piece.piece w) /\
    Piece.loopTime (Piece.piece w') = Piece.loopTime (Piece.piece w) /\
    Piece.beatsPerMin (Piece.piece w') = Piece.beatsPerMin (Piece.piece w) /\
    Piece.beatsPerBar (Piece.piece w') = Piece.beatsPerBar (Piece.piece w) /\
    Piece.noteVal (Piece.piece w') = Piece.noteVal (Piece.piece w) /\
    Piece.synthNet (Piece.piece w') = Piece.synthNet (Piece.piece w) /\
    Piece.tracks (Piece.piece w') = Piece.tracks (Piece.piece w) /\
    map Track.events (Piece.tracks (Piece.piece w'))
    = map Track.events (Piece.tracks (Piece.piece w)) /\
    Piece.trace w'
    = Piece.trace w ++ deliveredAll (Piece.piece w) curTime realTime.
Proof.
  eexists. split; [apply Piece_dispatch_spec |].
  simpl. repeat split; reflexivity.
Qed.

(** ** The loop of [genAudio] *)

Section GenAudioFacts.

Variable SYNTH_BUF_SIZE : positive.

Abbreviation quantumTime := (Piece.quantumTime SYNTH_BUF_SIZE).
Abbreviation quantum := (Piece.quantum SYNTH_BUF_SIZE).
Abbreviation quanta := (Piece.quanta SYNTH_BUF_SIZE).

Lemma quantum_spec (h : Piece.handler) (w : Piece.world) :
  quantum h w = Ok (after_turn SYNTH_BUF_SIZE h w).
Proof.
  unfold Piece.quantum, bind at 1. rewrite Piece_dispatch_spec.
  unfold bind at 1, Piece.emit at 1, modify at 1.
  unfold bind at 1, get at 1. cbn [Piece.piece Piece.trace].
  unfold after_turn, wraps. destruct w as [p tr]. simpl.
  destruct (Num.leb (Piece.playTime p) (Piece.loopTime p)
            && Num.gtb _ (Piece.loopTime p)).
  - unfold bind at 1. unfold bind at 1. rewrite Piece_dispatch_spec.
    unfold after_wrap. simpl. rewrite <- !app_assoc. reflexivity.
  - unfold after_step. simpl. rewrite <- !app_assoc. reflexivity.
Qed.


Lemma addQ_leb (a : num) (q : Q) : (0 <= q)%Q -> Num.leb a (Num.addQ a q) = true.
Proof.
  intros Hq. destruct a; simpl; trivial. apply Qle_bool_iff.
  rewrite <- (Qplus_0_r q0) at 1. apply Qplus_le_r, Hq.
Qed.




End GenAudioFacts.


(** ** [Piece.stop] *)

(** [stop] sends the all-notes-off event to every node of the network, in
    order, and sets [playTime] to [Infinity]; nothing else changes. *)
Lemma Piece_stop_spec (w : Piece.world) :
  Piece.stop w
  = Ok (tt, Piece.World
              (Piece.set_playTime PInf (Piece.piece w))
              (Piece.trace w ++
               match Piece.synthNet (Piece.piece w) with
               | Some net => map ProcessAllNotesOff (SynthNet.nodes net)
               | None => []
               end)).
Proof.
  destruct w as [p tr]. unfold Piece.stop, bind, get. simpl.
  destruct (Piece.synthNet p); simpl; [reflexivity |].
  rewrite app_nil_r. reflexivity.
Qed.

(** The first turn of the loop after [stop]: [genAudio] has set [curTime]
    to [playTime], which is [Infinity], while [prevTime] is still the time
    of the last dispatch, so that the window of this turn is
    [[prevTime, Infinity)].  The turn does not wrap around, and it leaves
    [prevTime] at [Infinity]. *)
Lemma quantum_after_stop (SYNTH_BUF_SIZE : positive)
    (h : Piece.handler) (w : Piece.world) :
  Piece.playTime (Piece.piece w) = PInf ->
  Piece.curTime h = PInf ->
  Piece.quantum SYNTH_BUF_SIZE h w
  = Ok (Piece.Handler (Piece.net h) PInf
          (Num.addQ (Piece.realTime h)
                    (Piece.quantumTime SYNTH_BUF_SIZE (Piece.net h))),
        Piece.World
          (Piece.set_playTime PInf (Piece.set_prevTime PInf (Piece.piece w)))
          (Piece.trace w
           ++ deliveredAll (Piece.piece w) PInf (Piece.realTime h)
           ++ [GenOutput (Piece.realTime h)])).
Proof.
  intros Hplay Hcur. rewrite quantum_spec. unfold after_turn.
  replace (wraps SYNTH_BUF_SIZE h (Piece.piece w)) with false.
  - unfold after_step. rewrite Hcur. reflexivity.
  - unfold wraps. rewrite Hplay, Hcur. simpl.
    destruct (Piece.loopTime (Piece.piece w)); reflexivity.
Qed.

(** On a sorted track with a target, the window [[prevTime, Infinity)]
    holds every event that is at or after [prevTime] and is not at
    [Infinity] itself. *)
Lemma delivered_until_Infinity (track : Track.t) (target : node)
    (prevTime realTime : num) :
  Track.target track = Some target ->
  time_sorted (Track.events track) ->
  delivered track prevTime PInf realTime
  = map (fun evt => ProcessEvent target evt realTime)
        (List.filter (fun evt => Num.leb prevTime (time evt)
                                 && Num.ltb (time evt) PInf)
                     (Track.events track)).
Proof.
  intros Htarget Hsorted. unfold delivered.
  rewrite (dispatch_on_sorted track target) by assumption. reflexivity.
Qed.

(** C2, what the code does.  The handler runs one quantum, [stop] is
    called, and the handler runs one more quantum without any [setTime]:
    after the all-notes-off event the target receives the note-on event of
    time 5, which the playback had not reached. *)
Theorem Piece_stop_then_genAudio_delivers_pending :
  exists h w,
    (let* h0 := Piece.makeHandler in
     let* h1 := Piece.genAudio 256 2 256 h0 in
     let* _ := Piece.stop in
     Piece.genAudio 256 2 256 h1) pendingWorld = Ok (h, w) /\
    Piece.playTime (Piece.piece w) = PInf /\
    Piece.trace w
    = [GenOutput (Fin 0);
       ProcessAllNotesOff 7%nat;
       ProcessEvent 7%nat (NoteOnEvt (Fin 5) (Note.mk 0 60) 1)
                    (Num.addQ (Fin 0) (256 # 44100));
       GenOutput (Num.addQ (Fin 0) (256 # 44100))].
Proof. eexists _, _. vm_compute. repeat split; reflexivity. Qed.

(** ** The note table *)

Lemma table_wf_empty : table_wf ∅.
Proof. intros val note H. rewrite lookup_empty in H. discriminate. Qed.

(** [intern] returns the note recorded under [val], which it records when
    there is none; asked again, it returns the same object. *)
Lemma intern_spec (val : Z) (tb : gmap Z Note.t) :
  exists note tb',
    Note.intern val tb = Ok (note, tb') /\
    tb' !! val = Some note /\
    (forall note0, tb !! val = Some note0 -> note = note0 /\ tb' = tb) /\
    (tb !! val = None -> note = Note.mk (size tb) val /\ tb' = <[val := note]> tb) /\
    Note.intern val tb' = Ok (note, tb').
Proof.
  unfold Note.intern. destruct (tb !! val) as [note0 |] eqn:Hval.
  - exists note0, tb. rewrite Hval. repeat split; trivial; congruence.
  - eexists _, _. split; [reflexivity |]. rewrite lookup_insert_eq.
    repeat split; trivial; discriminate.
Qed.

Lemma intern_wf (val : Z) (tb : gmap Z Note.t) :
  table_wf tb ->
  exists note tb',
    Note.intern val tb = Ok (note, tb') /\ Note.noteNo note = val /\ table_wf tb'.
Proof.
  intros Hwf. unfold Note.intern. destruct (tb !! val) as [note0 |] eqn:Hval.
  - exists note0, tb. repeat split; trivial. apply (Hwf _ _ Hval).
  - eexists _, _. split; [reflexivity |]. split; [reflexivity |].
    intros v n. rewrite lookup_insert. case_decide as Hv.
    + intros [= <-]. simpl. congruence.
    + apply Hwf.
Qed.

(** ** Names of notes *)

Lemma getName_noteNo (note : Note.t) :
  Note.getName note = Note.getName (Note.mk 0 (Note.noteNo note)).
Proof. reflexivity. Qed.

Lemma Z_in_seq (lo len : nat) (z : Z) :
  Z.of_nat lo <= z < Z.of_nat (lo + len) -> In z (map Z.of_nat (seq lo len)).
Proof.
  intros Hz. apply List.in_map_iff. exists (Z.to_nat z). split; [lia |].
  apply List.in_seq. lia.
Qed.

(** From octave 0 on, that is from note 12 on, names are read back. *)
Lemma name_roundtrip_from_12 (note : Note.t) :
  12 <= Note.noteNo note < 128 ->
  Note.nameToNo (Note.getName note) = Ok (Note.noteNo note).
Proof.
  intros Hn. rewrite getName_noteNo.
  assert (Hall : forallb name_read_back (map Z.of_nat (seq 12 116)) = true)
    by (vm_compute; reflexivity).
  rewrite List.forallb_forall in Hall.
  specialize (Hall (Note.noteNo note) (Z_in_seq 12 116 (Note.noteNo note) ltac:(simpl; lia))).
  unfold name_read_back in Hall.
  destruct (Note.nameToNo _) as [noteNo' | e]; [| discriminate].
  apply Z.eqb_eq in Hall. congruence.
Qed.

(** In octave -1, that is below note 12, the name has a minus sign and is
    refused. *)
Lemma name_refused_below_12 (note : Note.t) :
  0 <= Note.noteNo note < 12 ->
  Note.nameToNo (Note.getName note) = Err InvalidNoteName.
Proof.
  intros Hn. rewrite getName_noteNo.
  assert (Hall : forallb name_refused (map Z.of_nat (seq 0 12)) = true)
    by (vm_compute; reflexivity).
  rewrite List.forallb_forall in Hall.
  specialize (Hall (Note.noteNo note) (Z_in_seq 0 12 (Note.noteNo note) ltac:(simpl; lia))).
  unfold name_refused in Hall.
  destruct (Note.nameToNo _) as [noteNo' | []]; try discriminate. reflexivity.
Qed.

(** From note 12 on, the note built from the name of a note is the same
    object. *)
Lemma Note_name_roundtrip_from_12 (noteNo : Z) (tb : gmap Z Note.t) :
  table_wf tb -> 12 <= noteNo < 128 ->
  exists note tb',
    Note.new (Note.VNum noteNo) tb = Ok (note, tb') /\
    Note.new (Note.VStr (Note.getName note)) tb' = Ok (note, tb').
Proof.
  intros Hwf Hn. simpl.
  destruct (intern_wf noteNo tb Hwf) as (note & tb' & Hi & Hno & _).
  destruct (intern_spec noteNo tb) as (note1 & tb1 & Hi1 & _ & _ & _ & Hagain).
  rewrite Hi in Hi1. injection Hi1 as <- <-.
  exists note, tb'. split; [exact Hi |].
  unfold bind, lift. rewrite name_roundtrip_from_12 by (rewrite Hno; exact Hn).
  rewrite Hno. exact Hagain.
Qed.

(** C3, what the code does at note 0.  The note 0 is built, its name is
    ["C-1"], and the constructor refuses that name: the regular expression
    of [nameToNo] has no place for the minus sign of octave -1. *)
Theorem Note_name_roundtrip_fails_at_0 :
  exists note tb,
    Note.new (Note.VNum 0) ∅ = Ok (note, tb) /\
    Note.noteNo note = 0 /\
    Note.getName note = "C-1"%string /\
    Note.new (Note.VStr (Note.getName note)) tb = Err InvalidNoteName.
Proof.
  eexists _, _. split; [reflexivity |]. repeat split.
Qed.

(** ** Range checks of the note operations *)

Lemma in_range_dec (noteNo : Z) :
  ((0 <=? noteNo) && (noteNo <? Note.NUM_NOTES) = true) <-> in_range noteNo.
Proof. unfold in_range, Note.NUM_NOTES. lia. Qed.

Lemma offset_in_range (note : Note.t) (numSemis : Z) (tb : gmap Z Note.t) :
  in_range (Note.noteNo note + numSemis) ->
  Note.offset note numSemis tb = Note.intern (Note.noteNo note + numSemis) tb.
Proof.
  intros Hr. apply in_range_dec in Hr.
  unfold Note.offset, bind, lift, assert. rewrite Hr. reflexivity.
Qed.

Lemma offset_out_of_range (note : Note.t) (numSemis : Z) (tb : gmap Z Note.t) :
  ~ in_range (Note.noteNo note + numSemis) ->
  Note.offset note numSemis tb = Err InvalidNoteNumber.
Proof.
  intros Hr. rewrite <- in_range_dec, not_true_iff_false in Hr.
  unfold Note.offset, bind, lift, assert. rewrite Hr. reflexivity.
Qed.

(** [offset] and [shift] fail with [InvalidNoteNumber] exactly when
    [noteNo + numSemis], for [shift] [noteNo + 12 * numOcts], is outside
    [[0,128)]; otherwise they return the note recorded under that very
    number, which they record when there was none: no clamping.  The
    constructor given a number never fails, whatever the number. *)
Lemma Note_offset_shift_range (note : Note.t) (tb : gmap Z Note.t) :
  (forall numSemis, in_range (Note.noteNo note + numSemis) ->
     exists note' tb',
       Note.offset note numSemis tb = Ok (note', tb') /\
       tb' !! (Note.noteNo note + numSemis) = Some note' /\
       (forall note0, tb !! (Note.noteNo note + numSemis) = Some note0 ->
          note' = note0 /\ tb' = tb) /\
       (tb !! (Note.noteNo note + numSemis) = None ->
          Note.noteNo note' = Note.noteNo note + numSemis)) /\
  (forall numSemis, ~ in_range (Note.noteNo note + numSemis) ->
     Note.offset note numSemis tb = Err InvalidNoteNumber) /\
  (forall numOcts,
     Note.shift note numOcts tb = Note.offset note (12 * numOcts) tb) /\
  (forall val, exists note' tb',
     Note.new (Note.VNum val) tb = Ok (note', tb') /\
     tb' !! val = Some note').
Proof.
  split; [| split; [| split]].
  - intros numSemis Hr. rewrite (offset_in_range _ _ _ Hr).
    destruct (intern_spec (Note.noteNo note + numSemis) tb)
      as (note' & tb' & Hi & Hl & Hsome & Hnone & _).
    exists note', tb'. split; [exact Hi |]. split; [exact Hl |].
    split; [exact Hsome |].
    intros Hfree. destruct (Hnone Hfree) as [-> _]. reflexivity.
  - intros numSemis. apply offset_out_of_range.
  - intros numOcts. unfold Note.shift, Note.NOTES_PER_OCTAVE.
    rewrite (Z.mul_comm numOcts 12). reflexivity.
  - intros val. simpl.
    destruct (intern_spec val tb) as (note' & tb' & Hi & Hl & _).
    exists note', tb'. split; assumption.
Qed.

(** C4, what the code does.  The constructor makes no range check on a
    number it is given, and the range check of [nameToNo] holds of every
    number: the numbers 200 and -5 and the name ["B9"], whose number is
    131, all give a note. *)
Theorem Note_accepts_out_of_range :
  (exists tb, Note.new (Note.VNum 200) ∅ = Ok (Note.mk 0 200, tb)) /\
  (exists tb, Note.new (Note.VNum (-5)) ∅ = Ok (Note.mk 0 (-5), tb)) /\
  (exists tb, Note.new (Note.VStr "B9") ∅ = Ok (Note.mk 0 131, tb)).
Proof. repeat split; eexists; reflexivity. Qed.

(** ** Parsing of note names *)

Lemma digit_not_sharp (c : ascii) :
  Note.is_digit c = true -> Note.is_sharp c = false.
Proof.
  intros Hd. unfold Note.is_sharp. destruct (Ascii.eqb_spec c "#") as [-> |]; trivial.
  discriminate.
Qed.

Lemma is_sharp_eq (c : ascii) : Note.is_sharp c = true -> c = "#"%char.
Proof. unfold Note.is_sharp. apply Ascii.eqb_eq. Qed.

Lemma match_here_iff (s namePart : string) (digit : ascii) :
  Note.match_here s = Some (namePart, digit) <-> note_match s namePart digit.
Proof.
  unfold note_match. split.
  - destruct s as [| l [| c rest]]; simpl; try discriminate.
    destruct (Note.is_letter l) eqn:Hl; [| discriminate].
    destruct (Note.is_sharp c) eqn:Hc.
    + apply is_sharp_eq in Hc. subst c.
      destruct rest as [| d rest]; [discriminate |].
      destruct (Note.is_digit d) eqn:Hd; [| discriminate].
      intros [= <- <-]. exists l, rest. auto.
    + destruct (Note.is_digit c) eqn:Hd; [| discriminate].
      intros [= <- <-]. exists l, rest. auto.
  - intros (l & rest & Hl & Hd & [[-> ->] | [-> ->]]); simpl; rewrite Hl.
    + rewrite (digit_not_sharp _ Hd), Hd. reflexivity.
    + rewrite Hd. reflexivity.
Qed.

Lemma match_here_none (s : string) :
  Note.match_here s = None <-> forall namePart digit, ~ note_match s namePart digit.
Proof.
  split.
  - intros Hnone namePart digit Hm. apply match_here_iff in Hm. congruence.
  - intros Hno. destruct (Note.match_here s) as [[namePart digit] |] eqn:Hm; trivial.
    apply match_here_iff in Hm. destruct (Hno _ _ Hm).
Qed.

Lemma append_nil (s : string) : (EmptyString ++ s)%string = s.
Proof. reflexivity. Qed.

Lemma append_cons (c : ascii) (s1 s2 : string) :
  (String c s1 ++ s2)%string = String c (s1 ++ s2)%string.
Proof. reflexivity. Qed.

(** [regex_match] finds the leftmost match. *)
Lemma regex_match_leftmost (name namePart : string) (digit : ascii) :
  Note.regex_match name = Some (namePart, digit) <->
  exists before after,
    leftmost name before after /\ note_match after namePart digit.
Proof.
  split.
  - induction name as [| c name IH].
    + simpl. discriminate.
    + cbn [Note.regex_match].
      destruct (Note.match_here (String c name)) as [groups |] eqn:Hhere.
      * intros [= ->]. exists EmptyString, (String c name).
        split; [| apply match_here_iff, Hhere].
        split; [reflexivity |]. intros ? ? ? ? _ Hlen. simpl in Hlen. lia.
      * intros Hrest. destruct (IH Hrest) as (before & after & [Heq Hleft] & Hm).
        exists (String c before), after. split; [| exact Hm].
        split; [rewrite append_cons, Heq; reflexivity |].
        intros before' after' np d Hsplit Hlen.
        destruct before' as [| c' before'].
        -- rewrite append_nil in Hsplit. subst after'.
           apply (proj1 (match_here_none _) Hhere).
        -- rewrite append_cons in Hsplit. simpl in Hlen.
           injection Hsplit as _ Hsplit.
           apply (Hleft before' after' np d Hsplit). lia.
  - intros (before & after & [Heq Hleft] & Hm). subst name.
    induction before as [| c before IH].
    + rewrite append_nil. destruct after as [| a after];
        [destruct Hm as (? & ? & _ & _ & [[_ H] | [_ H]]); discriminate |].
      cbn [Note.regex_match]. apply match_here_iff in Hm. rewrite Hm. reflexivity.
    + rewrite append_cons. cbn [Note.regex_match].
      assert (Hnone : Note.match_here (String c (before ++ after)) = None).
      { apply match_here_none. intros np d.
        apply (Hleft EmptyString (String c (before ++ after)) np d);
          [reflexivity | simpl; lia]. }
      rewrite Hnone. apply IH.
      intros before' after' np d Hsplit Hlen.
      apply (Hleft (String c before') after' np d);
        [rewrite !append_cons, Hsplit; reflexivity | simpl; lia].
Qed.

Lemma nameToNo_assert (noteNo : Z) :
  (0 <=? noteNo) || (noteNo <? Note.NUM_NOTES) = true.
Proof. unfold Note.NUM_NOTES. lia. Qed.

Lemma nameToNo_unfold (name : string) :
  Note.nameToNo name
  = match Note.regex_match name with
    | None => Err InvalidNoteName
    | Some (namePart, digit) =>
        match Note.NOTE_NAME_PC !! namePart with
        | None => Err InvalidNoteName
        | Some pc => Ok ((Note.parseInt digit + 1) * 12 + pc)
        end
    end.
Proof.
  unfold Note.nameToNo. destruct (Note.regex_match name) as [[np d] |]; trivial.
  destruct (Note.NOTE_NAME_PC !! np); trivial.
  rewrite nameToNo_assert. reflexivity.
Qed.

Lemma digit_not_minus (c : ascii) :
  Note.is_digit c = true -> Ascii.eqb c "-" = false.
Proof.
  intros Hd. destruct (Ascii.eqb_spec c "-") as [-> |]; trivial. discriminate.
Qed.

(** A match of the expression is the start of a name. *)
Lemma note_match_name_start (s namePart : string) (digit : ascii) :
  note_match s namePart digit -> name_start s = true.
Proof.
  intros (l & rest & Hl & Hd & [[_ ->] | [_ ->]]); cbn [name_start].
  - rewrite (digit_not_sharp _ Hd), (digit_not_minus _ Hd), Hl, Hd. reflexivity.
  - change (Note.is_sharp "#") with true. cbv iota.
    rewrite (digit_not_minus _ Hd), Hl, Hd. reflexivity.
Qed.

(** Of the letters [A] to [G] with and without a [#], the keys of
    [NOTE_NAME_PC] are all but ["E#"] and ["B#"]. *)
Lemma upper_name_pitch_class (s namePart : string) (digit : ascii) :
  note_match s namePart digit -> upper_name namePart = true ->
  Note.NOTE_NAME_PC !! namePart = None <->
  namePart = "E#"%string \/ namePart = "B#"%string.
Proof.
  intros (l & rest & _ & _ & Hcases) Hup.
  assert (Hl : In l ["A"; "B"; "C"; "D"; "E"; "F"; "G"]%char).
  { assert (Hn : (65 <= nat_of_ascii l <= 71)%nat).
    { destruct Hcases as [[-> _] | [-> _]]; cbn [upper_name] in Hup;
        apply andb_prop in Hup; destruct Hup as [Hlo Hhi];
        apply Nat.leb_le in Hlo, Hhi; lia. }
    rewrite <- (ascii_nat_embedding l).
    assert (Hc : (nat_of_ascii l = 65 \/ nat_of_ascii l = 66 \/
                  nat_of_ascii l = 67 \/ nat_of_ascii l = 68 \/
                  nat_of_ascii l = 69 \/ nat_of_ascii l = 70 \/
                  nat_of_ascii l = 71)%nat) by lia.
    repeat (destruct Hc as [-> | Hc]; [vm_compute; tauto |]).
    rewrite Hc. vm_compute; tauto. }
  simpl in Hl.
  repeat (destruct Hl as [<- | Hl];
          [destruct Hcases as [[-> _] | [-> _]];
           (split; [vm_compute; intros Hnone; try discriminate; auto
                   | intros [Heq | Heq]; try discriminate; reflexivity]) |]).
  destruct Hl.
Qed.

(** C5, as the code has it, on names in upper case whose octave has no
    sign.  Take the leftmost place of [name] where a letter of [A] to [G],
    an optional [#] and one digit follow each other, whatever comes before
    and after, and let no name in lower case and no name with a signed
    octave start before it.  When the letter with its [#] is one of the
    twelve keys of [NOTE_NAME_PC], [nameToNo(name)] is
    [(digit + 1) * 12 + pitchClass]; when it is not, which is so for
    ["E#"] and ["B#"] only, the call fails with [InvalidNoteName].  When no
    name starts anywhere in [name], the call fails with [InvalidNoteName].
    Nothing is said of a string whose first name is in lower case or has a
    signed octave. *)
Theorem nameToNo_upper_case_names (name : string) :
  (forall before after namePart digit,
     name = (before ++ after)%string ->
     no_name_before name before ->
     note_match after namePart digit ->
     upper_name namePart = true ->
     (Note.NOTE_NAME_PC !! namePart = None <->
      namePart = "E#"%string \/ namePart = "B#"%string) /\
     Note.nameToNo name
     = match Note.NOTE_NAME_PC !! namePart with
       | Some pc => Ok ((Note.parseInt digit + 1) * 12 + pc)
       | None => Err InvalidNoteName
       end) /\
  (no_name_inside name -> Note.nameToNo name = Err InvalidNoteName).
Proof.
  split.
  - intros before after namePart digit Heq Hbefore Hm Hup.
    split; [exact (upper_name_pitch_class _ _ _ Hm Hup) |].
    assert (Hre : Note.regex_match name = Some (namePart, digit)).
    { apply regex_match_leftmost. exists before, after.
      split; [| exact Hm]. split; [exact Heq |].
      intros before' after' np d Hsplit Hlen Hm'.
      apply note_match_name_start in Hm'.
      rewrite (Hbefore before' after' Hsplit Hlen) in Hm'. discriminate. }
    rewrite nameToNo_unfold, Hre. reflexivity.
  - intros Hnone. rewrite nameToNo_unfold.
    destruct (Note.regex_match name) as [[np d] |] eqn:Hre; [| reflexivity].
    apply regex_match_leftmost in Hre.
    destruct Hre as (before & after & [Heq _] & Hm).
    apply note_match_name_start in Hm.
    rewrite (Hnone before after Heq) in Hm. discriminate.
Qed.

(** The name ["C#4"] between two other characters is read as note 61;
    ["E#4"] is refused, and so is ["H4"], in which no name starts. *)
Lemma nameToNo_upper_case_names_witness :
  Note.nameToNo "xC#4!" = Ok 61 /\
  Note.nameToNo "E#4" = Err InvalidNoteName /\
  Note.nameToNo "H4" = Err InvalidNoteName.
Proof.
  assert (Hfirst : forall name, no_name_before name EmptyString).
  { intros name before' after' _ Hlen. simpl in Hlen. lia. }
  assert (Hsecond : forall c name, name_start (String c name) = false ->
            no_name_before (String c name) (String c EmptyString)).
  { intros c name Hstart before' after' Hsplit Hlen.
    destruct before' as [| c' before']; [| simpl in Hlen; lia].
    rewrite append_nil in Hsplit. subst after'. exact Hstart. }
  split; [| split].
  - destruct (proj1 (nameToNo_upper_case_names "xC#4!") "x" "C#4!" "C#" "4"%char)
      as [_ Hrun].
    + reflexivity.
    + apply Hsecond. reflexivity.
    + exists "C"%char, "!"%string. split; [reflexivity |].
      split; [reflexivity |]. right. split; reflexivity.
    + reflexivity.
    + exact Hrun.
  - destruct (proj1 (nameToNo_upper_case_names "E#4") "" "E#4" "E#" "4"%char)
      as [Hkey Hrun].
    + reflexivity.
    + apply Hfirst.
    + exists "E"%char, ""%string. split; [reflexivity |].
      split; [reflexivity |]. right. split; reflexivity.
    + reflexivity.
    + rewrite Hrun, (proj2 Hkey); [reflexivity | left; reflexivity].
  - apply (proj2 (nameToNo_upper_case_names "H4")).
    intros before' after' Hsplit.
    destruct before' as [| c1 before'];
      [rewrite append_nil in Hsplit; subst after'; reflexivity |].
    rewrite append_cons in Hsplit. injection Hsplit as _ Hsplit.
    destruct before' as [| c2 before'];
      [rewrite append_nil in Hsplit; subst after'; reflexivity |].
    rewrite append_cons in Hsplit. injection Hsplit as _ Hsplit.
    destruct before' as [| c3 before'];
      [rewrite append_nil in Hsplit; subst after'; reflexivity |].
    rewrite append_cons in Hsplit. discriminate.
Defined.

(** C5, against the grammar of the specification: ["xC4"] and ["C4!"] are
    outside the grammar and are read as note 60; ["C10"] is inside the
    grammar and is read with octave 1, as note 24, where [(10 + 1) * 12] is
    132. *)
Lemma nameToNo_differs_from_grammar :
  (spec_note_grammar "xC4" = false /\ Note.nameToNo "xC4" = Ok 60) /\
  (spec_note_grammar "C4!" = false /\ Note.nameToNo "C4!" = Ok 60) /\
  (spec_note_grammar "C10" = true /\ Note.nameToNo "C10" = Ok 24).
Proof. repeat split; vm_compute; reflexivity. Qed.

(** ** Scales *)

(** Every pattern of [scaleIntervs] goes up, and stays inside one octave. *)
Lemma scaleIntervs_inside_octave (scale : string) (intervs : list Z) :
  Scale.scaleIntervs !! scale = Some intervs ->
  Forall (fun interv => 0 < interv) intervs /\ total intervs <= 11.
Proof.
  intros H. apply elem_of_list_to_map_2 in H.
  unfold Scale.scaleIntervs in H.
  repeat (apply elem_of_cons in H; destruct H as [H | H];
          [injection H as -> -> |]).
  all: try (split; [repeat constructor | vm_compute; discriminate]).
  apply elem_of_nil in H. destruct H.
Qed.

Lemma steps_length (start : Z) (intervs : list Z) :
  length (steps start intervs) = S (length intervs).
Proof.
  revert start. induction intervs as [| interv rest IH]; intros start; simpl;
    [reflexivity | rewrite IH; reflexivity].
Qed.

Lemma scale_numbers_length (rootNo : Z) (intervs : list Z) (numOctaves : nat) :
  length (scale_numbers rootNo intervs numOctaves)
  = (numOctaves * length intervs + numOctaves + 1)%nat.
Proof.
  unfold scale_numbers. rewrite length_app. simpl.
  enough (Hlen : forall first,
             length (flat_map (fun octNo => steps (rootNo + 12 * Z.of_nat octNo)
                                                   intervs)
                              (seq first numOctaves))
             = (numOctaves * length intervs + numOctaves)%nat)
    by (rewrite Hlen; reflexivity).
  induction numOctaves as [| n IH]; intros first; simpl; [reflexivity |].
  rewrite length_app, steps_length, IH. lia.
Qed.

Lemma shift_offset (note : Note.t) (numOcts : Z) :
  Note.shift note numOcts = Note.offset note (numOcts * 12).
Proof. reflexivity. Qed.

(** The inner loop, when every number stays in range. *)
Lemma addIntervs_in_range (intervs : list Z) :
  forall (before : list Note.t) (prevNote : Note.t) (tb : gmap Z Note.t),
    table_wf tb ->
    Forall (fun interv => 0 < interv) intervs ->
    0 <= Note.noteNo prevNote ->
    Note.noteNo prevNote + total intervs < 128 ->
    exists notes tb',
      Scale.addIntervs intervs (before ++ [prevNote]) tb = Ok (notes, tb') /\
      table_wf tb' /\
      map Note.noteNo notes
      = map Note.noteNo before ++ steps (Note.noteNo prevNote) intervs.
Proof.
  induction intervs as [| interv rest IH]; intros before prevNote tb Hwf Hpos Hlo Hhi.
  - exists (before ++ [prevNote]), tb. simpl. unfold ret.
    rewrite map_app. auto.
  - inversion Hpos as [| ? ? Hinterv Hrest]; subst.
    unfold total in Hhi. simpl in Hhi. fold (total rest) in Hhi.
    assert (Hrest_pos : 0 <= total rest).
    { clear -Hrest. induction Hrest; unfold total in *; simpl; lia. }
    cbn [Scale.addIntervs]. rewrite last_snoc. unfold bind.
    rewrite offset_in_range by (unfold in_range, Note.NUM_NOTES; lia).
    destruct (intern_wf (Note.noteNo prevNote + interv) tb Hwf)
      as (note & tb1 & -> & Hno & Hwf1).
    destruct (IH (before ++ [prevNote]) note tb1 Hwf1 Hrest)
      as (notes & tb' & Hadd & Hwf' & Hmap); [lia | lia |].
    exists notes, tb'. split; [exact Hadd |]. split; [exact Hwf' |].
    rewrite Hmap, Hno, map_app. simpl. rewrite <- app_assoc. reflexivity.
Qed.

(** The outer loop, when every octave stays in range. *)
Lemma addOctaves_in_range (rootNote : Note.t) (intervs : list Z)
    (octNos : list nat) :
  forall (notes : list Note.t) (tb : gmap Z Note.t),
    table_wf tb ->
    Forall (fun interv => 0 < interv) intervs ->
    0 <= Note.noteNo rootNote ->
    Forall (fun octNo =>
              Note.noteNo rootNote + 12 * Z.of_nat octNo + total intervs < 128)
           octNos ->
    exists notes' tb',
      Scale.addOctaves rootNote intervs octNos notes tb = Ok (notes', tb') /\
      table_wf tb' /\
      map Note.noteNo notes'
      = map Note.noteNo notes
        ++ flat_map (fun octNo =>
                       steps (Note.noteNo rootNote + 12 * Z.of_nat octNo) intervs)
                    octNos.
Proof.
  induction octNos as [| octNo rest IH]; intros notes tb Hwf Hpos Hlo Hhi.
  - exists notes, tb. simpl. unfold ret. rewrite app_nil_r. auto.
  - inversion Hhi as [| ? ? Hoct Hrest]; subst.
    assert (Htotal : 0 <= total intervs).
    { clear -Hpos. induction Hpos; unfold total in *; simpl; lia. }
    cbn [Scale.addOctaves]. unfold bind at 1. rewrite shift_offset.
    rewrite offset_in_range by (unfold in_range, Note.NUM_NOTES; lia).
    destruct (intern_wf (Note.noteNo rootNote + Z.of_nat octNo * 12) tb Hwf)
      as (octRoot & tb1 & -> & Hno & Hwf1).
    destruct (addIntervs_in_range intervs notes octRoot tb1 Hwf1 Hpos)
      as (notes1 & tb2 & Hadd & Hwf2 & Hmap1); [lia | lia |].
    unfold bind. rewrite Hadd.
    destruct (IH notes1 tb2 Hwf2 Hpos Hlo Hrest) as (notes' & tb' & Hoc & Hwf' & Hmap).
    exists notes', tb'. split; [exact Hoc |]. split; [exact Hwf' |].
    rewrite Hmap, Hmap1, Hno. simpl. rewrite <- app_assoc.
    replace (Note.noteNo rootNote + Z.of_nat octNo * 12)
      with (Note.noteNo rootNote + 12 * Z.of_nat octNo) by lia.
    reflexivity.
Qed.

(** The loops fail with [InvalidNoteNumber] only. *)
Lemma offset_error (note : Note.t) (numSemis : Z) (tb : gmap Z Note.t) (e : error) :
  Note.offset note numSemis tb = Err e -> e = InvalidNoteNumber.
Proof.
  unfold Note.offset, bind, lift, assert.
  destruct ((0 <=? _) && (_ <? _)); [| congruence].
  simpl. unfold Note.intern. destruct (tb !! _); discriminate.
Qed.

Lemma addIntervs_error (intervs : list Z) :
  forall (before : list Note.t) (prevNote : Note.t) (tb : gmap Z Note.t) (e : error),
    Scale.addIntervs intervs (before ++ [prevNote]) tb = Err e ->
    e = InvalidNoteNumber.
Proof.
  induction intervs as [| interv rest IH]; intros before prevNote tb e.
  - discriminate.
  - cbn [Scale.addIntervs]. rewrite last_snoc. unfold bind.
    destruct (Note.offset prevNote interv tb) as [[note tb1] | e1] eqn:Hoff.
    + apply IH.
    + intros [= <-]. apply (offset_error _ _ _ _ Hoff).
Qed.

Lemma addOctaves_error (rootNote : Note.t) (intervs : list Z) (octNos : list nat) :
  forall (notes : list Note.t) (tb : gmap Z Note.t) (e : error),
    Scale.addOctaves rootNote intervs octNos notes tb = Err e ->
    e = InvalidNoteNumber.
Proof.
  induction octNos as [| octNo rest IH]; intros notes tb e.
  - discriminate.
  - cbn [Scale.addOctaves]. unfold bind at 1.
    destruct (Note.shift rootNote (Z.of_nat octNo) tb) as [[octRoot tb1] | e1] eqn:Hsh.
    + unfold bind.
      destruct (Scale.addIntervs intervs (notes ++ [octRoot]) tb1)
        as [[notes1 tb2] | e2] eqn:Hadd.
      * apply IH.
      * intros [= <-]. apply (addIntervs_error _ _ _ _ _ Hadd).
    + intros [= <-]. apply (offset_error _ _ _ _ Hsh).
Qed.

(** When the loops succeed, the root itself is in range. *)
Lemma addOctaves_root_in_range (rootNote : Note.t) (intervs : list Z)
    (numOctaves : nat) (notes notes' : list Note.t) (tb tb' : gmap Z Note.t) :
  Scale.addOctaves rootNote intervs (seq 0 (S numOctaves)) notes tb
  = Ok (notes', tb') ->
  in_range (Note.noteNo rootNote).
Proof.
  intros H. cbn [seq Scale.addOctaves] in H. unfold bind at 1 in H.
  assert (Hd : in_range (Note.noteNo rootNote + Z.of_nat 0 * 12)
               \/ ~ in_range (Note.noteNo rootNote + Z.of_nat 0 * 12))
    by (unfold in_range, Note.NUM_NOTES; lia).
  destruct Hd as [Hin | Hout].
  - unfold in_range in *. lia.
  - rewrite shift_offset, (offset_out_of_range _ _ _ Hout) in H. discriminate.
Qed.

(** The numbers of a scale go up: inside an octave because the intervals
    are positive, from one octave to the next because a pattern stays
    inside its octave. *)
Lemma total_nonneg (intervs : list Z) :
  Forall (fun interv => 0 < interv) intervs -> 0 <= total intervs.
Proof. induction 1; unfold total in *; simpl; lia. Qed.

Lemma steps_ascending (intervs : list Z) :
  Forall (fun interv => 0 < interv) intervs ->
  forall start,
    StronglySorted Z.lt (steps start intervs) /\
    Forall (fun x => start <= x <= start + total intervs) (steps start intervs).
Proof.
  induction 1 as [| interv rest Hinterv Hrest IH]; intros start.
  - simpl. split; repeat constructor; unfold total; simpl; lia.
  - destruct (IH (start + interv)) as [Hsorted Hbound].
    pose proof (total_nonneg rest Hrest) as Hnn.
    assert (Htotal : total (interv :: rest) = interv + total rest) by reflexivity.
    simpl. split.
    + constructor; [exact Hsorted |].
      eapply Forall_impl; [exact Hbound |]. simpl. intros x Hx. lia.
    + constructor; [lia |].
      eapply Forall_impl; [exact Hbound |]. simpl. intros x Hx. lia.
Qed.

Lemma ascending_app (l1 l2 : list Z) (bound : Z) :
  StronglySorted Z.lt l1 -> StronglySorted Z.lt l2 ->
  Forall (fun x => x < bound) l1 -> Forall (fun y => bound <= y) l2 ->
  StronglySorted Z.lt (l1 ++ l2).
Proof.
  intros H1 H2 Hlt Hge. induction H1 as [| x l1 H1 IH Hx]; [exact H2 |].
  inversion Hlt as [| ? ? Hxb Hl1]; subst. simpl.
  constructor; [apply IH, Hl1 |].
  apply Forall_app. split; [exact Hx |].
  eapply Forall_impl; [exact Hge |]. simpl. intros y Hy. lia.
Qed.

Lemma scale_numbers_ascending (rootNo : Z) (intervs : list Z) (numOctaves : nat) :
  Forall (fun interv => 0 < interv) intervs -> total intervs <= 11 ->
  Sorted Z.lt (scale_numbers rootNo intervs numOctaves).
Proof.
  intros Hpos Htotal. apply StronglySorted_Sorted. unfold scale_numbers.
  replace (Z.of_nat numOctaves) with (Z.of_nat (0 + numOctaves)) by reflexivity.
  generalize 0%nat as first.
  enough (Hall : forall first,
             StronglySorted Z.lt
               (flat_map (fun octNo => steps (rootNo + 12 * Z.of_nat octNo) intervs)
                         (seq first numOctaves)
                ++ [rootNo + 12 * Z.of_nat (first + numOctaves)]) /\
             Forall (fun x => rootNo + 12 * Z.of_nat first <= x)
               (flat_map (fun octNo => steps (rootNo + 12 * Z.of_nat octNo) intervs)
                         (seq first numOctaves)
                ++ [rootNo + 12 * Z.of_nat (first + numOctaves)]))
    by (intros first; apply Hall).
  induction numOctaves as [| n IH]; intros first.
  - simpl. rewrite Nat.add_0_r. split; repeat constructor. lia.
  - destruct (IH (S first)) as [Hsorted Hbound].
    destruct (steps_ascending intervs Hpos (rootNo + 12 * Z.of_nat first))
      as [Hoct Hin].
    replace (first + S n)%nat with (S first + n)%nat by lia.
    cbn [seq flat_map]. rewrite <- app_assoc. split.
    + apply (ascending_app _ _ (rootNo + 12 * Z.of_nat (S first)));
        [exact Hoct | exact Hsorted | | exact Hbound].
      eapply Forall_impl; [exact Hin |]. simpl. intros x Hx. lia.
    + apply Forall_app. split.
      * eapply Forall_impl; [exact Hin |]. simpl. intros x Hx. lia.
      * eapply Forall_impl; [exact Hbound |]. simpl. intros x Hx. lia.
Qed.

(** [genScale] on a note object, step by step. *)
Lemma genScale_RNote (rootNote : Note.t) (scale : string) (numOctaves : nat)
    (tb : gmap Z Note.t) :
  Scale.genScale (Scale.RNote rootNote) scale (Some numOctaves) tb
  = match Scale.scaleIntervs !! scale with
    | None => Err UnknownScale
    | Some intervs =>
        match Scale.addOctaves rootNote intervs (seq 0 numOctaves) [] tb with
        | Err e => Err e
        | Ok (notes, tb1) =>
            match Note.shift rootNote (Z.of_nat numOctaves) tb1 with
            | Err e => Err e
            | Ok (closing, tb2) => Ok (notes ++ [closing], tb2)
            end
        end
    end.
Proof.
  unfold Scale.genScale, bind, ret, lift.
  destruct (Scale.scaleIntervs !! scale); [| reflexivity].
  destruct (Scale.addOctaves _ _ _ _ _) as [[notes tb1] |]; [| reflexivity].
  destruct (Note.shift _ _ _) as [[closing tb2] |]; reflexivity.
Qed.

(** C8, as the code has it.  [genScale(rootNote, scale, numOctaves)] fails
    with [UnknownScale] when [scale] has no pattern in [scaleIntervs].
    When it has one, and the root and the root shifted by [numOctaves]
    octaves are in [[0,128)], the call returns
    [numOctaves * patternLength + numOctaves + 1] notes: for each octave the
    root shifted by that many octaves and then, interval after interval, the
    previous note offset by the interval, and at the end the root shifted by
    [numOctaves] octaves; every note is higher than the one before it.
    When the root or the shifted root is outside [[0,128)], the call fails
    with [InvalidNoteNumber]. *)
Theorem genScale_spec (rootNote : Note.t) (scale : string) (numOctaves : nat)
    (tb : gmap Z Note.t) :
  table_wf tb ->
  let rootNo := Note.noteNo rootNote in
  let call := Scale.genScale (Scale.RNote rootNote) scale (Some numOctaves) tb in
  (Scale.scaleIntervs !! scale = None -> call = Err UnknownScale) /\
  (forall intervs, Scale.scaleIntervs !! scale = Some intervs ->
     (0 <= rootNo -> rootNo + 12 * Z.of_nat numOctaves < 128 ->
      exists notes tb',
        call = Ok (notes, tb') /\
        length notes = (numOctaves * length intervs + numOctaves + 1)%nat /\
        map Note.noteNo notes = scale_numbers rootNo intervs numOctaves /\
        Sorted Z.lt (map Note.noteNo notes)) /\
     (~ (0 <= rootNo /\ rootNo + 12 * Z.of_nat numOctaves < 128) ->
      call = Err InvalidNoteNumber)).
Proof.
  intros Hwf rootNo call. subst call. rewrite genScale_RNote. split.
  - intros ->. reflexivity.
  - intros intervs Hscale. rewrite Hscale.
    destruct (scaleIntervs_inside_octave _ _ Hscale) as [Hpos Htotal].
    split.
    + intros Hlo Hhi.
      destruct (addOctaves_in_range rootNote intervs (seq 0 numOctaves) [] tb
                  Hwf Hpos Hlo) as (notes & tb1 & Hoc & Hwf1 & Hmap).
      { apply List.Forall_forall. intros octNo Hin. apply List.in_seq in Hin.
        fold rootNo. lia. }
      rewrite Hoc, shift_offset.
      rewrite offset_in_range by (unfold in_range, Note.NUM_NOTES; fold rootNo; lia).
      destruct (intern_wf (Note.noteNo rootNote + Z.of_nat numOctaves * 12) tb1 Hwf1)
        as (closing & tb' & -> & Hno & _).
      exists (notes ++ [closing]), tb'. split; [reflexivity |].
      assert (Hnumbers : map Note.noteNo (notes ++ [closing])
                         = scale_numbers rootNo intervs numOctaves).
      { rewrite map_app, Hmap. simpl. rewrite Hno. unfold scale_numbers.
        replace (Note.noteNo rootNote + Z.of_nat numOctaves * 12)
          with (rootNo + 12 * Z.of_nat numOctaves) by (subst rootNo; lia).
        reflexivity. }
      split; [| split; [exact Hnumbers |]].
      * rewrite <- (length_map Note.noteNo), Hnumbers.
        apply scale_numbers_length.
      * rewrite Hnumbers. apply scale_numbers_ascending; assumption.
    + intros Hout.
      destruct (Scale.addOctaves rootNote intervs (seq 0 numOctaves) [] tb)
        as [[notes tb1] | e] eqn:Hoc.
      * assert (Hclosing : ~ in_range (Note.noteNo rootNote
                                       + Z.of_nat numOctaves * 12)).
        { destruct numOctaves as [| n].
          - unfold in_range, Note.NUM_NOTES. fold rootNo. lia.
          - apply addOctaves_root_in_range in Hoc.
            unfold in_range, Note.NUM_NOTES in *. fold rootNo in Hoc |- *. lia. }
        rewrite shift_offset, (offset_out_of_range _ _ _ Hclosing).
        reflexivity.
      * rewrite (addOctaves_error _ _ _ _ _ _ Hoc). reflexivity.
Qed.

Lemma table60_wf : table_wf table60.
Proof.
  intros val note. unfold table60. rewrite lookup_insert.
  case_decide as Hval; [intros [= <-]; simpl; congruence |].
  rewrite lookup_empty. discriminate.
Defined.

(** The major scale over one octave from the note 60. *)
Lemma genScale_spec_witness :
  table_wf table60 /\
  exists notes tb',
    Scale.genScale (Scale.RNote (Note.mk 0 60)) "major" (Some 1%nat) table60
    = Ok (notes, tb') /\
    length notes = 8%nat /\
    map Note.noteNo notes = [60; 62; 64; 65; 67; 69; 71; 72] /\
    Sorted Z.lt (map Note.noteNo notes).
Proof.
  split; [exact table60_wf |].
  destruct (genScale_spec (Note.mk 0 60) "major" 1 table60 table60_wf)
    as [_ Hknown].
  destruct (Hknown [2; 2; 1; 2; 2; 2] eq_refl) as [Hin _].
  destruct Hin as (notes & tb' & Hcall & Hlen & Hmap & Hup);
    [simpl; lia | simpl; lia |].
  exists notes, tb'. auto.
Defined.

(** [genScale(new Note(60), 'major', 1)], computed: eight notes, each
    higher than the one before. *)
Example genScale_major_60 :
  exists notes tb,
    (let* rootNote := Note.new (Note.VNum 60) in
     Scale.genScale (Scale.RNote rootNote) "major" (Some 1%nat)) ∅
    = Ok (notes, tb) /\
    map Note.noteNo notes = [60; 62; 64; 65; 67; 69; 71; 72] /\
    length notes = 8%nat /\
    Sorted Z.lt (map Note.noteNo notes).
Proof.
  eexists _, _. split; [vm_compute; reflexivity |]. simpl.
  repeat split. repeat constructor.
Qed.

(** C8, a known scale that gives no sequence: [major] has a pattern, and
    from the root 127 the call fails with [InvalidNoteNumber]. *)
Lemma genScale_fails_from_127 :
  Scale.scaleIntervs !! "major"%string = Some [2; 2; 1; 2; 2; 2] /\
  (let* rootNote := Note.new (Note.VNum 127) in
   Scale.genScale (Scale.RNote rootNote) "major" (Some 1%nat)) ∅
  = Err InvalidNoteNumber.
Proof. split; vm_compute; reflexivity. Qed.

(** ** The overdrive node *)

Lemma Qsign_pos (q : Q) : (0 < q)%Q -> Qsign q = 1.
Proof.
  unfold Qlt, Qsign. simpl. rewrite Z.mul_1_r. intros Hq.
  apply Z.sgn_pos, Hq.
Qed.

Lemma Qsign_neg (q : Q) : (q < 0)%Q -> Qsign q = -1.
Proof.
  unfold Qlt, Qsign. simpl. rewrite Z.mul_1_r. intros Hq.
  apply Z.sgn_neg, Hq.
Qed.

Lemma Qlt_bool_false (x y : Q) : Qlt_bool x y = false <-> (y <= x)%Q.
Proof. unfold Qlt_bool. rewrite negb_false_iff. apply Qle_bool_iff. Qed.

(** The body of the loop over the rationals. *)
Lemma sample_Q (node : Overdrive.t Q) (x : Q) :
  let s := (x * Overdrive.gain node)%Q in
  let d := (Qabs s - Overdrive.threshold node)%Q in
  let absS' := ((Qabs s - d) + (1 / Overdrive.factor node) * d)%Q in
  Overdrive.sample node x
  = if Qlt_bool 0 d then (if Qlt_bool 0 s then absS' else (- absS')%Q) else s.
Proof. reflexivity. Qed.

(** Below the threshold and on it, the sample goes through. *)
Lemma sample_passthrough (node : Overdrive.t Q) (x : Q) :
  (Qabs (x * Overdrive.gain node) <= Overdrive.threshold node)%Q ->
  Overdrive.sample node x = (x * Overdrive.gain node)%Q.
Proof.
  intros Hle. rewrite sample_Q. cbv zeta.
  replace (Qlt_bool 0 (Qabs (x * Overdrive.gain node) - Overdrive.threshold node))
    with false; [reflexivity |].
  symmetry. apply Qlt_bool_false.
  apply (Qplus_le_l _ _ (Overdrive.threshold node)). ring_simplify. exact Hle.
Qed.

(** Above the threshold, the sample is compressed: what [update] stores is
    the compressed magnitude with the sign of the scaled sample. *)
Lemma sample_above (node : Overdrive.t Q) (x : Q) :
  (Overdrive.threshold node < Qabs (x * Overdrive.gain node))%Q ->
  let s := (x * Overdrive.gain node)%Q in
  let d := (Qabs s - Overdrive.threshold node)%Q in
  let absS' := ((Qabs s - d) + (1 / Overdrive.factor node) * d)%Q in
  Overdrive.sample node x = if Qlt_bool 0 s then absS' else (- absS')%Q.
Proof.
  intros Hlt s d absS'. rewrite sample_Q. cbv zeta. fold s. fold d.
  replace (Qlt_bool 0 d) with true; [reflexivity |].
  symmetry. apply Qlt_bool_iff. unfold d.
  apply (Qplus_lt_l _ _ (Overdrive.threshold node)). ring_simplify. exact Hlt.
Qed.

Lemma fill_lookup (node : Overdrive.t Q) (rest : list Q) :
  forall (first : nat) (outBuf : list Q) (i : nat) (x : Q),
    rest !! i = Some x -> (first + i < length outBuf)%nat ->
    Overdrive.fill node first rest outBuf !! (first + i)%nat
    = Some (Overdrive.sample node x).
Proof.
  induction rest as [| y rest IH]; intros first outBuf i x Hx Hi; [discriminate |].
  simpl. destruct i as [| i].
  - injection Hx as ->. rewrite Nat.add_0_r in *.
    assert (Hkeep : forall (rest' : list Q) (k : nat) (buf : list Q),
               (first < k)%nat ->
               Overdrive.fill node k rest' buf !! first = buf !! first).
    { induction rest' as [| z rest' IH']; intros k buf Hk; [reflexivity |].
      simpl. rewrite IH' by lia. apply list_lookup_insert_ne. lia. }
    rewrite Hkeep by lia. apply list_lookup_insert_eq. exact Hi.
  - replace (first + S i)%nat with (S first + i)%nat by lia.
    apply IH; [exact Hx |]. rewrite length_insert. lia.
Qed.

Lemma fill_length (node : Overdrive.t Q) (rest : list Q) :
  forall (first : nat) (outBuf : list Q),
    length (Overdrive.fill node first rest outBuf) = length outBuf.
Proof.
  induction rest as [| y rest IH]; intros first outBuf; [reflexivity |].
  simpl. rewrite IH. apply length_insert.
Qed.

(** C9, as the code has it, with the samples and the parameters as exact
    rationals.  For a sample [x] of the input, let [s = x * gain],
    [d = |s| - threshold] and [m = (|s| - d) + (1 / factor) * d], which is
    the sum the code makes.  Whatever the parameters are, the value stored
    in the output is [s] itself when [|s| <= threshold].  For a threshold
    that is not negative and a factor that is positive, the value stored
    when [|s| > threshold] has the magnitude [m] and the sign of [s], which
    is the sign of [x] when the gain is positive.  Whatever the parameters
    are, [update] stores that value at the index of the sample and keeps
    the length of the output buffer, and when the input has no data it
    leaves the node as it is. *)
Theorem Overdrive_sample_spec (node : Overdrive.t Q) (x : Q) :
  let s := (x * Overdrive.gain node)%Q in
  let d := (Qabs s - Overdrive.threshold node)%Q in
  let m := ((Qabs s - d) + (1 / Overdrive.factor node) * d)%Q in
  ((Qabs s <= Overdrive.threshold node)%Q -> Overdrive.sample node x = s) /\
  ((0 <= Overdrive.threshold node)%Q -> (0 < Overdrive.factor node)%Q ->
   (Overdrive.threshold node < Qabs s)%Q ->
   (Qabs (Overdrive.sample node x) == m)%Q /\
   Qsign (Overdrive.sample node x) = Qsign s /\
   ((0 < Overdrive.gain node)%Q -> Qsign (Overdrive.sample node x) = Qsign x)) /\
  (forall inBuf i, Overdrive.input node = Some inBuf ->
     inBuf !! i = Some x -> (i < length (Overdrive.output node))%nat ->
     Overdrive.output (Overdrive.update node) !! i
     = Some (Overdrive.sample node x)) /\
  length (Overdrive.output (Overdrive.update node))
  = length (Overdrive.output node) /\
  (Overdrive.input node = None -> Overdrive.update node = node).
Proof.
  intros s d m. split; [apply sample_passthrough |].
  split; [| split; [| split]].
  - intros Hth Hf Hlt. rewrite (sample_above node x Hlt). fold s. fold d. fold m.
    assert (Hd : (0 < d)%Q).
    { unfold d. apply (Qplus_lt_l _ _ (Overdrive.threshold node)).
      ring_simplify. exact Hlt. }
    assert (Hinv : (0 < / Overdrive.factor node)%Q) by (apply Qinv_lt_0_compat, Hf).
    assert (Heq : (m == d * / Overdrive.factor node + Overdrive.threshold node)%Q).
    { unfold m, d, Qdiv. ring. }
    assert (Hpos : (0 < m)%Q).
    { rewrite Heq. rewrite <- (Qplus_0_l 0).
      apply Qplus_lt_le_compat; [| exact Hth].
      apply Qmult_lt_0_compat; assumption. }
    assert (Hs : (s < 0)%Q \/ (0 < s)%Q).
    { destruct (Qlt_le_dec s 0) as [Hneg | Hnn]; [left; exact Hneg |].
      destruct (Qlt_le_dec 0 s) as [Hp | Hnp]; [right; exact Hp |].
      exfalso. assert (Hz : (s == 0)%Q) by (apply Qle_antisym; assumption).
      rewrite Hz in Hlt. simpl in Hlt.
      apply (Qlt_not_le _ _ Hlt). exact Hth. }
    assert (Hsign : Qsign (if Qlt_bool 0 s then m else - m)%Q = Qsign s).
    { destruct Hs as [Hneg | Hp].
      - replace (Qlt_bool 0 s) with false
          by (symmetry; apply Qlt_bool_false, Qlt_le_weak, Hneg).
        rewrite (Qsign_neg s Hneg). apply Qsign_neg.
        rewrite <- (Qopp_involutive 0). apply Qopp_lt_compat. exact Hpos.
      - replace (Qlt_bool 0 s) with true by (symmetry; apply Qlt_bool_iff, Hp).
        rewrite (Qsign_pos s Hp). apply Qsign_pos, Hpos. }
    split; [| split; [exact Hsign |]].
    + destruct (Qlt_bool 0 s).
      * apply Qabs_pos, Qlt_le_weak, Hpos.
      * rewrite Qabs_opp. apply Qabs_pos, Qlt_le_weak, Hpos.
    + intros Hgain. rewrite Hsign.
      destruct Hs as [Hneg | Hp].
      * rewrite (Qsign_neg _ Hneg). symmetry. apply Qsign_neg.
        destruct (Qlt_le_dec x 0) as [Hx | Hx]; [exact Hx |]. exfalso.
        apply (Qlt_not_le _ _ Hneg). unfold s. apply Qmult_le_0_compat;
          [exact Hx | apply Qlt_le_weak, Hgain].
      * rewrite (Qsign_pos _ Hp). symmetry. apply Qsign_pos.
        destruct (Qlt_le_dec 0 x) as [Hx | Hx]; [exact Hx |]. exfalso.
        apply (Qlt_not_le _ _ Hp). unfold s.
        assert (Hle : (x * Overdrive.gain node <= 0 * Overdrive.gain node)%Q)
          by (apply Qmult_le_compat_r; [exact Hx | apply Qlt_le_weak, Hgain]).
        rewrite Qmult_0_l in Hle. exact Hle.
  - intros inBuf i Hin Hx Hi. unfold Overdrive.update. rewrite Hin. simpl.
    apply (fill_lookup node inBuf 0 (Overdrive.output node) i x Hx Hi).
  - unfold Overdrive.update. destruct (Overdrive.input node); [| reflexivity].
    simpl. apply fill_length.
  - intros Hnone. unfold Overdrive.update. rewrite Hnone. reflexivity.
Qed.

(** The sample 1.0 with gain 1, threshold 0.7 and factor 2 comes out as
    0.85; the sample 0.5 goes through. *)
Lemma Overdrive_sample_spec_witness :
  (Qabs (Overdrive.sample softNode 1%Q) == 85 # 100)%Q /\
  Qsign (Overdrive.sample softNode 1%Q) = 1 /\
  Overdrive.sample softNode (1 # 2)%Q = ((1 # 2) * Overdrive.gain softNode)%Q /\
  Overdrive.output (Overdrive.update softNode) !! 0%nat
  = Some (Overdrive.sample softNode 1%Q).
Proof.
  destruct (Overdrive_sample_spec softNode 1%Q) as (_ & Habove & Hupdate & _).
  destruct (Overdrive_sample_spec softNode (1 # 2)%Q) as (Hbelow & _).
  destruct Habove as (Hmag & _ & Hsign);
    [discriminate | reflexivity | reflexivity |].
  split; [| split; [| split]].
  - rewrite Hmag. reflexivity.
  - rewrite Hsign; reflexivity.
  - apply Hbelow. discriminate.
  - apply (Hupdate [1%Q] 0%nat); [reflexivity | reflexivity | simpl; lia].
Defined.

(** The sample 1.0 with gain 1, threshold 0.7 and factor 2, over the
    rationals and over binary64 numbers: 0.85 in both. *)
Example Overdrive_sample_085 :
  (Overdrive.sample softNode 1%Q == 85 # 100)%Q /\
  Overdrive.sample
    (Overdrive.mk 1%float 0x1.6666666666666p-1%float 2%float None []) 1%float
  = 0x1.b333333333333p-1%float.
Proof. split; reflexivity. Qed.

(** C9, outputs whose sign is not the sign of the input: with the gain -1
    the sample 1 comes out as -1, with the factor -1 the sample 2 comes
    out as -0.6, and with the threshold -1 and the factor 2 the sample 0.5
    comes out as -0.25.  In the last two the magnitude is not the sum
    [(|s| - d) + (1 / factor) * d] either, which is negative. *)
Lemma Overdrive_sign_not_kept :
  (Qsign 1%Q = 1 /\
   Qsign (Overdrive.sample (Overdrive.mk (-1)%Q (7 # 10)%Q 1%Q None []) 1%Q) = -1 /\
   (Overdrive.sample (Overdrive.mk (-1)%Q (7 # 10)%Q 1%Q None []) 1%Q == -1)%Q) /\
  (Qsign 2%Q = 1 /\
   Qsign (Overdrive.sample (Overdrive.mk 1%Q (7 # 10)%Q (-1)%Q None []) 2%Q) = -1 /\
   (Overdrive.sample (Overdrive.mk 1%Q (7 # 10)%Q (-1)%Q None []) 2%Q == - (6 # 10))%Q) /\
  (Qsign (1 # 2)%Q = 1 /\
   Qsign (Overdrive.sample (Overdrive.mk 1%Q (-1)%Q 2%Q None []) (1 # 2)%Q) = -1 /\
   (Overdrive.sample (Overdrive.mk 1%Q (-1)%Q 2%Q None []) (1 # 2)%Q == - (1 # 4))%Q).
Proof. repeat split. Qed.

(** * More properties of the code *)

(** ** Notes as interned objects *)

Lemma replayable_ret {A : Type} (a : A) : replayable (ret a : Note.M A).
Proof.
  intros tb a' tb1 [= <- <-]. repeat split; trivial.
Qed.

Lemma replayable_lift {A : Type} (r : result A) : replayable (lift r : Note.M A).
Proof.
  intros tb a tb1. unfold lift. destruct r as [a' | e]; [| discriminate].
  intros [= <- <-]. repeat split; trivial.
Qed.

Lemma replayable_bind {A B : Type} (m : Note.M A) (k : A -> Note.M B) :
  replayable m -> (forall a, replayable (k a)) -> replayable (bind m k).
Proof.
  intros Hm Hk tb b tb2. unfold bind.
  destruct (m tb) as [[a tb1] | e] eqn:Hrun; [| discriminate].
  intros Hrun2.
  destruct (Hm _ _ _ Hrun) as (Hsub1 & Hwf1 & Hagain1).
  destruct (Hk a _ _ _ Hrun2) as (Hsub2 & Hwf2 & Hagain2).
  split; [etrans; eassumption |]. split; [auto |].
  intros tb3 Hsub3.
  rewrite (Hagain1 tb3) by (etrans; eassumption).
  apply Hagain2, Hsub3.
Qed.

Lemma replayable_intern (val : Z) : replayable (Note.intern val).
Proof.
  intros tb note tb1 Hrun.
  destruct (intern_spec val tb) as (note' & tb' & Hi & Hl & Hsome & Hnone & _).
  rewrite Hrun in Hi. injection Hi as <- <-.
  split; [| split].
  - destruct (tb !! val) as [note0 |] eqn:Hval.
    + destruct (Hsome note0 eq_refl) as [_ ->]. reflexivity.
    + destruct (Hnone eq_refl) as [_ ->]. apply insert_subseteq, Hval.
  - intros Hwf. destruct (intern_wf val tb Hwf) as (n & t & Hi & _ & Hwf').
    rewrite Hrun in Hi. injection Hi as <- <-. exact Hwf'.
  - intros tb2 Hsub. unfold Note.intern.
    rewrite (lookup_weaken _ _ _ _ Hl Hsub). reflexivity.
Qed.

Lemma replayable_new (val : Note.value) : replayable (Note.new val).
Proof.
  destruct val as [n | name |]; simpl.
  - apply replayable_intern.
  - apply replayable_bind; [apply replayable_lift |].
    intros val. apply replayable_intern.
  - apply replayable_lift.
Qed.

Lemma replayable_offset (note : Note.t) (numSemis : Z) :
  replayable (Note.offset note numSemis).
Proof.
  unfold Note.offset. apply replayable_bind; [apply replayable_lift |].
  intros _. apply replayable_new.
Qed.

Lemma replayable_shift (note : Note.t) (numOcts : Z) :
  replayable (Note.shift note numOcts).
Proof. apply replayable_offset. Qed.

Lemma replayable_addIntervs (intervs : list Z) :
  forall notes, replayable (Scale.addIntervs intervs notes).
Proof.
  induction intervs as [| interv rest IH]; intros notes; simpl.
  - apply replayable_ret.
  - destruct (last notes) as [prevNote |]; [| apply replayable_lift].
    apply replayable_bind; [apply replayable_offset |].
    intros note. apply IH.
Qed.

Lemma replayable_addOctaves (rootNote : Note.t) (intervs : list Z)
    (octNos : list nat) :
  forall notes, replayable (Scale.addOctaves rootNote intervs octNos notes).
Proof.
  induction octNos as [| octNo rest IH]; intros notes; simpl.
  - apply replayable_ret.
  - apply replayable_bind; [apply replayable_shift |]. intros octRoot.
    apply replayable_bind; [apply replayable_addIntervs |]. intros notes'.
    apply IH.
Qed.

Lemma replayable_genScale (rootNote : Scale.root) (scale : string)
    (numOctaves : option nat) :
  replayable (Scale.genScale rootNote scale numOctaves).
Proof.
  unfold Scale.genScale. apply replayable_bind.
  - destruct rootNote; [apply replayable_ret | apply replayable_new].
  - intros note. destruct (Scale.scaleIntervs !! scale);
      [| apply replayable_lift].
    apply replayable_bind; [apply replayable_addOctaves |]. intros notes.
    apply replayable_bind; [apply replayable_shift |]. intros closing.
    apply replayable_ret.
Qed.

Lemma interned_mono (tb tb1 : gmap Z Note.t) (note : Note.t) :
  interned tb note -> tb ⊆ tb1 -> interned tb1 note.
Proof. unfold interned. intros Hl Hsub. apply (lookup_weaken _ _ _ _ Hl Hsub). Qed.

Lemma intern_interned (val : Z) (tb tb1 : gmap Z Note.t) (note : Note.t) :
  table_wf tb -> Note.intern val tb = Ok (note, tb1) ->
  Note.noteNo note = val /\ interned tb1 note.
Proof.
  intros Hwf Hrun.
  destruct (intern_wf val tb Hwf) as (n & t & Hi & Hno & _).
  destruct (intern_spec val tb) as (n' & t' & Hi' & Hl & _).
  rewrite Hrun in Hi, Hi'. injection Hi as <- <-. injection Hi' as <- <-.
  split; [exact Hno |]. unfold interned. rewrite Hno. exact Hl.
Qed.

Lemma offset_interned (prev : Note.t) (numSemis : Z) (tb tb1 : gmap Z Note.t)
    (note : Note.t) :
  table_wf tb -> Note.offset prev numSemis tb = Ok (note, tb1) ->
  Note.noteNo note = Note.noteNo prev + numSemis /\ interned tb1 note /\
  in_range (Note.noteNo prev + numSemis).
Proof.
  intros Hwf Hrun.
  assert (Hd : in_range (Note.noteNo prev + numSemis)
               \/ ~ in_range (Note.noteNo prev + numSemis))
    by (unfold in_range, Note.NUM_NOTES; lia).
  destruct Hd as [Hin | Hout].
  - rewrite (offset_in_range _ _ _ Hin) in Hrun.
    destruct (intern_interned _ _ _ _ Hwf Hrun). auto.
  - rewrite (offset_out_of_range _ _ _ Hout) in Hrun. discriminate.
Qed.

Lemma addIntervs_interned (intervs : list Z) :
  forall notes tb notes' tb1,
    table_wf tb -> Forall (interned tb) notes ->
    Scale.addIntervs intervs notes tb = Ok (notes', tb1) ->
    Forall (interned tb1) notes'.
Proof.
  induction intervs as [| interv rest IH]; intros notes tb notes' tb1 Hwf Hall;
    simpl.
  - intros [= <- <-]. exact Hall.
  - destruct (last notes) as [prevNote |]; [| discriminate].
    unfold bind.
    destruct (Note.offset prevNote interv tb) as [[note tbA] |] eqn:Hoff;
      [| discriminate].
    destruct (replayable_offset _ _ _ _ _ Hoff) as (Hsub & HwfA & _).
    destruct (offset_interned _ _ _ _ _ Hwf Hoff) as (_ & Hnote & _).
    apply IH; [auto |]. apply Forall_app. split; [| repeat constructor; trivial].
    eapply Forall_impl; [exact Hall |]. intros n Hn.
    apply (interned_mono _ _ _ Hn Hsub).
Qed.

Lemma addOctaves_interned (rootNote : Note.t) (intervs : list Z)
    (octNos : list nat) :
  forall notes tb notes' tb1,
    table_wf tb -> Forall (interned tb) notes ->
    Scale.addOctaves rootNote intervs octNos notes tb = Ok (notes', tb1) ->
    Forall (interned tb1) notes'.
Proof.
  induction octNos as [| octNo rest IH]; intros notes tb notes' tb1 Hwf Hall;
    simpl.
  - intros [= <- <-]. exact Hall.
  - unfold bind.
    destruct (Note.shift rootNote (Z.of_nat octNo) tb) as [[octRoot tbA] |] eqn:Hsh;
      [| discriminate].
    destruct (replayable_shift _ _ _ _ _ Hsh) as (Hsub & HwfA & _).
    destruct (offset_interned _ _ _ _ _ Hwf Hsh) as (_ & Hroot & _).
    destruct (Scale.addIntervs intervs (notes ++ [octRoot]) tbA)
      as [[notesB tbB] |] eqn:Hadd; [| discriminate].
    destruct (replayable_addIntervs _ _ _ _ _ Hadd) as (_ & HwfB & _).
    apply IH; [auto |].
    apply (addIntervs_interned _ _ _ _ _ (HwfA Hwf)) in Hadd; [exact Hadd |].
    apply Forall_app. split; [| repeat constructor; trivial].
    eapply Forall_impl; [exact Hall |]. intros n Hn.
    apply (interned_mono _ _ _ Hn Hsub).
Qed.

(** X1. On a well-formed note table, [new Note(val)] returns a note whose
    number is [val] and which the table holds under that number; the
    table stays well formed and keeps every note it had.  From then on,
    on that table and on every table grown from it, [new Note(val)] and
    [new Note(name)] for every name that [nameToNo] reads as [val] return
    that same object and leave the table as it is.  Two interned notes
    for which [Note.sortFn] is zero are one object. *)
Theorem Note_new_interned (val : Z) (tb : gmap Z Note.t) :
  table_wf tb ->
  exists note tb',
    Note.new (Note.VNum val) tb = Ok (note, tb') /\
    Note.noteNo note = val /\
    interned tb' note /\
    table_wf tb' /\
    tb ⊆ tb' /\
    (forall tb'', tb' ⊆ tb'' ->
       Note.new (Note.VNum val) tb'' = Ok (note, tb'') /\
       forall name, Note.nameToNo name = Ok val ->
                    Note.new (Note.VStr name) tb'' = Ok (note, tb'')) /\
    (forall other, interned tb' other -> Note.sortFn note other = 0 ->
                   other = note).
Proof.
  intros Hwf.
  destruct (intern_wf val tb Hwf) as (note & tb' & Hrun & Hno & Hwf').
  exists note, tb'. split; [exact Hrun |]. split; [exact Hno |].
  destruct (intern_interned _ _ _ _ Hwf Hrun) as [_ Hin].
  destruct (replayable_intern _ _ _ _ Hrun) as (Hsub & _ & Hagain).
  split; [exact Hin |]. split; [exact Hwf' |]. split; [exact Hsub |]. split.
  - intros tb'' Hsub'. split; [apply Hagain, Hsub' |].
    intros name Hname. simpl. unfold bind, lift. rewrite Hname.
    apply Hagain, Hsub'.
  - intros other Hother Hsame. unfold interned, Note.sortFn in *.
    replace (Note.noteNo other) with (Note.noteNo note) in Hother by lia.
    congruence.
Qed.

(** [new Note(60)] on the empty table, then [new Note(60)] and
    [new Note('C4')] again. *)
Lemma Note_new_interned_witness :
  exists note tb',
    Note.new (Note.VNum 60) ∅ = Ok (note, tb') /\
    Note.noteNo note = 60 /\
    Note.new (Note.VNum 60) tb' = Ok (note, tb') /\
    Note.new (Note.VStr "C4") tb' = Ok (note, tb').
Proof.
  destruct (Note_new_interned 60 ∅ table_wf_empty)
    as (note & tb' & Hrun & Hno & _ & _ & _ & Hagain & _).
  destruct (Hagain tb' (reflexivity tb')) as [Hnum Hname].
  exists note, tb'. split; [exact Hrun |]. split; [exact Hno |].
  split; [exact Hnum | apply Hname; reflexivity].
Defined.

(** ** Pitch class, octave and name *)

Lemma pitch_class_name (pc : Z) :
  0 <= pc < 12 ->
  exists pcName,
    Note.PC_NOTE_NAME !! pc = Some pcName /\
    Note.NOTE_NAME_PC !! pcName = Some pc.
Proof.
  intros Hpc.
  assert (Hcases : pc = 0 \/ pc = 1 \/ pc = 2 \/ pc = 3 \/ pc = 4 \/ pc = 5 \/
                   pc = 6 \/ pc = 7 \/ pc = 8 \/ pc = 9 \/ pc = 10 \/ pc = 11)
    by lia.
  repeat (destruct Hcases as [-> | Hcases]; [eexists; split; reflexivity |]).
  subst pc. eexists; split; reflexivity.
Qed.

Lemma pitch_class_unnamed (pc : Z) :
  -12 < pc < 0 -> Note.PC_NOTE_NAME !! pc = None.
Proof.
  intros Hpc.
  assert (Hcases : pc = -1 \/ pc = -2 \/ pc = -3 \/ pc = -4 \/ pc = -5 \/
                   pc = -6 \/ pc = -7 \/ pc = -8 \/ pc = -9 \/ pc = -10 \/
                   pc = -11) by lia.
  repeat (destruct Hcases as [-> | Hcases]; [reflexivity |]).
  subst pc. reflexivity.
Qed.

(** X2. Let the number of a note be below [2 ^ 53] in absolute value:
    these are the integers on which the quotient by 12 that [getOctNo]
    takes and its [Math.floor] are exact.  When the number is not negative,
    [getPC] is in [[0,12)], the number is [(getOctNo + 1) * 12 + getPC],
    the two tables of pitch classes agree on [getPC], and [getName] is the
    name of the pitch class followed by the octave number.  When the number
    is negative and not a multiple of 12, [getPC] is negative, no name is
    recorded for it, and [getName] starts with the text ["undefined"]. *)
Theorem Note_name_parts (note : Note.t) :
  let noteNo := Note.noteNo note in
  (0 <= noteNo < 2 ^ 53 ->
   0 <= Note.getPC note < 12 /\
   noteNo = (Note.getOctNo note + 1) * 12 + Note.getPC note /\
   exists pcName,
     Note.PC_NOTE_NAME !! Note.getPC note = Some pcName /\
     Note.NOTE_NAME_PC !! pcName = Some (Note.getPC note) /\
     Note.getName note
     = (pcName ++ Note.String_of_Z (Note.getOctNo note))%string) /\
  (- 2 ^ 53 < noteNo < 0 -> Z.rem noteNo 12 <> 0 ->
   -12 < Note.getPC note < 0 /\
   Note.getName note
   = ("undefined" ++ Note.String_of_Z (Note.getOctNo note))%string).
Proof.
  intros noteNo. unfold Note.getName, Note.getPC, Note.getOctNo,
    Note.NOTES_PER_OCTAVE. fold noteNo. split.
  - intros [Hnn _]. rewrite Z.rem_mod_nonneg by lia.
    pose proof (Z.mod_pos_bound noteNo 12 ltac:(lia)) as Hpc.
    split; [exact Hpc |].
    split; [pose proof (Z.div_mod noteNo 12 ltac:(lia)); lia |].
    destruct (pitch_class_name _ Hpc) as (pcName & Hname & Hback).
    exists pcName. rewrite Hname. auto.
  - intros [_ Hneg] Hrem.
    pose proof (Z.rem_bound_abs noteNo 12 ltac:(lia)) as Hb.
    pose proof (Z.rem_nonpos noteNo 12 ltac:(lia) ltac:(lia)) as Hnp.
    assert (Hpc : -12 < Z.rem noteNo 12 < 0) by lia.
    split; [exact Hpc |]. rewrite (pitch_class_unnamed _ Hpc). reflexivity.
Qed.

(** X3. Two notes in [[0,128)] that have the same name have the same
    number: [getName] tells the MIDI notes apart, those of octave -1
    included. *)
Theorem Note_getName_injective (note1 note2 : Note.t) :
  in_range (Note.noteNo note1) -> in_range (Note.noteNo note2) ->
  Note.getName note1 = Note.getName note2 ->
  Note.noteNo note1 = Note.noteNo note2.
Proof.
  intros H1 H2. rewrite (getName_noteNo note1), (getName_noteNo note2).
  assert (Hall : forallb (fun m => forallb (names_differ m)
                                     (map Z.of_nat (seq 0 128)))
                         (map Z.of_nat (seq 0 128)) = true)
    by (vm_compute; reflexivity).
  rewrite List.forallb_forall in Hall.
  specialize (Hall _ (Z_in_seq 0 128 _ H1)).
  rewrite List.forallb_forall in Hall.
  specialize (Hall _ (Z_in_seq 0 128 _ H2)).
  unfold names_differ in Hall. intros Heq. rewrite Heq, String.eqb_refl in Hall.
  simpl in Hall. apply Z.eqb_eq, Hall.
Qed.

(** Two objects that are both named ["C4"]. *)
Lemma Note_getName_injective_witness :
  in_range 60 /\
  Note.getName (Note.mk 0 60) = Note.getName (Note.mk 1 60) /\
  Note.noteNo (Note.mk 0 60) = Note.noteNo (Note.mk 1 60).
Proof.
  assert (Hin : in_range 60) by (unfold in_range, Note.NUM_NOTES; lia).
  split; [exact Hin |]. split; [reflexivity |].
  apply (Note_getName_injective (Note.mk 0 60) (Note.mk 1 60) Hin Hin).
  reflexivity.
Defined.

(** ** There and back *)

(** X4. For an interned note of a well-formed table, when the number of
    the note and the number [numSemis] above it are both in [[0,128)]:
    [offset(numSemis)] returns the note of that number, and
    [offset(-numSemis)] on the result returns the very note one started
    from, without changing the table again.  When the step is a number of
    octaves, the same holds of [shift(numOcts)] and [shift(-numOcts)], the
    pitch class is kept and the octave number goes up by [numOcts]. *)
Theorem Note_offset_roundtrip (note : Note.t) (numSemis : Z)
    (tb : gmap Z Note.t) :
  table_wf tb -> interned tb note ->
  in_range (Note.noteNo note) -> in_range (Note.noteNo note + numSemis) ->
  exists there tb',
    Note.offset note numSemis tb = Ok (there, tb') /\
    Note.noteNo there = Note.noteNo note + numSemis /\
    Note.offset there (- numSemis) tb' = Ok (note, tb') /\
    (forall numOcts, numSemis = numOcts * 12 ->
       Note.shift note numOcts tb = Ok (there, tb') /\
       Note.shift there (- numOcts) tb' = Ok (note, tb') /\
       Note.getPC there = Note.getPC note /\
       Note.getOctNo there = Note.getOctNo note + numOcts).
Proof.
  intros Hwf Hnote Hhere Hthere.
  rewrite (offset_in_range _ _ _ Hthere).
  destruct (intern_wf (Note.noteNo note + numSemis) tb Hwf)
    as (there & tb' & Hrun & Hno & Hwf').
  destruct (replayable_intern _ _ _ _ Hrun) as (Hsub & _ & _).
  assert (Hback : Note.offset there (- numSemis) tb' = Ok (note, tb')).
  { rewrite offset_in_range by (rewrite Hno;
      replace (Note.noteNo note + numSemis + - numSemis)
        with (Note.noteNo note) by lia; exact Hhere).
    rewrite Hno.
    replace (Note.noteNo note + numSemis + - numSemis)
      with (Note.noteNo note) by lia.
    unfold Note.intern. rewrite (lookup_weaken _ _ _ _ Hnote Hsub).
    reflexivity. }
  exists there, tb'. split; [exact Hrun |]. split; [exact Hno |].
  split; [exact Hback |].
  intros numOcts ->. rewrite !shift_offset.
  rewrite (offset_in_range _ _ _ Hthere).
  replace (- numOcts * 12) with (- (numOcts * 12)) by lia.
  split; [exact Hrun |]. split; [exact Hback |].
  unfold Note.getPC, Note.getOctNo, Note.NOTES_PER_OCTAVE. rewrite Hno.
  unfold in_range, Note.NUM_NOTES in Hhere, Hthere.
  rewrite !Z.rem_mod_nonneg by lia.
  rewrite Z.mod_add, Z.div_add by lia. split; [reflexivity | lia].
Qed.

(** Two octaves up from the note 60 and back. *)
Lemma Note_offset_roundtrip_witness :
  exists there tb',
    Note.shift (Note.mk 0 60) 2 table60 = Ok (there, tb') /\
    Note.noteNo there = 84 /\
    Note.shift there (-2) tb' = Ok (Note.mk 0 60, tb').
Proof.
  destruct (Note_offset_roundtrip (Note.mk 0 60) 24 table60 table60_wf)
    as (there & tb' & _ & Hno & _ & Hshift);
    [reflexivity | vm_compute; intuition discriminate
     | vm_compute; intuition discriminate |].
  destruct (Hshift 2 eq_refl) as (Hup & Hdown & _).
  exists there, tb'. split; [exact Hup |]. split; [exact Hno | exact Hdown].
Defined.

(** ** The numbers that names reach *)

Lemma NOTE_NAME_PC_range (namePart : string) (pc : Z) :
  Note.NOTE_NAME_PC !! namePart = Some pc -> 0 <= pc <= 11.
Proof.
  intros H. apply elem_of_list_to_map_2 in H.
  repeat (apply elem_of_cons in H; destruct H as [H | H];
          [injection H as -> ->; lia |]).
  apply elem_of_nil in H. destruct H.
Qed.

Lemma parseInt_digit (d : ascii) :
  Note.is_digit d = true -> 0 <= Note.parseInt d <= 9.
Proof.
  unfold Note.is_digit, Note.parseInt. cbv zeta.
  rewrite andb_true_iff, !Nat.leb_le. lia.
Qed.

(** X5. [nameToNo] never returns a number below 12 or above 131, and every
    number from 12 to 131 is what [nameToNo] returns on the name that
    [getName] gives the note of that number: the numbers 128 to 131,
    which are not MIDI notes, are reached, and the notes 0 to 11 are not. *)
Theorem nameToNo_image :
  (forall name noteNo, Note.nameToNo name = Ok noteNo -> 12 <= noteNo <= 131) /\
  (forall noteNo, 12 <= noteNo <= 131 ->
     Note.nameToNo (Note.getName (Note.mk 0 noteNo)) = Ok noteNo).
Proof.
  split.
  - intros name noteNo. rewrite nameToNo_unfold.
    destruct (Note.regex_match name) as [[namePart digit] |] eqn:Hre;
      [| discriminate].
    destruct (Note.NOTE_NAME_PC !! namePart) as [pc |] eqn:Hpc; [| discriminate].
    intros [= <-]. apply NOTE_NAME_PC_range in Hpc.
    apply regex_match_leftmost in Hre.
    destruct Hre as (_ & after & _ & letter & rest & _ & Hdigit & _).
    apply parseInt_digit in Hdigit. lia.
  - intros noteNo Hn.
    assert (Hall : forallb name_read_back (map Z.of_nat (seq 12 120)) = true)
      by (vm_compute; reflexivity).
    rewrite List.forallb_forall in Hall.
    specialize (Hall noteNo (Z_in_seq 12 120 noteNo ltac:(simpl; lia))).
    unfold name_read_back in Hall.
    destruct (Note.nameToNo _) as [noteNo' | e]; [| discriminate].
    apply Z.eqb_eq in Hall. congruence.
Qed.

(** ** Scales, again and failing *)

(** X6. When [genScale] returns on a well-formed table, the table it leaves
    is well formed and has kept every note it had, every note of the
    scale is interned in it, and the same call made again, on that table
    or on any table grown from it, returns the same objects and changes
    nothing.  This holds for a root given as a note, a number or a name,
    and with [numOctaves] given or left out. *)
Theorem genScale_replay (rootNote : Scale.root) (scale : string)
    (numOctaves : option nat) (tb : gmap Z Note.t)
    (notes : list Note.t) (tb' : gmap Z Note.t) :
  table_wf tb ->
  Scale.genScale rootNote scale numOctaves tb = Ok (notes, tb') ->
  table_wf tb' /\
  tb ⊆ tb' /\
  Forall (interned tb') notes /\
  forall tb'', tb' ⊆ tb'' ->
    Scale.genScale rootNote scale numOctaves tb'' = Ok (notes, tb'').
Proof.
  intros Hwf Hrun.
  destruct (replayable_genScale _ _ _ _ _ _ Hrun) as (Hsub & Hwf' & Hagain).
  split; [auto |]. split; [exact Hsub |]. split; [| exact Hagain].
  clear Hagain Hsub Hwf'. unfold Scale.genScale, bind at 1 in Hrun.
  destruct (match rootNote with
            | Scale.RNote note => ret note
            | Scale.RValue val => Note.new val
            end tb) as [[note tb0] |] eqn:Hroot; [| discriminate].
  assert (Hwf0 : table_wf tb0).
  { destruct rootNote as [n | val].
    - injection Hroot as <- <-. exact Hwf.
    - apply (replayable_new _ _ _ _ Hroot), Hwf. }
  destruct (Scale.scaleIntervs !! scale) as [intervs |]; [| discriminate].
  unfold bind in Hrun.
  destruct (Scale.addOctaves note intervs _ [] tb0) as [[notes1 tb1] |] eqn:Hoct;
    [| discriminate].
  destruct (Note.shift note _ tb1) as [[closing tb2] |] eqn:Hsh; [| discriminate].
  injection Hrun as <- <-.
  destruct (replayable_addOctaves _ _ _ _ _ _ _ Hoct) as (_ & Hwf1 & _).
  destruct (replayable_shift _ _ _ _ _ Hsh) as (Hsub2 & _ & _).
  destruct (offset_interned _ _ _ _ _ (Hwf1 Hwf0) Hsh) as (_ & Hclosing & _).
  apply Forall_app. split; [| repeat constructor; trivial].
  apply (addOctaves_interned _ _ _ _ _ _ _ Hwf0 (List.Forall_nil _)) in Hoct.
  eapply Forall_impl; [exact Hoct |]. intros n Hn.
  apply (interned_mono _ _ _ Hn Hsub2).
Qed.

(** [genScale('C4', 'blues')], twice. *)
Lemma genScale_replay_witness :
  exists notes tb',
    Scale.genScale (Scale.RValue (Note.VStr "C4")) "blues" None ∅
    = Ok (notes, tb') /\
    map Note.noteNo notes = [60; 63; 65; 66; 67; 70; 72] /\
    Forall (interned tb') notes /\
    Scale.genScale (Scale.RValue (Note.VStr "C4")) "blues" None tb'
    = Ok (notes, tb').
Proof.
  destruct (Scale.genScale (Scale.RValue (Note.VStr "C4")) "blues" None ∅)
    as [[notes tb'] |] eqn:Hrun; [| vm_compute in Hrun; discriminate].
  destruct (genScale_replay _ _ _ _ _ _ table_wf_empty Hrun)
    as (_ & _ & Hall & Hagain).
  exists notes, tb'. split; [reflexivity |].
  split; [| split; [exact Hall | apply Hagain; reflexivity]].
  vm_compute in Hrun. injection Hrun as <- _. reflexivity.
Defined.

Lemma nameToNo_error (name : string) (e : error) :
  Note.nameToNo name = Err e -> e = InvalidNoteName.
Proof.
  rewrite nameToNo_unfold.
  destruct (Note.regex_match name) as [[np d] |]; [| congruence].
  destruct (Note.NOTE_NAME_PC !! np); congruence.
Qed.

Lemma new_error (val : Note.value) (tb : gmap Z Note.t) (e : error) :
  Note.new val tb = Err e ->
  (e = InvalidNoteName /\ exists name, val = Note.VStr name) \/
  (e = InvalidNoteNumber /\ val = Note.VOther).
Proof.
  destruct val as [n | name |]; simpl.
  - unfold Note.intern. destruct (tb !! n); discriminate.
  - unfold bind, lift.
    destruct (Note.nameToNo name) as [val |] eqn:Hname.
    + unfold Note.intern. destruct (tb !! val); discriminate.
    + intros [= <-]. left. split; [apply (nameToNo_error _ _ Hname) | eauto].
  - intros [= <-]. right. auto.
Qed.

(** X7. The failures of [genScale], in the order the code meets them.  A
    root given by a name that [nameToNo] refuses fails with
    [InvalidNoteName], and a root that is neither a note, a number nor a
    string with [InvalidNoteNumber], whatever the scale.  With a root
    that can be built, an unknown scale fails with [UnknownScale],
    whether or not the root is in range.  No call fails with anything
    but these three: the loops never read a note from an empty array. *)
Theorem genScale_failures (rootNote : Scale.root) (scale : string)
    (numOctaves : option nat) (tb : gmap Z Note.t) :
  let call := Scale.genScale rootNote scale numOctaves tb in
  (forall name e, rootNote = Scale.RValue (Note.VStr name) ->
     Note.nameToNo name = Err e -> call = Err InvalidNoteName) /\
  (rootNote = Scale.RValue Note.VOther -> call = Err InvalidNoteNumber) /\
  ((forall name, rootNote = Scale.RValue (Note.VStr name) ->
      exists noteNo, Note.nameToNo name = Ok noteNo) ->
   rootNote <> Scale.RValue Note.VOther ->
   Scale.scaleIntervs !! scale = None -> call = Err UnknownScale) /\
  (forall e, call = Err e ->
     e = InvalidNoteName \/ e = UnknownScale \/ e = InvalidNoteNumber).
Proof.
  intros call. subst call. unfold Scale.genScale.
  split; [| split; [| split]].
  - intros name e -> Hname. unfold bind at 1. simpl. unfold bind, lift.
    rewrite Hname, (nameToNo_error _ _ Hname). reflexivity.
  - intros ->. reflexivity.
  - intros Hname Hother Hscale. unfold bind at 1.
    destruct (match rootNote with
              | Scale.RNote note => ret note
              | Scale.RValue val => Note.new val
              end tb) as [[note tb0] | e] eqn:Hroot.
    + rewrite Hscale. reflexivity.
    + destruct rootNote as [note | val]; [discriminate |].
      destruct (new_error _ _ _ Hroot) as [[_ [name ->]] | [_ ->]];
        [| congruence].
      destruct (Hname name eq_refl) as [noteNo HnoteNo].
      simpl in Hroot. unfold bind, lift in Hroot. rewrite HnoteNo in Hroot.
      unfold Note.intern in Hroot. destruct (tb !! noteNo); discriminate.
  - intros e. unfold bind at 1.
    destruct (match rootNote with
              | Scale.RNote note => ret note
              | Scale.RValue val => Note.new val
              end tb) as [[note tb0] | e0] eqn:Hroot.
    + destruct (Scale.scaleIntervs !! scale) as [intervs |];
        [| intros [= <-]; auto].
      unfold bind.
      destruct (Scale.addOctaves note intervs _ [] tb0)
        as [[notes tb1] | e1] eqn:Hoct.
      * destruct (Note.shift note _ tb1) as [[closing tb2] | e2] eqn:Hsh;
          [discriminate |].
        intros [= <-]. right; right. apply (offset_error _ _ _ _ Hsh).
      * intros [= <-]. right; right. apply (addOctaves_error _ _ _ _ _ _ Hoct).
    + intros [= <-]. destruct rootNote as [note | val]; [discriminate |].
      destruct (new_error _ _ _ Hroot) as [[-> _] | [-> _]]; auto.
Qed.

(** ** The note of an event that is given none *)

(** X8. A [NoteOnEvt] and a [NoteOffEvt] that are given no note carry one
    and the same interned note, the note of [C4_NOTE_NO].  That number is
    71, and the name of the note 71 is ["B4"], while the name ["C4"] reads
    as the note 60.  A [NoteOnEvt] that is given no velocity has the
    velocity 0.5. *)
Theorem New_events_default_note (onTime offTime : num) (tb : gmap Z Note.t) :
  table_wf tb ->
  exists note tb',
    New.NoteOnEvt onTime None None tb = Ok (NoteOnEvt onTime note (1 # 2), tb') /\
    New.NoteOffEvt offTime None tb' = Ok (NoteOffEvt offTime note, tb') /\
    Note.noteNo note = 71 /\
    Note.getName note = "B4"%string /\
    Note.nameToNo "C4" = Ok 60 /\
    interned tb' note.
Proof.
  intros Hwf. unfold New.NoteOnEvt, New.NoteOffEvt, bind, ret. simpl.
  destruct (intern_wf Note.C4_NOTE_NO tb Hwf) as (note & tb' & Hrun & Hno & _).
  destruct (intern_interned _ _ _ _ Hwf Hrun) as [_ Hin].
  destruct (replayable_intern _ _ _ _ Hrun) as (_ & _ & Hagain).
  exists note, tb'. rewrite Hrun, (Hagain tb' (reflexivity tb')).
  split; [reflexivity |]. split; [reflexivity |]. split; [exact Hno |].
  split; [| split; [reflexivity | exact Hin]].
  rewrite getName_noteNo, Hno. reflexivity.
Qed.

(** The two events built on the empty table. *)
Lemma New_events_default_note_witness :
  exists note tb',
    New.NoteOnEvt (Fin 0) None None ∅ = Ok (NoteOnEvt (Fin 0) note (1 # 2), tb') /\
    New.NoteOffEvt (Fin 1) None tb' = Ok (NoteOffEvt (Fin 1) note, tb') /\
    Note.noteNo note = 71 /\
    Note.getName note = "B4"%string.
Proof.
  destruct (New_events_default_note (Fin 0) (Fin 1) ∅ table_wf_empty)
    as (note & tb' & Hon & Hoff & Hno & Hname & _).
  exists note, tb'. repeat split; assumption.
Defined.

(** ** [Track.dispatch] on any track *)

(** A turn of the search loop that ends in [break] has read an event at or
    after [prevTime]. *)
Lemma probe_break (events : list SynthEvt) (prevTime : num) (midIdx : Z) :
  Track.probe events prevTime midIdx = Ok Track.Break ->
  0 <= midIdx < Z.of_nat (length events) /\
  exists evt, events !! Z.to_nat midIdx = Some evt /\
              Num.leb prevTime (time evt) = true.
Proof.
  unfold Track.probe, Track.timeAt.
  destruct (Z.ltb_spec midIdx 0) as [| Hnn]; [discriminate |].
  destruct (events !! Z.to_nat midIdx) as [evt |] eqn:Hevt; [| discriminate].
  intros Hbreak.
  assert (Hge : Num.geb (time evt) prevTime = true).
  { destruct (if midIdx =? 0 then _ else _) as [leftTime |]; [| discriminate].
    destruct (Track.left_ltb leftTime prevTime); simpl in Hbreak.
    - destruct (Num.geb (time evt) prevTime); [reflexivity |].
      destruct (Num.ltb (time evt) prevTime); discriminate.
    - destruct (Num.ltb (time evt) prevTime); discriminate. }
  split; [| exists evt; split; [reflexivity | exact Hge]].
  apply lookup_lt_Some in Hevt. lia.
Qed.

(** When the search loop is left with [minIdx <= maxIdx], it was left
    through [break]: [midIdx] is inside the array, on an event at or after
    [prevTime]. *)
Lemma search_break (events : list SynthEvt) (prevTime : num)
    (minIdx maxIdx midIdx : Z) :
  forall minIdx' maxIdx' midIdx',
    Track.search events prevTime minIdx maxIdx midIdx
    = Ok (minIdx', maxIdx', midIdx') ->
    minIdx' <= maxIdx' ->
    0 <= midIdx' < Z.of_nat (length events) /\
    exists evt, events !! Z.to_nat midIdx' = Some evt /\
                Num.leb prevTime (time evt) = true.
Proof.
  funelim (Track.search events prevTime minIdx maxIdx midIdx);
    intros minIdx' maxIdx' midIdx' Hsearch Hle.
  - injection Hsearch as <- <- <-. lia.
  - injection Hsearch as <- <- <-. apply probe_break, Heq.
  - eapply H; eassumption.
  - eapply H; eassumption.
  - discriminate.
Qed.

(** The delivery loop takes the events in the order of the track, up to
    the first one that is at or after [curTime]. *)
Lemma deliver_prefix (target : node) (events : list SynthEvt)
    (curTime realTime : num) :
  exists evts rest,
    events = evts ++ rest /\
    Track.deliver target events curTime realTime
    = map (fun evt => ProcessEvent target evt realTime) evts /\
    Forall (fun evt => Num.ltb (time evt) curTime = true) evts /\
    (evts = [] \/ head evts = head events).
Proof.
  induction events as [| evt events IH].
  - exists [], []. repeat split; auto.
  - simpl. destruct (Num.geb (time evt) curTime) eqn:Hge.
    + exists [], (evt :: events). repeat split; auto.
    + destruct IH as (evts & rest & -> & Hdel & Hall & _).
      exists (evt :: evts), rest. rewrite Hdel. repeat split; auto.
      constructor; [| exact Hall].
      rewrite Num_ltb_leb. unfold Num.geb in Hge. rewrite Hge. reflexivity.
Qed.

(** What [Track.dispatch] delivers on any track, sorted or not. *)
Lemma dispatch_segment (track : Track.t) (prevTime curTime realTime : num) :
  exists before evts after,
    Track.events track = before ++ evts ++ after /\
    Track.dispatch track prevTime curTime realTime
    = Ok (match Track.target track with
          | Some target => map (fun evt => ProcessEvent target evt realTime) evts
          | None => []
          end) /\
    Forall (fun evt => Num.ltb (time evt) curTime = true) evts /\
    (forall first, head evts = Some first ->
                   Num.leb prevTime (time first) = true).
Proof.
  assert (Hnone : exists before evts after,
             Track.events track = before ++ evts ++ after /\
             Ok [] = Ok (match Track.target track with
                   | Some target =>
                       map (fun evt => ProcessEvent target evt realTime) evts
                   | None => []
                   end) /\
             Forall (fun evt => Num.ltb (time evt) curTime = true) evts /\
             (forall first, head evts = Some first ->
                            Num.leb prevTime (time first) = true)).
  { exists [], [], (Track.events track). repeat split; auto.
    - destruct (Track.target track); reflexivity.
    - discriminate. }
  unfold Track.dispatch.
  destruct (Track.target track) as [target |] eqn:Htarget; [| exact Hnone].
  destruct (length (Track.events track) =? 0)%nat; [exact Hnone |].
  destruct (Track.search _ _ _ _ _) as [[[minIdx maxIdx] midIdx] | e] eqn:Hs.
  - destruct (Z.gtb_spec minIdx maxIdx) as [| Hle]; [exact Hnone |].
    destruct (search_break _ _ _ _ _ _ _ _ Hs Hle) as (Hmid & evt & Hevt & Hge).
    destruct (deliver_prefix target (drop (Z.to_nat midIdx) (Track.events track))
                curTime realTime) as (evts & rest & Hdrop & -> & Hall & Hhead).
    exists (take (Z.to_nat midIdx) (Track.events track)), evts, rest.
    split; [rewrite <- Hdrop; symmetry; apply take_drop |].
    split; [reflexivity |]. split; [exact Hall |].
    intros first Hfirst. destruct Hhead as [-> | Hhead]; [discriminate |].
    rewrite Hhead in Hfirst.
    rewrite <- (take_drop (Z.to_nat midIdx) (Track.events track)) in Hevt.
    rewrite lookup_app_r in Hevt by (rewrite length_take; lia).
    rewrite length_take in Hevt.
    replace (Z.to_nat midIdx - Z.to_nat midIdx `min` length (Track.events track))%nat
      with 0%nat in Hevt by lia.
    destruct (drop _ _); simpl in *; congruence.
  - destruct (search_in_range (Track.events track) prevTime 0
                (Z.of_nat (length (Track.events track)) - 1) 0) as [r Hr];
      [lia | lia | congruence].
Qed.

Lemma delivered_calls (track : Track.t) (prevTime curTime realTime : num) :
  exists before evts after,
    Track.events track = before ++ evts ++ after /\
    delivered track prevTime curTime realTime
    = match Track.target track with
      | Some target => map (fun evt => ProcessEvent target evt realTime) evts
      | None => []
      end /\
    Forall (fun evt => Num.ltb (time evt) curTime = true) evts /\
    (Num.leb curTime prevTime = true -> evts = []).
Proof.
  destruct (dispatch_segment track prevTime curTime realTime)
    as (before & evts & after & Hev & Hd & Hall & Hfirst).
  exists before, evts, after. split; [exact Hev |].
  split; [unfold delivered; rewrite Hd; reflexivity |].
  split; [exact Hall |].
  intros Hle. destruct evts as [| first evts]; [reflexivity |]. exfalso.
  specialize (Hfirst first eq_refl).
  inversion Hall as [| ? ? Hlt _]; subst.
  rewrite Num_ltb_leb, negb_true_iff in Hlt.
  rewrite (Num_leb_trans _ _ _ Hle Hfirst) in Hlt. discriminate.
Qed.

(** X9. On every track, sorted or not, [Track.dispatch] returns normally.
    What it delivers is a run of consecutive events of the track, in the
    order of the track, to the target and with the [realTime] it was
    given; every delivered event is before [curTime], and the first one
    is at or after [prevTime].  It delivers nothing when the track has no
    target, and nothing when [curTime] is at or before [prevTime]. *)
Theorem Track_dispatch_any_track (track : Track.t)
    (prevTime curTime realTime : num) :
  exists before evts after,
    Track.events track = before ++ evts ++ after /\
    Track.dispatch track prevTime curTime realTime
    = Ok (match Track.target track with
          | Some target => map (fun evt => ProcessEvent target evt realTime) evts
          | None => []
          end) /\
    Forall (fun evt => Num.ltb (time evt) curTime = true) evts /\
    (forall first, head evts = Some first ->
                   Num.leb prevTime (time first) = true) /\
    (Num.leb curTime prevTime = true ->
     Track.dispatch track prevTime curTime realTime = Ok []).
Proof.
  destruct (dispatch_segment track prevTime curTime realTime)
    as (before & evts & after & Hev & Hd & Hall & Hfirst).
  exists before, evts, after. repeat split; trivial.
  intros Hle. rewrite Track_dispatch_delivered.
  destruct (delivered_calls track prevTime curTime realTime)
    as (_ & evts' & _ & _ & -> & _ & Hnone).
  rewrite (Hnone Hle). destruct (Track.target track); reflexivity.
Qed.

(** X10. On a sorted track with a target, for [a <= b <= c], the events
    that [dispatch(a, b)] delivers followed by the events that
    [dispatch(b, c)] delivers are the events that [dispatch(a, c)]
    delivers, which are the events of the window [[a, c)]: two windows
    that follow each other lose nothing and deliver nothing twice. *)
Theorem Track_dispatch_tiles (track : Track.t) (target : node)
    (a b c realTime1 realTime2 realTime : num) :
  Track.target track = Some target ->
  time_sorted (Track.events track) ->
  Num.leb a b = true -> Num.leb b c = true ->
  exists first second,
    Track.dispatch track a b realTime1
    = Ok (map (fun evt => ProcessEvent target evt realTime1) first) /\
    Track.dispatch track b c realTime2
    = Ok (map (fun evt => ProcessEvent target evt realTime2) second) /\
    Track.dispatch track a c realTime
    = Ok (map (fun evt => ProcessEvent target evt realTime) (first ++ second)) /\
    first ++ second = List.filter (in_window a c) (Track.events track).
Proof.
  intros Htarget Hsorted Hab Hbc.
  exists (List.filter (in_window a b) (Track.events track)),
         (List.filter (in_window b c) (Track.events track)).
  rewrite !(dispatch_on_sorted track target) by assumption.
  rewrite (window_append a b c _ Hsorted Hab Hbc). repeat split; reflexivity.
Qed.

(** The windows [[0,3)] and [[3,6)] on the track with events at 1, 2 and
    5. *)
Lemma Track_dispatch_tiles_witness :
  exists first second,
    Track.dispatch track125 (Fin 0) (Fin 3) (Fin 10)
    = Ok (map (fun evt => ProcessEvent 7%nat evt (Fin 10)) first) /\
    Track.dispatch track125 (Fin 3) (Fin 6) (Fin 11)
    = Ok (map (fun evt => ProcessEvent 7%nat evt (Fin 11)) second) /\
    Track.dispatch track125 (Fin 0) (Fin 6) (Fin 12)
    = Ok (map (fun evt => ProcessEvent 7%nat evt (Fin 12)) (first ++ second)) /\
    first ++ second = Track.events track125.
Proof.
  destruct (Track_dispatch_tiles track125 7%nat (Fin 0) (Fin 3) (Fin 6)
              (Fin 10) (Fin 11) (Fin 12) eq_refl track125_sorted eq_refl eq_refl)
    as (first & second & H1 & H2 & H3 & H4).
  exists first, second. repeat split; assumption.
Defined.

(** ** Where [addEvent] puts the event *)

Lemma insert_le_head (x y : SynthEvt) (l : list SynthEvt) :
  time_le x y -> JsArray.insert byTime x (y :: l) = x :: y :: l.
Proof.
  intros Hle. simpl. apply sub_sign_le in Hle. unfold byTime.
  destruct (Num.sub_sign (time x) (time y)); congruence.
Qed.

Lemma insert_below (x : SynthEvt) (l : list SynthEvt) :
  Forall (time_le x) l -> JsArray.insert byTime x l = x :: l.
Proof.
  destruct 1 as [| y l Hy _]; [reflexivity | apply insert_le_head, Hy].
Qed.

Lemma sort_snoc (events : list SynthEvt) (evt : SynthEvt) :
  StronglySorted time_le events ->
  JsArray.sort byTime (events ++ [evt])
  = List.filter (fun e => Num.leb (time e) (time evt)) events
    ++ evt :: List.filter (fun e => Num.ltb (time evt) (time e)) events.
Proof.
  induction 1 as [| e es Hs IH Hall]; [reflexivity |].
  cbn [app JsArray.sort List.filter]. rewrite IH.
  rewrite (Num_ltb_leb (time evt) (time e)).
  destruct (Num.leb (time e) (time evt)) eqn:He; cbn [negb].
  - apply insert_below. apply Forall_app. split.
    + clear -Hall. induction Hall as [| x l Hx _ IHl]; simpl; [constructor |].
      destruct (Num.leb (time x) (time evt)); [constructor |]; assumption.
    + constructor; [exact He |].
      clear -Hall. induction Hall as [| x l Hx _ IHl]; simpl; [constructor |].
      destruct (Num.ltb (time evt) (time x)); [constructor |]; assumption.
  - assert (Hlo : List.filter (fun x => Num.leb (time x) (time evt)) es = []).
    { clear -Hall He. induction Hall as [| x l Hx _ IHl]; [reflexivity |].
      simpl. destruct (Num.leb (time x) (time evt)) eqn:Hxe; [| exact IHl].
      rewrite (Num_leb_trans _ _ _ Hx Hxe) in He. discriminate. }
    assert (Hhi : List.filter (fun x => Num.ltb (time evt) (time x)) es = es).
    { clear -Hall He. induction Hall as [| x l Hx _ IHl]; [reflexivity |].
      simpl. rewrite Num_ltb_leb.
      destruct (Num.leb (time x) (time evt)) eqn:Hxe; simpl; [| congruence].
      rewrite (Num_leb_trans _ _ _ Hx Hxe) in He. discriminate. }
    rewrite Hlo, Hhi. simpl.
    assert (Hgt : byTime e evt = Gt).
    { unfold byTime. destruct (Num.sub_sign (time e) (time evt)) eqn:Hc; trivial.
      - assert (Hle : Num.leb (time e) (time evt) = true)
          by (apply sub_sign_le; congruence). congruence.
      - assert (Hle : Num.leb (time e) (time evt) = true)
          by (apply sub_sign_le; congruence). congruence. }
    rewrite Hgt, (insert_below e es Hall). reflexivity.
Qed.

Lemma sort_sorted_id (events : list SynthEvt) :
  StronglySorted time_le events -> JsArray.sort byTime events = events.
Proof.
  induction 1 as [| e es Hs IH Hall]; [reflexivity |].
  simpl. rewrite IH. apply insert_below, Hall.
Qed.

Lemma addEvent_position (track : Track.t) (evt : SynthEvt) :
  time_sorted (Track.events track) ->
  Track.events (Track.addEvent track evt)
  = List.filter (fun e => Num.leb (time e) (time evt)) (Track.events track)
    ++ evt
    :: List.filter (fun e => Num.ltb (time evt) (time e)) (Track.events track).
Proof.
  intros Hsorted.
  rewrite <- (sort_snoc _ _ (time_sorted_strong _ Hsorted)).
  rewrite addEvent_events.
  destruct (last (Track.events track)) as [tail |] eqn:Hlast.
  - destruct (Num.geb (time evt) (time tail)) eqn:Hge; [| reflexivity].
    symmetry. apply sort_sorted_id, time_sorted_strong.
    apply (snoc_sorted _ tail); assumption.
  - apply last_None in Hlast. rewrite Hlast. reflexivity.
Qed.

(** X11. On a sorted track, [addEvent(evt)] puts [evt] after every event
    that is not later than it and before every event that is later; the
    other events keep their order.  An event added at a time that is
    already on the track comes after the events of that time.  (On the
    path that sorts, this is the stability of [Array.prototype.sort].) *)
Theorem Track_addEvent_position (track : Track.t) (evt : SynthEvt) :
  time_sorted (Track.events track) ->
  Track.events (Track.addEvent track evt)
  = List.filter (fun e => Num.leb (time e) (time evt)) (Track.events track)
    ++ evt
    :: List.filter (fun e => Num.ltb (time evt) (time e)) (Track.events track).
Proof. apply addEvent_position. Qed.

(** A note-off event at 2 added to the track with events at 1, 2 and 5. *)
Lemma Track_addEvent_position_witness :
  time_sorted (Track.events track125) /\
  Track.events (Track.addEvent track125 (NoteOffEvt (Fin 2) (Note.mk 0 60)))
  = [AllNotesOffEvt (Fin 1); AllNotesOffEvt (Fin 2);
     NoteOffEvt (Fin 2) (Note.mk 0 60); AllNotesOffEvt (Fin 5)].
Proof.
  split; [exact track125_sorted |].
  apply (Track_addEvent_position track125 (NoteOffEvt (Fin 2) (Note.mk 0 60))).
  exact track125_sorted.
Defined.

(** ** Tracks filled by [addEvent] *)

Lemma addEvent_perm (track : Track.t) (evt : SynthEvt) :
  Permutation (Track.events (Track.addEvent track evt))
              (Track.events track ++ [evt]).
Proof.
  rewrite addEvent_events.
  destruct (last (Track.events track)) as [tail |] eqn:Hlast.
  - destruct (Num.geb (time evt) (time tail)); [reflexivity | apply sort_perm].
  - apply last_None in Hlast. rewrite Hlast. reflexivity.
Qed.

Lemma addEvent_target (track : Track.t) (evt : SynthEvt) :
  Track.target (Track.addEvent track evt) = Track.target track.
Proof.
  unfold Track.addEvent. destruct (if (_ =? _)%nat then _ else _); reflexivity.
Qed.

Lemma sorted_partition (t : num) (events : list SynthEvt) :
  StronglySorted time_le events ->
  events = List.filter (fun e => Num.leb (time e) t) events
           ++ List.filter (fun e => Num.ltb t (time e)) events.
Proof.
  induction 1 as [| e es Hs IH Hall]; [reflexivity |].
  simpl. rewrite (Num_ltb_leb t (time e)).
  destruct (Num.leb (time e) t) eqn:He; simpl.
  - f_equal. exact IH.
  - assert (Hlo : List.filter (fun x => Num.leb (time x) t) es = []).
    { clear -Hall He. induction Hall as [| x l Hx _ IHl]; [reflexivity |].
      simpl. destruct (Num.leb (time x) t) eqn:Hxe; [| exact IHl].
      rewrite (Num_leb_trans _ _ _ Hx Hxe) in He. discriminate. }
    rewrite Hlo in IH |- *. simpl in *. f_equal. exact IH.
Qed.

Lemma Num_eqb_both (a b t : num) :
  Num.eqb a t = true -> Num.eqb b t = true -> Num.leb a b = true.
Proof.
  destruct a, b, t; simpl; trivial; try discriminate.
  rewrite !Qeq_bool_iff, Qle_bool_iff. intros -> ->. apply Qle_refl.
Qed.

Lemma no_later_at_same_time (evt : SynthEvt) (t : num) (l : list SynthEvt) :
  Num.eqb (time evt) t = true ->
  List.filter (fun e => Num.eqb (time e) t)
    (List.filter (fun e => Num.ltb (time evt) (time e)) l) = [].
Proof.
  intros Hevt. induction l as [| x l IH]; [reflexivity |].
  simpl. destruct (Num.ltb (time evt) (time x)) eqn:Hx; [| exact IH].
  simpl. destruct (Num.eqb (time x) t) eqn:Hxt; [| exact IH].
  rewrite Num_ltb_leb, (Num_eqb_both _ _ _ Hxt Hevt) in Hx. discriminate.
Qed.

(** X12. A track made by [new Track(target)] and any sequence of
    [addEvent] has that target, is sorted by time, holds exactly the
    events that were added, and holds the events of any one time in the
    order in which they were added. *)
Theorem Track_built_stable (target : option node) (evts : list SynthEvt) :
  let track := fold_left Track.addEvent evts (Track.new target) in
  Track.target track = target /\
  time_sorted (Track.events track) /\
  Permutation (Track.events track) evts /\
  forall t,
    List.filter (fun e => Num.eqb (time e) t) (Track.events track)
    = List.filter (fun e => Num.eqb (time e) t) evts.
Proof.
  induction evts as [| evt evts IH] using rev_ind.
  - simpl. repeat split; constructor.
  - rewrite fold_left_app. cbn [fold_left].
    set (built := fold_left Track.addEvent evts (Track.new target)) in *.
    cbv zeta in IH. destruct IH as (Htarget & Hsorted & Hperm & Hsame).
    cbv zeta. split; [rewrite addEvent_target; exact Htarget |].
    split; [apply addEvent_keeps_sorted, Hsorted |].
    split; [rewrite addEvent_perm, Hperm; reflexivity |].
    intros t. rewrite (addEvent_position _ _ Hsorted).
    rewrite !List.filter_app. cbn [List.filter]. rewrite <- Hsame.
    pose proof (sorted_partition (time evt) _ (time_sorted_strong _ Hsorted))
      as Hpart.
    set (lo := List.filter (fun e => Num.leb (time e) (time evt))
                 (Track.events built)) in *.
    set (hi := List.filter (fun e => Num.ltb (time evt) (time e))
                 (Track.events built)) in *.
    assert (Hsplit : List.filter (fun e => Num.eqb (time e) t) (Track.events built)
                     = List.filter (fun e => Num.eqb (time e) t) lo
                       ++ List.filter (fun e => Num.eqb (time e) t) hi)
      by (rewrite <- List.filter_app, <- Hpart; reflexivity).
    rewrite Hsplit.
    destruct (Num.eqb (time evt) t) eqn:Hevt.
    + unfold hi. rewrite (no_later_at_same_time _ _ _ Hevt), app_nil_r.
      reflexivity.
    + rewrite app_nil_r. reflexivity.
Qed.

(** Four events added out of order, two of them at the time 2. *)
Example Track_built_out_of_order :
  Track.events
    (fold_left Track.addEvent
       [AllNotesOffEvt (Fin 5); NoteOnEvt (Fin 2) (Note.mk 0 60) 1;
        AllNotesOffEvt (Fin 1); NoteOffEvt (Fin 2) (Note.mk 0 60)]
       (Track.new (Some 7%nat)))
  = [AllNotesOffEvt (Fin 1); NoteOnEvt (Fin 2) (Note.mk 0 60) 1;
     NoteOffEvt (Fin 2) (Note.mk 0 60); AllNotesOffEvt (Fin 5)].
Proof. reflexivity. Qed.

(** ** Notes on a track *)





(** X14. With times, beats and lengths as exact rationals, so that no
    product or quotient is rounded: for a positive tempo and a positive
    time signature, [noteLen(len)] is 0.99 times the time of [len *
    beatsPerBar / noteVal] beats, [noteLen()] is [noteLen(1)], and
    [beatTime] is additive.  So a note of positive length made at beat
    [beatNo] ends after it starts and strictly before the beat [beatNo +
    len * beatsPerBar / noteVal]: it does not reach the note that follows
    it.  In binary64 these equalities hold up to rounding only. *)
Theorem Piece_note_inside_its_slot (p : Piece.t) (beatNo len : Q) :
  (0 < Piece.beatsPerMin p)%Q ->
  (0 < Piece.beatsPerBar p)%Q ->
  (0 < Piece.noteVal p)%Q ->
  let slot := (len * Piece.beatsPerBar p / Piece.noteVal p)%Q in
  (Piece.noteLen p (Some len) == (99 # 100) * Piece.beatTime p slot)%Q /\
  Piece.noteLen p None = Piece.noteLen p (Some 1%Q) /\
  (forall a b, Piece.beatTime p (a + b)
               == Piece.beatTime p a + Piece.beatTime p b)%Q /\
  ((0 < len)%Q ->
   (Piece.beatTime p beatNo
    < Piece.beatTime p beatNo + Piece.noteLen p (Some len))%Q /\
   (Piece.beatTime p beatNo + Piece.noteLen p (Some len)
    < Piece.beatTime p (beatNo + slot))%Q).
Proof.
  intros Hbpm Hbar Hval slot.
  assert (Hbpm0 : ~ (Piece.beatsPerMin p == 0)%Q)
    by (intros Hz; rewrite Hz in Hbpm; discriminate).
  assert (Hval0 : ~ (Piece.noteVal p == 0)%Q)
    by (intros Hz; rewrite Hz in Hval; discriminate).
  assert (Hlen : (Piece.noteLen p (Some len)
                  == (99 # 100) * Piece.beatTime p slot)%Q).
  { unfold Piece.noteLen, Piece.beatTime, slot. field. split; assumption. }
  assert (Hlin : forall a b, (Piece.beatTime p (a + b)
                              == Piece.beatTime p a + Piece.beatTime p b)%Q).
  { intros a b. unfold Piece.beatTime. field. assumption. }
  split; [exact Hlen |]. split; [reflexivity |]. split; [exact Hlin |].
  intros Hpos.
  assert (Hslot : (0 < Piece.beatTime p slot)%Q).
  { unfold Piece.beatTime, slot, Qdiv.
    repeat apply Qmult_lt_0_compat; trivial;
      try (apply Qinv_lt_0_compat; assumption). reflexivity. }
  split.
  - rewrite <- (Qplus_0_r (Piece.beatTime p beatNo)) at 1.
    apply Qplus_lt_r. rewrite Hlen.
    apply Qmult_lt_0_compat; [reflexivity | exact Hslot].
  - rewrite Hlin, Hlen. apply Qplus_lt_r.
    rewrite <- (Qmult_1_l (Piece.beatTime p slot)) at 2.
    apply Qmult_lt_compat_r; [exact Hslot | reflexivity].
Qed.

(** In a new piece (140 beats per minute, 4/4) a note of length 1 made at
    beat 2 ends before beat 3. *)
Lemma Piece_note_inside_its_slot_witness :
  (Piece.noteLen (Piece.new None) (Some 1%Q) == (99 # 100) * (60 # 140))%Q /\
  (Piece.beatTime (Piece.new None) 2
   < Piece.beatTime (Piece.new None) 2 + Piece.noteLen (Piece.new None) (Some 1%Q))%Q /\
  (Piece.beatTime (Piece.new None) 2 + Piece.noteLen (Piece.new None) (Some 1%Q)
   < Piece.beatTime (Piece.new None) 3)%Q.
Proof.
  destruct (Piece_note_inside_its_slot (Piece.new None) 2 1)
    as (Hlen & _ & _ & Hslot); [reflexivity | reflexivity | reflexivity |].
  destruct (Hslot ltac:(reflexivity)) as [Hstart Hend].
  split; [rewrite Hlen; reflexivity |]. split; [exact Hstart |].
  apply (Qlt_le_trans _ _ _ Hend). discriminate.
Defined.



(** ** The tracks of a piece *)

Lemma deliveredAll_events (p : Piece.t) (curTime realTime : num) :
  Forall (fun c => exists target evt,
                     c = ProcessEvent target evt realTime /\
                     Num.ltb (time evt) curTime = true)
         (deliveredAll p curTime realTime).
Proof.
  unfold deliveredAll. induction (Piece.tracks p) as [| track rest IH];
    [constructor |].
  simpl. apply Forall_app. split; [| exact IH].
  destruct (delivered_calls track (Piece.prevTime p) curTime realTime)
    as (_ & evts & _ & _ & -> & Hall & _).
  destruct (Track.target track) as [target |]; [| constructor].
  induction Hall as [| evt evts Hevt _ IHevts]; simpl; constructor; eauto.
Qed.

Lemma deliveredAll_empty (p : Piece.t) (curTime realTime : num) :
  Num.leb curTime (Piece.prevTime p) = true ->
  deliveredAll p curTime realTime = [].
Proof.
  intros Hle. unfold deliveredAll.
  induction (Piece.tracks p) as [| track rest IH]; [reflexivity |].
  simpl. rewrite IH, app_nil_r.
  destruct (delivered_calls track (Piece.prevTime p) curTime realTime)
    as (_ & evts & _ & _ & -> & _ & Hnone).
  rewrite (Hnone Hle). destruct (Track.target track); reflexivity.
Qed.

Lemma deliveredAll_sorted (p : Piece.t) (curTime realTime : num) :
  Forall (fun track => time_sorted (Track.events track)) (Piece.tracks p) ->
  deliveredAll p curTime realTime
  = flat_map (fun track => window_calls track (Piece.prevTime p) curTime realTime)
             (Piece.tracks p).
Proof.
  unfold deliveredAll. induction 1 as [| track rest Hs _ IH]; [reflexivity |].
  simpl. rewrite IH. f_equal. unfold delivered, window_calls.
  destruct (Track.target track) as [target |] eqn:Htarget.
  - rewrite (dispatch_on_sorted track target) by assumption. reflexivity.
  - unfold Track.dispatch. rewrite Htarget. reflexivity.
Qed.

Lemma deliveredAll_no_genOutput (p : Piece.t) (curTime realTime : num) :
  List.filter is_genOutput (deliveredAll p curTime realTime) = [].
Proof.
  pose proof (deliveredAll_events p curTime realTime) as Hall.
  induction Hall as [| c cs (target & evt & -> & _) _ IH]; [reflexivity |].
  simpl. exact IH.
Qed.

Lemma addTracks_spec (tracks : list Track.t) :
  forall w,
    addTracks tracks w
    = Ok (tt, Piece.World
                (Piece.set_tracks (Piece.tracks (Piece.piece w) ++ tracks)
                                  (Piece.piece w))
                (Piece.trace w)).
Proof.
  induction tracks as [| track rest IH]; intros [p tr]; simpl.
  - unfold ret. rewrite app_nil_r. destruct p; reflexivity.
  - unfold bind, Piece.addTrack, bind, Piece.update, modify, ret. simpl.
    rewrite IH. simpl. rewrite <- app_assoc. reflexivity.
Qed.

(** X16. A piece built by [new Piece(synthNet)] and one [addTrack] per
    track holds the tracks in the order they were added, and its first
    [dispatch(curTime, realTime)] serves them in that order, each from
    time 0 on: for sorted tracks the calls are, track after track, the
    events of the window [[0, curTime)]. *)
Theorem Piece_addTrack_order (synthNet : option SynthNet.t)
    (tracks : list Track.t) (curTime realTime : num) :
  exists w,
    (let* _ := addTracks tracks in Piece.dispatch curTime realTime)
      (Piece.World (Piece.new synthNet) []) = Ok (tt, w) /\
    Piece.tracks (Piece.piece w) = tracks /\
    Piece.prevTime (Piece.piece w) = curTime /\
    Piece.trace w
    = flat_map (fun track => delivered track (Fin 0) curTime realTime) tracks /\
    (Forall (fun track => time_sorted (Track.events track)) tracks ->
     Piece.trace w
     = flat_map (fun track => window_calls track (Fin 0) curTime realTime) tracks).
Proof.
  unfold bind. rewrite addTracks_spec, Piece_dispatch_spec.
  eexists. split; [reflexivity |]. simpl.
  repeat split.
  intros Hsorted.
  apply (deliveredAll_sorted
           (Piece.set_tracks tracks (Piece.new synthNet)) curTime realTime).
  exact Hsorted.
Qed.

(** ** The handler, turn after turn *)

(** What one turn adds to the trace and what it keeps of the piece. *)
Lemma after_turn_calls (SYNTH_BUF_SIZE : positive) (h : Piece.handler)
    (w : Piece.world) :
  let h' := fst (after_turn SYNTH_BUF_SIZE h w) in
  let w' := snd (after_turn SYNTH_BUF_SIZE h w) in
  exists calls,
    Piece.trace w' = Piece.trace w ++ calls /\
    List.filter is_genOutput calls = [GenOutput (Piece.realTime h)] /\
    Piece.net h' = Piece.net h /\
    Piece.realTime h'
    = Num.addQ (Piece.realTime h)
               (Piece.quantumTime SYNTH_BUF_SIZE (Piece.net h)) /\
    Piece.tracks (Piece.piece w') = Piece.tracks (Piece.piece w) /\
    Piece.loopTime (Piece.piece w') = Piece.loopTime (Piece.piece w).
Proof.
  unfold after_turn. destruct (wraps _ _ _); simpl; eexists;
    (split; [reflexivity |]); repeat split.
  - rewrite !List.filter_app, deliveredAll_no_genOutput. simpl.
    rewrite deliveredAll_no_genOutput. reflexivity.
  - rewrite !List.filter_app, deliveredAll_no_genOutput. reflexivity.
Qed.

Lemma quanta_calls (SYNTH_BUF_SIZE : positive) (count : nat) :
  forall (h : Piece.handler) (w : Piece.world),
    let dt := Piece.quantumTime SYNTH_BUF_SIZE (Piece.net h) in
    exists h' w' calls,
      Piece.quanta SYNTH_BUF_SIZE count h w = Ok (h', w') /\
      Piece.trace w' = Piece.trace w ++ calls /\
      List.filter is_genOutput calls
      = map (fun i => GenOutput (Nat.iter i (fun t => Num.addQ t dt)
                                          (Piece.realTime h)))
            (seq 0 count) /\
      Piece.net h' = Piece.net h /\
      Piece.realTime h'
      = Nat.iter count (fun t => Num.addQ t dt) (Piece.realTime h) /\
      Piece.tracks (Piece.piece w') = Piece.tracks (Piece.piece w) /\
      Piece.loopTime (Piece.piece w') = Piece.loopTime (Piece.piece w).
Proof.
  induction count as [| count IH]; intros h w dt.
  - exists h, w, []. rewrite app_nil_r. repeat split; reflexivity.
  - cbn [Piece.quanta]. unfold bind. rewrite quantum_spec.
    destruct (after_turn_calls SYNTH_BUF_SIZE h w)
      as (calls1 & Htr1 & Hgen1 & Hnet1 & Hrt1 & Htracks1 & Hloop1).
    destruct (after_turn SYNTH_BUF_SIZE h w) as [h1 w1]. simpl in *.
    destruct (IH h1 w1)
      as (h' & w' & calls & Hq & Htr & Hgen & Hnet & Hrt & Htracks & Hloop).
    exists h', w', (calls1 ++ calls). rewrite Hq.
    split; [reflexivity |].
    split; [rewrite Htr, Htr1, app_assoc; reflexivity |].
    split.
    { rewrite List.filter_app, Hgen1, Hgen, Hnet1, Hrt1. simpl. f_equal.
      rewrite <- seq_shift, map_map. apply map_ext. intros i.
      fold dt. rewrite Nat.iter_succ_r. reflexivity. }
    split; [congruence |].
    split; [rewrite Hrt, Hnet1, Hrt1; fold dt; symmetry;
            exact (Nat.iter_succ_r count _ _) |].
    split; congruence.
Qed.

(** X17. [genAudio] on an output buffer of [numChans] channels and
    [numSamples] frames.  When [numChans] is the number of channels of
    the output node and [numSamples] is a multiple of [SYNTH_BUF_SIZE],
    the call returns, and it has made [numSamples / SYNTH_BUF_SIZE] calls
    of [genOutput], in order at [realTime], [realTime] plus one quantum,
    and so on; [realTime] has advanced by that many quanta; the tracks
    and the loop time of the piece are what they were.  In every other
    case the call fails with [ContractViolation]. *)
Theorem Piece_genAudio_turns (SYNTH_BUF_SIZE : positive)
    (numChans numSamples : Z) (h : Piece.handler) (w : Piece.world) :
  let dt := Piece.quantumTime SYNTH_BUF_SIZE (Piece.net h) in
  let count := Z.to_nat (numSamples / Zpos SYNTH_BUF_SIZE) in
  (numChans = SynthNet.outNumChans (Piece.net h) /\
   Z.rem numSamples (Zpos SYNTH_BUF_SIZE) = 0 ->
   exists h' w' calls,
     Piece.genAudio SYNTH_BUF_SIZE numChans numSamples h w = Ok (h', w') /\
     Piece.trace w' = Piece.trace w ++ calls /\
     List.filter is_genOutput calls
     = map (fun i => GenOutput (Nat.iter i (fun t => Num.addQ t dt)
                                         (Piece.realTime h)))
           (seq 0 count) /\
     Piece.realTime h'
     = Nat.iter count (fun t => Num.addQ t dt) (Piece.realTime h) /\
     Piece.tracks (Piece.piece w') = Piece.tracks (Piece.piece w) /\
     Piece.loopTime (Piece.piece w') = Piece.loopTime (Piece.piece w)) /\
  (~ (numChans = SynthNet.outNumChans (Piece.net h) /\
      Z.rem numSamples (Zpos SYNTH_BUF_SIZE) = 0) ->
   Piece.genAudio SYNTH_BUF_SIZE numChans numSamples h w
   = Err ContractViolation).
Proof.
  intros dt count. unfold Piece.genAudio, bind at 1, get. split.
  - intros [-> Hrem]. unfold bind, lift, assert.
    rewrite Z.eqb_refl, Hrem. simpl.
    destruct (quanta_calls SYNTH_BUF_SIZE count
                (Piece.Handler (Piece.net h)
                   (if negb (Num.eqb (Piece.playTime (Piece.piece w))
                                     (Piece.curTime h))
                    then Piece.playTime (Piece.piece w) else Piece.curTime h)
                   (Piece.realTime h)) w)
      as (h' & w' & calls & Hq & Htr & Hgen & _ & Hrt & Htracks & Hloop).
    exists h', w', calls. repeat split; assumption.
  - intros Hnot. unfold bind, lift, assert.
    destruct (Z.eqb_spec numChans (SynthNet.outNumChans (Piece.net h)))
      as [Hc | Hc]; [| reflexivity].
    destruct (Z.eqb_spec (Z.rem numSamples (Zpos SYNTH_BUF_SIZE)) 0)
      as [Hr | Hr]; [| reflexivity].
    destruct Hnot. split; assumption.
Qed.

(** ** Inside the loop *)

Lemma deliveredAll_before_loop (p : Piece.t) (loopTime curTime realTime : num) :
  Num.leb curTime (Num.addQ loopTime (1 # 100)) = true ->
  Forall (before_loop_end loopTime) (deliveredAll p curTime realTime).
Proof.
  intros Hle. eapply Forall_impl; [apply deliveredAll_events |].
  intros c (target & evt & -> & Hlt). simpl.
  apply (Num_ltb_leb_trans _ _ _ Hlt Hle).
Qed.

Lemma loop_end_leb (a loopTime : num) :
  Num.leb a loopTime = true -> Num.leb a (Num.addQ loopTime (1 # 100)) = true.
Proof.
  intros Hle. apply (Num_leb_trans _ _ _ Hle). apply addQ_leb. discriminate.
Qed.

(** One turn from a position inside the loop: what it delivers is before
    the end of the loop, and the position it leaves is inside the loop. *)
Lemma after_turn_in_loop (SYNTH_BUF_SIZE : positive) (h : Piece.handler)
    (w : Piece.world) :
  let p := Piece.piece w in
  let h' := fst (after_turn SYNTH_BUF_SIZE h w) in
  let w' := snd (after_turn SYNTH_BUF_SIZE h w) in
  Num.leb (Fin 0) (Piece.loopTime p) = true ->
  Num.leb (Piece.playTime p) (Piece.loopTime p) = true ->
  Num.leb (Piece.curTime h) (Piece.loopTime p) = true ->
  exists calls,
    Piece.trace w' = Piece.trace w ++ calls /\
    Forall (before_loop_end (Piece.loopTime p)) calls /\
    Piece.loopTime (Piece.piece w') = Piece.loopTime p /\
    Num.leb (Piece.playTime (Piece.piece w')) (Piece.loopTime p) = true /\
    Num.leb (Piece.curTime h') (Piece.loopTime p) = true.
Proof.
  intros p h' w' Hloop Hplay Hcur. subst h' w'. unfold after_turn.
  destruct (wraps SYNTH_BUF_SIZE h (Piece.piece w)) eqn:Hwraps; simpl;
    eexists; (split; [reflexivity |]).
  - split; [| repeat split; assumption].
    apply Forall_app. split;
      [apply deliveredAll_before_loop, loop_end_leb, Hcur |].
    constructor; [exact I |].
    apply deliveredAll_before_loop, Num_leb_refl.
  - assert (Hnext : Num.leb (Num.addQ (Piece.curTime h)
                               (Piece.quantumTime SYNTH_BUF_SIZE (Piece.net h)))
                            (Piece.loopTime p) = true).
    { unfold wraps in Hwraps. fold p in Hwraps. rewrite Hplay in Hwraps.
      simpl in Hwraps. unfold Num.gtb in Hwraps.
      rewrite Num_ltb_leb, negb_false_iff in Hwraps. exact Hwraps. }
    split; [| repeat split; assumption].
    apply Forall_app. split;
      [apply deliveredAll_before_loop, loop_end_leb, Hcur |].
    constructor; [exact I | constructor].
Qed.

Lemma quanta_in_loop (SYNTH_BUF_SIZE : positive) (count : nat) :
  forall (h : Piece.handler) (w : Piece.world),
    let p := Piece.piece w in
    Num.leb (Fin 0) (Piece.loopTime p) = true ->
    Num.leb (Piece.playTime p) (Piece.loopTime p) = true ->
    Num.leb (Piece.curTime h) (Piece.loopTime p) = true ->
    exists h' w' calls,
      Piece.quanta SYNTH_BUF_SIZE count h w = Ok (h', w') /\
      Piece.trace w' = Piece.trace w ++ calls /\
      Forall (before_loop_end (Piece.loopTime p)) calls /\
      Piece.loopTime (Piece.piece w') = Piece.loopTime p /\
      Num.leb (Piece.playTime (Piece.piece w')) (Piece.loopTime p) = true.
Proof.
  induction count as [| count IH]; intros h w p Hloop Hplay Hcur.
  - exists h, w, []. rewrite app_nil_r. repeat split; trivial.
  - cbn [Piece.quanta]. unfold bind. rewrite quantum_spec.
    destruct (after_turn_in_loop SYNTH_BUF_SIZE h w Hloop Hplay Hcur)
      as (calls1 & Htr1 & Hall1 & Hloop1 & Hplay1 & Hcur1).
    destruct (after_turn SYNTH_BUF_SIZE h w) as [h1 w1]. simpl in *.
    destruct (IH h1 w1) as (h' & w' & calls & Hq & Htr & Hall & Hloop' & Hplay');
      try (rewrite Hloop1; assumption).
    exists h', w', (calls1 ++ calls). rewrite Hq. split; [reflexivity |].
    split; [rewrite Htr, Htr1, app_assoc; reflexivity |].
    rewrite Hloop1 in Hall, Hloop', Hplay'.
    split; [apply Forall_app; split; assumption |].
    split; assumption.
Qed.

Lemma Num_eqb_leb (a b c : num) :
  Num.eqb a b = true -> Num.leb a c = true -> Num.leb b c = true.
Proof.
  destruct a, b, c; simpl; trivial; try discriminate.
  rewrite Qeq_bool_iff, !Qle_bool_iff. intros ->. trivial.
Qed.

(** X18. While the playback is in the loop, it stays there.  When
    [loopTime] is not negative and [playTime <= loopTime], a successful
    [genAudio] delivers no event that is at or after [loopTime + 0.01],
    sends no all-notes-off, and leaves [playTime <= loopTime] and
    [loopTime] unchanged, so that the same holds of the next call. *)
Theorem genAudio_stays_in_loop (SYNTH_BUF_SIZE : positive) (numSamples : Z)
    (h : Piece.handler) (w : Piece.world) :
  let p := Piece.piece w in
  Num.leb (Fin 0) (Piece.loopTime p) = true ->
  Num.leb (Piece.playTime p) (Piece.loopTime p) = true ->
  Z.rem numSamples (Zpos SYNTH_BUF_SIZE) = 0 ->
  exists h' w' calls,
    Piece.genAudio SYNTH_BUF_SIZE (SynthNet.outNumChans (Piece.net h))
                   numSamples h w = Ok (h', w') /\
    Piece.trace w' = Piece.trace w ++ calls /\
    Forall (before_loop_end (Piece.loopTime p)) calls /\
    Piece.loopTime (Piece.piece w') = Piece.loopTime p /\
    Num.leb (Piece.playTime (Piece.piece w')) (Piece.loopTime p) = true.
Proof.
  intros p Hloop Hplay Hrem.
  unfold Piece.genAudio, bind, get, lift, assert.
  rewrite Z.eqb_refl, Hrem. simpl.
  apply quanta_in_loop; trivial. simpl.
  destruct (Num.eqb (Piece.playTime (Piece.piece w)) (Piece.curTime h)) eqn:Heq;
    simpl; [| exact Hplay].
  apply (Num_eqb_leb _ _ _ Heq Hplay).
Qed.

(** Ten turns of a tenth of a second on the piece that loops at 2
    seconds. *)
Lemma genAudio_stays_in_loop_witness :
  exists h' w' calls,
    Piece.genAudio 4410 2 44100 loopingHandler loopingWorld = Ok (h', w') /\
    Piece.trace w' = calls /\
    Forall (before_loop_end (Fin 2)) calls /\
    Piece.loopTime (Piece.piece w') = Fin 2 /\
    Num.leb (Piece.playTime (Piece.piece w')) (Fin 2) = true.
Proof.
  destruct (genAudio_stays_in_loop 4410 44100 loopingHandler loopingWorld)
    as (h' & w' & calls & Hg & Htr & Hall & Hloop & Hplay);
    [reflexivity | reflexivity | reflexivity |].
  exists h', w', calls. repeat split; assumption.
Defined.

(** ** Playback without a wrap *)

Lemma deliveries_app (l1 l2 : list call) :
  deliveries (l1 ++ l2) = deliveries l1 ++ deliveries l2.
Proof. apply omap_app. Qed.

Lemma deliveries_deliveredAll (p : Piece.t) (curTime realTime : num) :
  Forall (fun track => time_sorted (Track.events track)) (Piece.tracks p) ->
  deliveries (deliveredAll p curTime realTime)
  = flat_map (window_of (Piece.prevTime p) curTime) (Piece.tracks p).
Proof.
  intros Hsorted. rewrite (deliveredAll_sorted _ _ _ Hsorted).
  induction (Piece.tracks p) as [| track rest IH]; [reflexivity |].
  inversion Hsorted as [| ? ? _ Hrest]; subst.
  simpl. rewrite deliveries_app, (IH Hrest). f_equal.
  unfold window_calls, window_of.
  destruct (Track.target track) as [target |]; [| reflexivity].
  unfold deliveries.
  induction (List.filter _ _) as [| evt evts IHe]; [reflexivity |].
  cbn. f_equal. exact IHe.
Qed.

Lemma flat_map_windows (a b c : num) (tracks : list Track.t) :
  Forall (fun track => time_sorted (Track.events track)) tracks ->
  Num.leb a b = true -> Num.leb b c = true ->
  Permutation (flat_map (window_of a b) tracks ++ flat_map (window_of b c) tracks)
              (flat_map (window_of a c) tracks).
Proof.
  intros Hsorted Hab Hbc.
  induction Hsorted as [| track rest Hs _ IH]; [reflexivity |].
  simpl. rewrite <- IH.
  assert (Hone : window_of a b track ++ window_of b c track = window_of a c track).
  { unfold window_of. destruct (Track.target track); [| reflexivity].
    rewrite <- map_app, (window_append a b c _ Hs Hab Hbc). reflexivity. }
  rewrite <- Hone, <- !app_assoc. apply Permutation_app_head.
  rewrite !app_assoc. apply Permutation_app_tail. apply Permutation_app_comm.
Qed.

Lemma ticks_succ (SYNTH_BUF_SIZE : positive) (h : Piece.handler) (count : nat) :
  ticks SYNTH_BUF_SIZE h (S count)
  = ticks SYNTH_BUF_SIZE
      (Piece.Handler (Piece.net h)
         (Num.addQ (Piece.curTime h)
                   (Piece.quantumTime SYNTH_BUF_SIZE (Piece.net h)))
         (Num.addQ (Piece.realTime h)
                   (Piece.quantumTime SYNTH_BUF_SIZE (Piece.net h))))
      count.
Proof.
  unfold ticks. cbn [Piece.net Piece.curTime].
  exact (Nat.iter_succ_r count
           (fun t => Num.addQ t (Piece.quantumTime SYNTH_BUF_SIZE (Piece.net h)))
           (Piece.curTime h)).
Qed.

Lemma ticks_leb (SYNTH_BUF_SIZE : positive) (h : Piece.handler) (count : nat) :
  Num.leb (Piece.curTime h) (ticks SYNTH_BUF_SIZE h count) = true.
Proof.
  unfold ticks. induction count as [| count IH]; [apply Num_leb_refl |].
  simpl. apply (Num_leb_trans _ _ _ IH). apply addQ_leb. discriminate.
Qed.

Lemma ticks_mono (SYNTH_BUF_SIZE : positive) (h : Piece.handler) (count : nat) :
  Num.leb (ticks SYNTH_BUF_SIZE h count) (ticks SYNTH_BUF_SIZE h (S count)) = true.
Proof. unfold ticks. simpl. apply addQ_leb. discriminate. Qed.

Lemma quanta_no_wrap (SYNTH_BUF_SIZE : positive) (count : nat) :
  forall (h : Piece.handler) (w : Piece.world),
    let p := Piece.piece w in
    Forall (fun track => time_sorted (Track.events track)) (Piece.tracks p) ->
    Num.leb (Piece.prevTime p) (Piece.curTime h) = true ->
    Num.leb (ticks SYNTH_BUF_SIZE h (S count)) (Piece.loopTime p) = true ->
    exists h' w' calls,
      Piece.quanta SYNTH_BUF_SIZE (S count) h w = Ok (h', w') /\
      Piece.trace w' = Piece.trace w ++ calls /\
      Permutation (deliveries calls)
        (flat_map (window_of (Piece.prevTime p) (ticks SYNTH_BUF_SIZE h count))
                  (Piece.tracks p)) /\
      Piece.curTime h' = ticks SYNTH_BUF_SIZE h (S count) /\
      Piece.playTime (Piece.piece w') = ticks SYNTH_BUF_SIZE h (S count) /\
      Piece.prevTime (Piece.piece w') = ticks SYNTH_BUF_SIZE h count.
Proof.
  induction count as [| count IH]; intros h w p Hsorted Hprev Hloop.
  - assert (Hstep : after_turn SYNTH_BUF_SIZE h w = after_step SYNTH_BUF_SIZE h w).
    { unfold after_turn, wraps. unfold ticks in Hloop. simpl in Hloop.
      unfold Num.gtb. rewrite Num_ltb_leb. fold p. rewrite Hloop.
      rewrite andb_false_r. reflexivity. }
    cbn [Piece.quanta]. unfold bind, ret. rewrite quantum_spec, Hstep.
    eexists _, _, _. split; [reflexivity |]. simpl.
    split; [reflexivity |].
    split; [| repeat split].
    rewrite deliveries_app. simpl. rewrite app_nil_r.
    rewrite (deliveries_deliveredAll _ _ _ Hsorted). reflexivity.
  - assert (Hloop1 : Num.leb (ticks SYNTH_BUF_SIZE h 1) (Piece.loopTime p) = true).
    { clear IH. revert Hloop. generalize (S count). intros n Hn.
      apply (Num_leb_trans _ (ticks SYNTH_BUF_SIZE h (S n))); [| exact Hn].
      clear Hn. induction n as [| n IHn]; [apply Num_leb_refl |].
      apply (Num_leb_trans _ _ _ IHn). apply ticks_mono. }
    assert (Hstep : after_turn SYNTH_BUF_SIZE h w = after_step SYNTH_BUF_SIZE h w).
    { unfold after_turn, wraps. unfold ticks in Hloop1. simpl in Hloop1.
      unfold Num.gtb. rewrite Num_ltb_leb. fold p. rewrite Hloop1.
      rewrite andb_false_r. reflexivity. }
    change (Piece.quanta SYNTH_BUF_SIZE (S (S count)) h w)
      with (bind (Piece.quantum SYNTH_BUF_SIZE h)
                 (fun h1 => Piece.quanta SYNTH_BUF_SIZE (S count) h1) w).
    unfold bind. rewrite quantum_spec, Hstep.
    unfold after_step. fold p.
    set (h1 := Piece.Handler (Piece.net h) _ _).
    set (w1 := Piece.World _ _).
    destruct (IH h1 w1) as (h' & w' & calls & Hq & Htr & Hperm & Hcur & Hplay & Hprev').
    + exact Hsorted.
    + simpl. apply addQ_leb. discriminate.
    + unfold h1. rewrite <- ticks_succ. exact Hloop.
    + rewrite Hq.
      exists h', w', (deliveredAll p (Piece.curTime h) (Piece.realTime h)
                      ++ [GenOutput (Piece.realTime h)] ++ calls).
      split; [reflexivity |].
      split; [rewrite Htr; simpl; rewrite <- !app_assoc; reflexivity |].
      unfold h1 in Hcur, Hplay, Hprev', Hperm.
      rewrite <- !ticks_succ in *.
      split; [| repeat split; assumption].
      rewrite !deliveries_app.
      change (deliveries [GenOutput (Piece.realTime h)])
        with (@nil (node * SynthEvt)).
      rewrite app_nil_l, (deliveries_deliveredAll _ _ _ Hsorted), Hperm.
      apply (flat_map_windows (Piece.prevTime p) (Piece.curTime h)
               (ticks SYNTH_BUF_SIZE h (S count)) (Piece.tracks p));
        [exact Hsorted | exact Hprev | apply ticks_leb].
Qed.

(** X19. Playback that does not reach the end of the loop, with times as
    exact rationals: [ticks] is the sum [curTime += SYNTH_BUF_SIZE /
    sampleRate] of the code taken without rounding, and in binary64 the
    turn on which the rounded sum passes [loopTime] can be a neighbouring
    one.  Let the tracks be sorted, the handler be at the play time of the
    piece, [prevTime] be at or before it, and [count + 1] quanta from
    there be at or before [loopTime].  Then [genAudio] over [count + 1]
    quanta returns, and the events it has delivered are, up to their order
    between tracks, exactly the events of each track with a target whose
    time lies between [prevTime] and the [curTime] of the last turn: each
    of them once, and no other.  Afterwards the handler is again at the
    play time of the piece, with [prevTime] one quantum before it. *)
Theorem genAudio_plays_each_event_once (SYNTH_BUF_SIZE : positive) (count : nat)
    (h : Piece.handler) (w : Piece.world) :
  let p := Piece.piece w in
  Forall (fun track => time_sorted (Track.events track)) (Piece.tracks p) ->
  Piece.curTime h = Piece.playTime p ->
  Num.leb (Piece.prevTime p) (Piece.curTime h) = true ->
  Num.leb (ticks SYNTH_BUF_SIZE h (S count)) (Piece.loopTime p) = true ->
  exists h' w' calls,
    Piece.genAudio SYNTH_BUF_SIZE (SynthNet.outNumChans (Piece.net h))
                   (Z.of_nat (S count) * Zpos SYNTH_BUF_SIZE) h w
    = Ok (h', w') /\
    Piece.trace w' = Piece.trace w ++ calls /\
    Permutation (deliveries calls)
      (flat_map (window_of (Piece.prevTime p) (ticks SYNTH_BUF_SIZE h count))
                (Piece.tracks p)) /\
    Piece.curTime h' = ticks SYNTH_BUF_SIZE h (S count) /\
    Piece.playTime (Piece.piece w') = ticks SYNTH_BUF_SIZE h (S count) /\
    Piece.prevTime (Piece.piece w') = ticks SYNTH_BUF_SIZE h count.
Proof.
  intros p Hsorted Hsync Hprev Hloop.
  unfold Piece.genAudio, bind, get, lift, assert.
  rewrite Z.eqb_refl, Z.rem_mul, Z.div_mul, Nat2Z.id by discriminate.
  cbn [Z.eqb].
  assert (Hh : Piece.Handler (Piece.net h)
                 (if negb (Num.eqb (Piece.playTime (Piece.piece w)) (Piece.curTime h))
                  then Piece.playTime (Piece.piece w) else Piece.curTime h)
                 (Piece.realTime h) = h).
  { fold p. rewrite <- Hsync. destruct h as [net cur rt]. simpl.
    destruct (negb _); reflexivity. }
  rewrite Hh. apply quanta_no_wrap; assumption.
Qed.

(** Seven turns of one second from 0, with a note that starts at 5. *)
Lemma genAudio_plays_each_event_once_witness :
  exists h' w' calls,
    Piece.genAudio 44100 2 (7 * 44100)
      (Piece.Handler (SynthNet.mk [7%nat] 44100 2) (Fin 0) (Fin 0)) pendingWorld
    = Ok (h', w') /\
    Piece.trace w' = calls /\
    Permutation (deliveries calls) [(7%nat, NoteOnEvt (Fin 5) (Note.mk 0 60) 1)].
Proof.
  destruct (genAudio_plays_each_event_once 44100 6
              (Piece.Handler (SynthNet.mk [7%nat] 44100 2) (Fin 0) (Fin 0))
              pendingWorld)
    as (h' & w' & calls & Hrun & Htr & Hperm & _).
  - repeat constructor.
  - reflexivity.
  - reflexivity.
  - reflexivity.
  - exists h', w', calls. split; [exact Hrun |]. split; [exact Htr |].
    exact Hperm.
Defined.

(** ** One cycle of the loop *)

(** The turns up to the one that wraps around, and that one. *)
Lemma quanta_cycle (SYNTH_BUF_SIZE : positive) (count : nat) :
  forall (h : Piece.handler) (w : Piece.world),
    let p := Piece.piece w in
    Forall (fun track => time_sorted (Track.events track)) (Piece.tracks p) ->
    Piece.curTime h = Piece.playTime p ->
    Num.leb (Piece.prevTime p) (Piece.curTime h) = true ->
    Num.leb (ticks SYNTH_BUF_SIZE h count) (Piece.loopTime p) = true ->
    Num.gtb (ticks SYNTH_BUF_SIZE h (S count)) (Piece.loopTime p) = true ->
    exists h' w' calls,
      Piece.quanta SYNTH_BUF_SIZE (S count) h w = Ok (h', w') /\
      Piece.trace w' = Piece.trace w ++ calls /\
      Permutation (deliveries calls)
        (flat_map (window_of (Piece.prevTime p)
                             (Num.addQ (Piece.loopTime p) (1 # 100)))
                  (Piece.tracks p)) /\
      Piece.curTime h' = Fin 0 /\
      Piece.playTime (Piece.piece w') = Fin 0 /\
      Piece.prevTime (Piece.piece w') = Fin 0 /\
      Piece.realTime h'
      = Nat.iter (S count)
          (fun t => Num.addQ t (Piece.quantumTime SYNTH_BUF_SIZE (Piece.net h)))
          (Piece.realTime h).
Proof.
  induction count as [| count IH]; intros h w p Hsorted Hsync Hprev Hloop Hpast.
  - assert (Hwrap : after_turn SYNTH_BUF_SIZE h w = after_wrap SYNTH_BUF_SIZE h w).
    { unfold after_turn, wraps. fold p. rewrite <- Hsync.
      unfold ticks in Hloop, Hpast. simpl in Hloop, Hpast.
      rewrite Hloop, Hpast. reflexivity. }
    cbn [Piece.quanta]. unfold bind, ret. rewrite quantum_spec, Hwrap.
    unfold after_wrap. fold p.
    eexists _, _, _. split; [reflexivity |]. cbn [Piece.trace snd fst].
    split; [reflexivity |].
    split; [| repeat split].
    rewrite !deliveries_app.
    change (deliveries [GenOutput (Piece.realTime h)])
      with (@nil (node * SynthEvt)).
    rewrite app_nil_l.
    rewrite (deliveries_deliveredAll p _ _ Hsorted).
    rewrite (deliveries_deliveredAll (Piece.set_prevTime (Piece.curTime h) p));
      [| exact Hsorted].
    apply (flat_map_windows (Piece.prevTime p) (Piece.curTime h)
             (Num.addQ (Piece.loopTime p) (1 # 100)) (Piece.tracks p));
      [exact Hsorted | exact Hprev |].
    apply loop_end_leb. exact Hloop.
  - assert (Hloop1 : Num.leb (ticks SYNTH_BUF_SIZE h 1) (Piece.loopTime p) = true).
    { apply (Num_leb_trans _ (ticks SYNTH_BUF_SIZE h (S count))); [| exact Hloop].
      clear. induction count as [| n IHn]; [apply Num_leb_refl |].
      apply (Num_leb_trans _ _ _ IHn). apply ticks_mono. }
    assert (Hstep : after_turn SYNTH_BUF_SIZE h w = after_step SYNTH_BUF_SIZE h w).
    { unfold after_turn, wraps. unfold ticks in Hloop1. simpl in Hloop1.
      unfold Num.gtb. rewrite Num_ltb_leb. fold p. rewrite Hloop1.
      rewrite andb_false_r. reflexivity. }
    change (Piece.quanta SYNTH_BUF_SIZE (S (S count)) h w)
      with (bind (Piece.quantum SYNTH_BUF_SIZE h)
                 (fun h1 => Piece.quanta SYNTH_BUF_SIZE (S count) h1) w).
    unfold bind. rewrite quantum_spec, Hstep.
    unfold after_step. fold p.
    set (h1 := Piece.Handler (Piece.net h) _ _).
    set (w1 := Piece.World _ _).
    destruct (IH h1 w1)
      as (h' & w' & calls & Hq & Htr & Hperm & Hcur & Hplay & Hprev' & Hrt).
    + exact Hsorted.
    + reflexivity.
    + simpl. apply addQ_leb. discriminate.
    + unfold h1. rewrite <- ticks_succ. exact Hloop.
    + unfold h1. rewrite <- ticks_succ. exact Hpast.
    + rewrite Hq.
      exists h', w', (deliveredAll p (Piece.curTime h) (Piece.realTime h)
                      ++ [GenOutput (Piece.realTime h)] ++ calls).
      split; [reflexivity |].
      split; [rewrite Htr; simpl; rewrite <- !app_assoc; reflexivity |].
      split; [| split; [exact Hcur | split; [exact Hplay | split; [exact Hprev' |]]]].
      * rewrite !deliveries_app.
        change (deliveries [GenOutput (Piece.realTime h)])
          with (@nil (node * SynthEvt)).
        rewrite app_nil_l, (deliveries_deliveredAll _ _ _ Hsorted), Hperm.
        apply (flat_map_windows (Piece.prevTime p) (Piece.curTime h)
                 (Num.addQ (Piece.loopTime p) (1 # 100)) (Piece.tracks p));
          [exact Hsorted | exact Hprev |].
        apply loop_end_leb.
        apply (Num_leb_trans _ (ticks SYNTH_BUF_SIZE h (S count)));
          [apply ticks_leb | exact Hloop].
      * rewrite Hrt. unfold h1. cbn [Piece.net Piece.realTime].
        symmetry.
        exact (Nat.iter_succ_r (S count)
                 (fun t => Num.addQ t (Piece.quantumTime SYNTH_BUF_SIZE (Piece.net h)))
                 (Piece.realTime h)).
Qed.

(** X20. One cycle of the loop, with times as exact rationals: [ticks]
    is the sum [curTime += SYNTH_BUF_SIZE / sampleRate] of the code taken
    without rounding, and in binary64 the turn on which the rounded sum
    passes [loopTime] can be a neighbouring one.  Let the tracks be sorted,
    the handler be at the play time of the piece, [prevTime] be at or
    before it, [count] quanta from there be at or before [loopTime] and
    [count + 1] quanta be after it.  Then [genAudio] over [count + 1]
    quanta returns, its last turn wraps around, and the events it has
    delivered are, up to their order between tracks, exactly the events of
    each track with a target whose time lies in [[prevTime, loopTime +
    0.01)]: each of them once, and no other.  Afterwards [curTime],
    [playTime] and [prevTime] are 0, and [realTime] has advanced by
    [count + 1] quanta. *)
Theorem genAudio_loop_cycle (SYNTH_BUF_SIZE : positive) (count : nat)
    (h : Piece.handler) (w : Piece.world) :
  let p := Piece.piece w in
  Forall (fun track => time_sorted (Track.events track)) (Piece.tracks p) ->
  Piece.curTime h = Piece.playTime p ->
  Num.leb (Piece.prevTime p) (Piece.curTime h) = true ->
  Num.leb (ticks SYNTH_BUF_SIZE h count) (Piece.loopTime p) = true ->
  Num.gtb (ticks SYNTH_BUF_SIZE h (S count)) (Piece.loopTime p) = true ->
  exists h' w' calls,
    Piece.genAudio SYNTH_BUF_SIZE (SynthNet.outNumChans (Piece.net h))
                   (Z.of_nat (S count) * Zpos SYNTH_BUF_SIZE) h w
    = Ok (h', w') /\
    Piece.trace w' = Piece.trace w ++ calls /\
    Permutation (deliveries calls)
      (flat_map (window_of (Piece.prevTime p)
                           (Num.addQ (Piece.loopTime p) (1 # 100)))
                (Piece.tracks p)) /\
    Piece.curTime h' = Fin 0 /\
    Piece.playTime (Piece.piece w') = Fin 0 /\
    Piece.prevTime (Piece.piece w') = Fin 0 /\
    Piece.realTime h'
    = Nat.iter (S count)
        (fun t => Num.addQ t (Piece.quantumTime SYNTH_BUF_SIZE (Piece.net h)))
        (Piece.realTime h).
Proof.
  intros p Hsorted Hsync Hprev Hloop Hpast.
  unfold Piece.genAudio, bind, get, lift, assert.
  rewrite Z.eqb_refl, Z.rem_mul, Z.div_mul, Nat2Z.id by discriminate.
  cbn [Z.eqb].
  assert (Hh : Piece.Handler (Piece.net h)
                 (if negb (Num.eqb (Piece.playTime (Piece.piece w)) (Piece.curTime h))
                  then Piece.playTime (Piece.piece w) else Piece.curTime h)
                 (Piece.realTime h) = h).
  { fold p. rewrite <- Hsync. destruct h as [net cur rt]. simpl.
    destruct (negb _); reflexivity. }
  rewrite Hh. apply quanta_cycle; assumption.
Qed.

(** Eleven turns of one second from 0 on the piece that loops at 10, with
    a note that starts at 5. *)
Lemma genAudio_loop_cycle_witness :
  exists h' w' calls,
    Piece.genAudio 44100 2 (11 * 44100)
      (Piece.Handler (SynthNet.mk [7%nat] 44100 2) (Fin 0) (Fin 0)) pendingWorld
    = Ok (h', w') /\
    Piece.trace w' = calls /\
    Permutation (deliveries calls) [(7%nat, NoteOnEvt (Fin 5) (Note.mk 0 60) 1)] /\
    Piece.curTime h' = Fin 0 /\
    Piece.playTime (Piece.piece w') = Fin 0 /\
    Piece.prevTime (Piece.piece w') = Fin 0.
Proof.
  destruct (genAudio_loop_cycle 44100 10
              (Piece.Handler (SynthNet.mk [7%nat] 44100 2) (Fin 0) (Fin 0))
              pendingWorld)
    as (h' & w' & calls & Hrun & Htr & Hperm & Hcur & Hplay & Hprev & _).
  - repeat constructor.
  - reflexivity.
  - reflexivity.
  - reflexivity.
  - reflexivity.
  - exists h', w', calls. repeat split; assumption.
Defined.

(** ** The order of the time stamps *)

Lemma stamps_app (l1 l2 : list call) : stamps (l1 ++ l2) = stamps l1 ++ stamps l2.
Proof. apply omap_app. Qed.

Lemma stamps_deliveredAll (p : Piece.t) (curTime realTime : num) :
  Forall (eq realTime) (stamps (deliveredAll p curTime realTime)).
Proof.
  pose proof (deliveredAll_events p curTime realTime) as Hall.
  induction Hall as [| c cs (target & evt & -> & _) _ IH]; [constructor |].
  constructor; [reflexivity | exact IH].
Qed.

Lemma same_stamps_sorted (t : num) (l : list num) :
  Forall (eq t) l -> StronglySorted num_le l.
Proof.
  induction 1 as [| x l <- Hl IH]; constructor; [exact IH |].
  eapply Forall_impl; [exact Hl |]. intros y <-. apply Num_leb_refl.
Qed.

Lemma stamps_sorted_app (l1 l2 : list num) (bound : num) :
  StronglySorted num_le l1 -> StronglySorted num_le l2 ->
  Forall (fun t => num_le t bound) l1 -> Forall (num_le bound) l2 ->
  StronglySorted num_le (l1 ++ l2).
Proof.
  intros H1 H2 Hlow Hhigh. induction H1 as [| x l1 H1 IH Hx]; [exact H2 |].
  inversion Hlow as [| ? ? Hxb Hl1]; subst. simpl.
  constructor; [apply IH, Hl1 |].
  apply Forall_app. split; [exact Hx |].
  eapply Forall_impl; [exact Hhigh |]. intros y Hy.
  apply (Num_leb_trans _ _ _ Hxb Hy).
Qed.

(** The stamps of one turn: they are in order, and between the
    [realTime] at the start of the turn and the one at its end. *)
Lemma after_turn_stamps (SYNTH_BUF_SIZE : positive) (h : Piece.handler)
    (w : Piece.world) :
  let h' := fst (after_turn SYNTH_BUF_SIZE h w) in
  let w' := snd (after_turn SYNTH_BUF_SIZE h w) in
  exists calls,
    Piece.trace w' = Piece.trace w ++ calls /\
    StronglySorted num_le (stamps calls) /\
    Forall (fun t => num_le (Piece.realTime h) t /\ num_le t (Piece.realTime h'))
           (stamps calls) /\
    num_le (Piece.realTime h) (Piece.realTime h').
Proof.
  set (dt := Piece.quantumTime SYNTH_BUF_SIZE (Piece.net h)).
  assert (Hdt : num_le (Piece.realTime h) (Num.addQ (Piece.realTime h) dt))
    by (apply addQ_leb; discriminate).
  assert (Hsame : forall p cur,
             Forall (fun t => num_le (Piece.realTime h) t /\
                              num_le t (Num.addQ (Piece.realTime h) dt))
                    (stamps (deliveredAll p cur (Piece.realTime h)))).
  { intros p cur. eapply Forall_impl; [apply stamps_deliveredAll |].
    intros t <-. split; [apply Num_leb_refl | exact Hdt]. }
  assert (Hnext : forall p cur,
             Forall (fun t => num_le (Piece.realTime h) t /\
                              num_le t (Num.addQ (Piece.realTime h) dt))
                    (stamps (deliveredAll p cur (Num.addQ (Piece.realTime h) dt)))).
  { intros p cur. eapply Forall_impl; [apply stamps_deliveredAll |].
    intros t <-. split; [exact Hdt | apply Num_leb_refl]. }
  unfold after_turn. destruct (wraps _ _ _); unfold after_wrap, after_step;
    cbn [fst snd Piece.trace Piece.realTime Piece.net]; fold dt;
    eexists; (split; [reflexivity |]).
  - rewrite !stamps_app. split; [| split; [| exact Hdt]].
    + rewrite app_assoc.
      apply (stamps_sorted_app _ _ (Piece.realTime h)).
      * apply (same_stamps_sorted (Piece.realTime h)).
        apply Forall_app. split; [apply stamps_deliveredAll |].
        repeat constructor.
      * apply (same_stamps_sorted (Num.addQ (Piece.realTime h) dt)).
        apply stamps_deliveredAll.
      * apply Forall_app. split.
        -- eapply Forall_impl; [apply stamps_deliveredAll |].
           intros t <-. apply Num_leb_refl.
        -- repeat constructor. apply Num_leb_refl.
      * eapply Forall_impl; [apply stamps_deliveredAll |].
        intros t <-. exact Hdt.
    + apply Forall_app. split; [apply Hsame |].
      apply Forall_app. split; [| apply Hnext].
      repeat constructor; [apply Num_leb_refl | exact Hdt].
  - rewrite !stamps_app. split; [| split; [| exact Hdt]].
    + apply (same_stamps_sorted (Piece.realTime h)).
      apply Forall_app. split; [apply stamps_deliveredAll |].
      repeat constructor.
    + apply Forall_app. split; [apply Hsame |].
      repeat constructor; [apply Num_leb_refl | exact Hdt].
Qed.

Lemma quanta_stamps (SYNTH_BUF_SIZE : positive) (count : nat) :
  forall (h : Piece.handler) (w : Piece.world),
    exists h' w' calls,
      Piece.quanta SYNTH_BUF_SIZE count h w = Ok (h', w') /\
      Piece.trace w' = Piece.trace w ++ calls /\
      StronglySorted num_le (stamps calls) /\
      Forall (fun t => num_le (Piece.realTime h) t /\ num_le t (Piece.realTime h'))
             (stamps calls) /\
      num_le (Piece.realTime h) (Piece.realTime h').
Proof.
  induction count as [| count IH]; intros h w.
  - exists h, w, []. rewrite app_nil_r. repeat split; try constructor.
    apply Num_leb_refl.
  - cbn [Piece.quanta]. unfold bind. rewrite quantum_spec.
    destruct (after_turn_stamps SYNTH_BUF_SIZE h w)
      as (calls1 & Htr1 & Hs1 & Hb1 & Hle1).
    destruct (after_turn SYNTH_BUF_SIZE h w) as [h1 w1]. simpl in *.
    destruct (IH h1 w1) as (h' & w' & calls & Hq & Htr & Hs & Hb & Hle).
    exists h', w', (calls1 ++ calls). rewrite Hq. split; [reflexivity |].
    split; [rewrite Htr, Htr1, app_assoc; reflexivity |].
    rewrite stamps_app.
    split; [| split; [| apply (Num_leb_trans _ _ _ Hle1 Hle)]].
    + apply (stamps_sorted_app _ _ (Piece.realTime h1)); trivial.
      * eapply Forall_impl; [exact Hb1 |]. intros t [_ Ht]. exact Ht.
      * eapply Forall_impl; [exact Hb |]. intros t [Ht _]. exact Ht.
    + apply Forall_app. split.
      * eapply Forall_impl; [exact Hb1 |]. intros t [Hlo Hhi].
        split; [exact Hlo |].
        apply (Num_leb_trans _ _ _ Hhi Hle).
      * eapply Forall_impl; [exact Hb |]. intros t [Hlo Hhi].
        split; [| exact Hhi].
        apply (Num_leb_trans _ _ _ Hle1 Hlo).
Qed.

(** X21. The [realTime] that [genAudio] passes to the nodes and to the
    network never goes back: in the calls of one successful [genAudio],
    in the order they are made, every time stamp is at or before every
    later one, and all of them lie between the [realTime] at the start of
    the call and the [realTime] at its end, wrap or no wrap. *)
Theorem genAudio_stamps_in_order (SYNTH_BUF_SIZE : positive) (numSamples : Z)
    (h : Piece.handler) (w : Piece.world) :
  Z.rem numSamples (Zpos SYNTH_BUF_SIZE) = 0 ->
  exists h' w' calls,
    Piece.genAudio SYNTH_BUF_SIZE (SynthNet.outNumChans (Piece.net h))
                   numSamples h w = Ok (h', w') /\
    Piece.trace w' = Piece.trace w ++ calls /\
    StronglySorted num_le (stamps calls) /\
    Forall (fun t => num_le (Piece.realTime h) t /\ num_le t (Piece.realTime h'))
           (stamps calls).
Proof.
  intros Hrem. unfold Piece.genAudio, bind, get, lift, assert.
  rewrite Z.eqb_refl, Hrem. simpl.
  destruct (quanta_stamps SYNTH_BUF_SIZE
              (Z.to_nat (numSamples / Zpos SYNTH_BUF_SIZE))
              (Piece.Handler (Piece.net h)
                 (if negb (Num.eqb (Piece.playTime (Piece.piece w))
                                   (Piece.curTime h))
                  then Piece.playTime (Piece.piece w) else Piece.curTime h)
                 (Piece.realTime h)) w)
    as (h' & w' & calls & Hq & Htr & Hs & Hb & _).
  exists h', w', calls. repeat split; assumption.
Qed.

(** Two turns of a tenth of a second, the first of which wraps around. *)
Lemma genAudio_stamps_in_order_witness :
  exists h' w' calls,
    Piece.genAudio 4410 2 8820 loopingHandler loopingWorld = Ok (h', w') /\
    Piece.trace w' = calls /\
    stamps calls
    = [Fin 12; Num.addQ (Fin 12) (4410 # 44100);
       Num.addQ (Fin 12) (4410 # 44100)] /\
    StronglySorted num_le (stamps calls).
Proof.
  destruct (genAudio_stamps_in_order 4410 8820 loopingHandler loopingWorld)
    as (h' & w' & calls & Hrun & Htr & Hs & _); [reflexivity |].
  exists h', w', calls. split; [exact Hrun |]. split; [exact Htr |].
  split; [| exact Hs].
  vm_compute in Hrun. injection Hrun as _ Hw. subst w'.
  simpl in Htr. subst calls. reflexivity.
Defined.

(** ** A change of position *)

Lemma Num_eqb_leb_l (a b c : num) :
  Num.eqb a b = true -> Num.leb a c = Num.leb b c.
Proof.
  destruct a, b, c; simpl; trivial; try discriminate.
  rewrite Qeq_bool_iff. intros Heq. apply eq_true_iff_eq.
  rewrite !Qle_bool_iff, Heq. reflexivity.
Qed.

Lemma deliver_cur_eqb (target : node) (events : list SynthEvt)
    (curTime curTime' realTime : num) :
  Num.eqb curTime curTime' = true ->
  Track.deliver target events curTime realTime
  = Track.deliver target events curTime' realTime.
Proof.
  intros Heq. induction events as [| evt events IH]; [reflexivity |].
  simpl. unfold Num.geb. rewrite (Num_eqb_leb_l _ _ _ Heq), IH. reflexivity.
Qed.

Lemma deliveredAll_cur_eqb (p : Piece.t) (curTime curTime' realTime : num) :
  Num.eqb curTime curTime' = true ->
  deliveredAll p curTime realTime = deliveredAll p curTime' realTime.
Proof.
  intros Heq. unfold deliveredAll.
  apply List.flat_map_ext. intros track.
  unfold delivered, Track.dispatch.
  destruct (Track.target track); [| reflexivity].
  destruct (_ =? _)%nat; [reflexivity |].
  destruct (Track.search _ _ _ _ _) as [[[minIdx maxIdx] midIdx] |]; [| reflexivity].
  destruct (minIdx >? maxIdx); [reflexivity |].
  rewrite (deliver_cur_eqb _ _ _ _ _ Heq). reflexivity.
Qed.

(** X22. After [setTime(time)], the first turn of the next [genAudio]
    dispatches up to [time] from the [prevTime] the piece was left with,
    before it generates any audio.  When [time] is at or before
    [prevTime], as when playback is restarted at 0, this delivers
    nothing; when it is after, on sorted tracks it delivers at once every
    event of [[prevTime, time)]. *)
Theorem Piece_setTime_then_genAudio (SYNTH_BUF_SIZE : positive) (time : num)
    (h : Piece.handler) (w : Piece.world) :
  let p := Piece.piece w in
  let realTime := Piece.realTime h in
  exists h' w' rest,
    (let* _ := Piece.setTime time in
     Piece.genAudio SYNTH_BUF_SIZE (SynthNet.outNumChans (Piece.net h))
                    (Zpos SYNTH_BUF_SIZE) h) w = Ok (h', w') /\
    Piece.trace w'
    = Piece.trace w ++ deliveredAll p time realTime
      ++ GenOutput realTime :: rest /\
    (Num.leb time (Piece.prevTime p) = true ->
     deliveredAll p time realTime = []) /\
    (Forall (fun track => time_sorted (Track.events track)) (Piece.tracks p) ->
     deliveredAll p time realTime
     = flat_map (fun track => window_calls track (Piece.prevTime p) time realTime)
                (Piece.tracks p)).
Proof.
  intros p realTime.
  unfold bind at 1, Piece.setTime, Piece.update, modify.
  unfold Piece.genAudio, bind, get, lift, assert.
  rewrite Z.eqb_refl, Z.rem_same, Z.div_same by discriminate.
  cbn [Piece.piece Piece.playTime Piece.set_playTime Z.eqb Z.to_nat
       Pos.to_nat Pos.iter_op Nat.add Piece.quanta].
  change (Z.to_nat 1) with 1%nat. cbn [Piece.quanta].
  unfold bind, ret. rewrite quantum_spec.
  set (cur := if negb (Num.eqb time (Piece.curTime h))
              then time else Piece.curTime h).
  assert (Hcur : Num.eqb cur time = true).
  { subst cur. destruct (Num.eqb time (Piece.curTime h)) eqn:Heq; simpl.
    - destruct time, (Piece.curTime h); simpl in *; trivial; try discriminate.
      apply Qeq_bool_iff. symmetry. apply Qeq_bool_iff, Heq.
    - destruct time; simpl; trivial. apply Qeq_bool_iff. reflexivity. }
  assert (Hd : forall rest,
             Piece.trace w ++ deliveredAll (Piece.set_playTime time p) cur realTime
             ++ GenOutput realTime :: rest
             = Piece.trace w ++ deliveredAll p time realTime
               ++ GenOutput realTime :: rest).
  { intros rest.
    change (deliveredAll (Piece.set_playTime time p) cur realTime)
      with (deliveredAll p cur realTime).
    rewrite (deliveredAll_cur_eqb _ _ _ _ Hcur). reflexivity. }
  unfold after_turn. destruct (wraps _ _ _).
  - eexists _, _, _. split; [reflexivity |]. simpl.
    split; [apply Hd |].
    split; [apply deliveredAll_empty | apply deliveredAll_sorted].
  - eexists _, _, []. split; [reflexivity |]. simpl.
    split; [apply Hd |].
    split; [apply deliveredAll_empty | apply deliveredAll_sorted].
Qed.

(** ** After [stop] *)

(** A turn from the position [Infinity], with [prevTime] at [Infinity]
    too. *)
Lemma after_turn_stopped (SYNTH_BUF_SIZE : positive) (h : Piece.handler)
    (w : Piece.world) :
  Piece.playTime (Piece.piece w) = PInf ->
  Piece.prevTime (Piece.piece w) = PInf ->
  Piece.curTime h = PInf ->
  after_turn SYNTH_BUF_SIZE h w
  = (Piece.Handler (Piece.net h) PInf
       (Num.addQ (Piece.realTime h)
                 (Piece.quantumTime SYNTH_BUF_SIZE (Piece.net h))),
     Piece.World (Piece.piece w) (Piece.trace w ++ [GenOutput (Piece.realTime h)])).
Proof.
  intros Hplay Hprev Hcur. unfold after_turn.
  replace (wraps SYNTH_BUF_SIZE h (Piece.piece w)) with false.
  - unfold after_step. rewrite Hcur, deliveredAll_empty by (rewrite Hprev; reflexivity).
    destruct w as [p tr]. simpl in *. f_equal. f_equal.
    destruct p. simpl in *. subst. reflexivity.
  - unfold wraps. rewrite Hplay, Hcur. simpl.
    destruct (Piece.loopTime (Piece.piece w)); reflexivity.
Qed.

Lemma quanta_stopped (SYNTH_BUF_SIZE : positive) (count : nat) :
  forall (h : Piece.handler) (w : Piece.world),
    Piece.playTime (Piece.piece w) = PInf ->
    Piece.prevTime (Piece.piece w) = PInf ->
    Piece.curTime h = PInf ->
    exists h' calls,
      Piece.quanta SYNTH_BUF_SIZE count h w
      = Ok (h', Piece.World (Piece.piece w) (Piece.trace w ++ calls)) /\
      Forall (fun c => is_genOutput c = true) calls /\
      Piece.curTime h' = PInf.
Proof.
  induction count as [| count IH]; intros h w Hplay Hprev Hcur.
  - exists h, []. rewrite app_nil_r. destruct w. repeat split; trivial.
  - cbn [Piece.quanta]. unfold bind.
    rewrite quantum_spec, (after_turn_stopped _ _ _ Hplay Hprev Hcur).
    destruct (IH (Piece.Handler (Piece.net h) PInf
                    (Num.addQ (Piece.realTime h)
                       (Piece.quantumTime SYNTH_BUF_SIZE (Piece.net h))))
                 (Piece.World (Piece.piece w)
                    (Piece.trace w ++ [GenOutput (Piece.realTime h)])))
      as (h' & calls & Hq & Hnone & Hcur'); trivial.
    exists h', (GenOutput (Piece.realTime h) :: calls).
    rewrite Hq. simpl. rewrite <- app_assoc. repeat split; trivial.
    constructor; [reflexivity | exact Hnone].
Qed.

(** X23. Once stopped, silent.  After [stop] and the first turn of
    [genAudio] that follows it, the play time and [prevTime] are both
    [Infinity]; from there a successful [genAudio], over any number of
    turns, makes [genOutput] calls only: it delivers no event, and it
    leaves the piece as it is. *)
Theorem genAudio_silent_once_stopped (SYNTH_BUF_SIZE : positive)
    (numSamples : Z) (h : Piece.handler) (w : Piece.world) :
  Z.rem numSamples (Zpos SYNTH_BUF_SIZE) = 0 ->
  let chans := SynthNet.outNumChans (Piece.net h) in
  exists h1 w1 h2 calls,
    (let* _ := Piece.stop in
     Piece.genAudio SYNTH_BUF_SIZE chans (Zpos SYNTH_BUF_SIZE) h) w
    = Ok (h1, w1) /\
    Piece.genAudio SYNTH_BUF_SIZE chans numSamples h1 w1
    = Ok (h2, Piece.World (Piece.piece w1) (Piece.trace w1 ++ calls)) /\
    Forall (fun c => is_genOutput c = true) calls /\
    Piece.playTime (Piece.piece w1) = PInf /\
    Piece.prevTime (Piece.piece w1) = PInf.
Proof.
  intros Hrem chans. subst chans.
  unfold bind at 1. rewrite Piece_stop_spec.
  unfold Piece.genAudio at 1. unfold bind, get, lift, assert.
  rewrite Z.eqb_refl, Z.rem_same, Z.div_same by discriminate.
  cbn [Z.eqb Piece.piece Piece.playTime Piece.set_playTime].
  change (Z.to_nat 1) with 1%nat. cbn [Piece.quanta]. unfold bind, ret.
  set (h0 := Piece.Handler (Piece.net h) _ (Piece.realTime h)).
  assert (Hcur0 : Piece.curTime h0 = PInf).
  { unfold h0. simpl. destruct (Piece.curTime h); reflexivity. }
  match goal with
  | |- context [Piece.quantum _ h0 ?w0'] => set (w0 := w0')
  end.
  rewrite (quantum_after_stop SYNTH_BUF_SIZE h0 w0 eq_refl Hcur0).
  set (h1 := Piece.Handler (Piece.net h0) PInf _).
  set (w1 := Piece.World _ _).
  destruct (quanta_stopped SYNTH_BUF_SIZE
              (Z.to_nat (numSamples / Zpos SYNTH_BUF_SIZE)) h1 w1
              eq_refl eq_refl eq_refl)
    as (h2 & calls & Hq & Hnone & _).
  exists h1, w1, h2, calls. split; [reflexivity |].
  split; [| repeat split; trivial].
  unfold Piece.genAudio, bind, get, lift, assert.
  cbn [Piece.net h1 h0]. rewrite Z.eqb_refl, Hrem. simpl. exact Hq.
Qed.

(** [stop] on the piece with a note pending at 5, one turn, and two more
    turns. *)
Lemma genAudio_silent_once_stopped_witness :
  exists h1 w1 h2 calls,
    (let* _ := Piece.stop in
     Piece.genAudio 256 2 256
       (Piece.Handler (SynthNet.mk [7%nat] 44100 2) (Fin 0) (Fin 0)))
      pendingWorld = Ok (h1, w1) /\
    Piece.genAudio 256 2 512 h1 w1
    = Ok (h2, Piece.World (Piece.piece w1) (Piece.trace w1 ++ calls)) /\
    Forall (fun c => is_genOutput c = true) calls.
Proof.
  destruct (genAudio_silent_once_stopped 256 512
              (Piece.Handler (SynthNet.mk [7%nat] 44100 2) (Fin 0) (Fin 0))
              pendingWorld eq_refl)
    as (h1 & w1 & h2 & calls & Hrun1 & Hrun2 & Hall & _).
  exists h1, w1, h2, calls. repeat split; assumption.
Defined.

(** ** The play and stop buttons *)

Lemma stopAudio_spec (pg : Page.t) :
  Page.stopAudio pg
  = Ok (tt,
        match Page.audioCtx pg, Page.jsAudioNode pg with
        | true, Some node =>
            Page.mk true None
              (Piece.World
                 (Piece.set_playTime PInf (Piece.piece (Page.world pg)))
                 (Piece.trace (Page.world pg)
                  ++ match Piece.synthNet (Piece.piece (Page.world pg)) with
                     | Some net => map ProcessAllNotesOff (SynthNet.nodes net)
                     | None => []
                     end))
              (Page.calls pg ++ [Page.Disconnect node])
        | _, _ => pg
        end).
Proof.
  destruct pg as [ctx node w calls]. unfold Page.stopAudio, bind, get. simpl.
  destruct ctx; simpl; [| reflexivity].
  destruct node as [node |]; [| reflexivity].
  unfold Page.onPiece. simpl. rewrite Piece_stop_spec. reflexivity.
Qed.

Lemma playAudio_spec (pg : Page.t) :
  Page.playAudio pg
  = Ok (tt,
        if Page.audioCtx pg then
          let stopped := match Page.stopAudio pg with
                         | Ok (_, pg') => pg'
                         | Err _ => pg
                         end in
          let node := Page.numCreated (Page.calls stopped) in
          Page.mk true (Some node)
            (Piece.World
               (Piece.set_playTime (Fin 0) (Piece.piece (Page.world stopped)))
               (Piece.trace (Page.world stopped)))
            (Page.calls stopped
             ++ [Page.CreateScriptProcessor 2048 2 2;
                 Page.SetOnAudioProcess node; Page.Connect node])
        else pg).
Proof.
  rewrite stopAudio_spec.
  destruct pg as [ctx node w calls]. unfold Page.playAudio, bind at 1, get. simpl.
  destruct ctx; simpl; [| reflexivity].
  destruct node as [node |].
  - unfold bind at 1. rewrite stopAudio_spec. simpl.
    unfold bind, get, Page.onPiece, Page.callAudio, Page.set_jsAudioNode, modify.
    simpl. rewrite <- app_assoc. reflexivity.
  - unfold bind, ret, get, Page.onPiece, Page.callAudio, Page.set_jsAudioNode,
      modify. simpl. destruct w. rewrite <- app_assoc. reflexivity.
Qed.

Lemma connected_app (calls more : list Page.audioCall) :
  connected (calls ++ more) = fold_left connect_step more (connected calls).
Proof. unfold connected. apply fold_left_app. Qed.

Lemma press_keeps_one (c : click) (pg : Page.t) :
  page_ok pg ->
  exists pg',
    press c pg = Ok (tt, pg') /\
    page_ok pg' /\
    Page.audioCtx pg' = Page.audioCtx pg /\
    (Page.audioCtx pg = false -> pg' = pg).
Proof.
  intros [Hinv Hplay].
  assert (Hstop : forall node,
             Page.jsAudioNode pg = Some node ->
             connected (Page.calls pg ++ [Page.Disconnect node]) = []).
  { intros node Hnode. rewrite connected_app, Hinv. unfold playing.
    rewrite Hnode. simpl. rewrite Nat.eqb_refl. reflexivity. }
  destruct c; simpl.
  - rewrite playAudio_spec, stopAudio_spec. eexists. split; [reflexivity |].
    destruct (Page.audioCtx pg) eqn:Hctx; [| split; [split |]; auto].
    split; [| split; [reflexivity | discriminate]].
    split; [| intros node _; reflexivity].
    destruct (Page.jsAudioNode pg) as [node |] eqn:Hnode; cbv zeta;
      cbn [Page.calls Page.jsAudioNode playing].
    + rewrite connected_app, (Hstop node eq_refl). reflexivity.
    + rewrite connected_app, Hinv. unfold playing. rewrite Hnode. reflexivity.
  - rewrite stopAudio_spec. eexists. split; [reflexivity |].
    destruct (Page.audioCtx pg) eqn:Hctx; [| split; [split |]; auto].
    destruct (Page.jsAudioNode pg) as [node |] eqn:Hnode;
      [| split; [split |]; auto; rewrite Hnode; discriminate].
    split; [| split; [reflexivity | discriminate]].
    split; [apply (Hstop node eq_refl) | discriminate].
Qed.

(** X24. After [init] and any sequence of presses on the play and stop
    buttons, with no audio callback in between, the two functions have
    returned, and the script processor nodes left connected are exactly
    the one that [jsAudioNode] holds, if it holds one: never two at a
    time.  While it holds one the play time is 0, where [playAudio] set
    it.  Without an audio context the presses change nothing.  A second
    [stopAudio] right after a first one changes nothing. *)
Theorem Page_one_node_connected (audioCtx : bool) (w : Piece.world)
    (clicks : list click) :
  exists pg,
    presses clicks (Page.init audioCtx w) = Ok (tt, pg) /\
    connected (Page.calls pg) = playing pg /\
    (length (playing pg) <= 1)%nat /\
    (forall node, Page.jsAudioNode pg = Some node ->
       Piece.playTime (Piece.piece (Page.world pg)) = Fin 0) /\
    (audioCtx = false -> pg = Page.init false w) /\
    (let* _ := presses clicks in let* _ := Page.stopAudio in Page.stopAudio)
      (Page.init audioCtx w)
    = (let* _ := presses clicks in Page.stopAudio) (Page.init audioCtx w).
Proof.
  assert (Hall : forall pg0,
             page_ok pg0 ->
             exists pg,
               presses clicks pg0 = Ok (tt, pg) /\
               page_ok pg /\
               Page.audioCtx pg = Page.audioCtx pg0 /\
               (Page.audioCtx pg0 = false -> pg = pg0)).
  { induction clicks as [| c rest IH]; intros pg0 Hinv.
    - exists pg0. repeat split; trivial; apply Hinv.
    - destruct (press_keeps_one c pg0 Hinv) as (pg1 & Hrun1 & Hinv1 & Hctx1 & Hoff1).
      destruct (IH pg1 Hinv1) as (pg & Hrun & Hinv' & Hctx & Hoff).
      exists pg. cbn [presses]. unfold bind. rewrite Hrun1.
      split; [exact Hrun |]. split; [exact Hinv' |].
      split; [congruence |].
      intros Hfalse. rewrite Hoff, Hoff1; trivial. congruence. }
  destruct (Hall (Page.init audioCtx w)) as (pg & Hrun & [Hinv Hplay] & Hctx & Hoff).
  { split; [reflexivity | discriminate]. }
  exists pg. split; [exact Hrun |]. split; [exact Hinv |].
  split; [unfold playing; destruct (Page.jsAudioNode pg); simpl; lia |].
  split; [exact Hplay |].
  split; [intros ->; apply Hoff; reflexivity |].
  unfold bind. rewrite Hrun. rewrite (stopAudio_spec pg). cbv beta iota.
  rewrite stopAudio_spec.
  destruct (Page.audioCtx pg) eqn:Hc; [| rewrite Hc; reflexivity].
  destruct (Page.jsAudioNode pg) eqn:Hn; [reflexivity |].
  rewrite Hc, Hn. reflexivity.
Qed.

(** ** More on the overdrive node *)

Lemma Qabs_signed (s : Q) :
  ((if Qlt_bool 0 s then Qabs s else - Qabs s) == s)%Q.
Proof.
  destruct (Qlt_bool 0 s) eqn:Hs.
  - apply Qlt_bool_iff in Hs. apply Qabs_pos, Qlt_le_weak, Hs.
  - apply Qlt_bool_false in Hs. rewrite (Qabs_neg _ Hs). ring.
Qed.

(** X25. With the factor 1, which is the factor of a new node, the
    overdrive node only applies its gain: every sample [x] comes out as
    [x * gain], whatever the threshold (over exact rationals). *)
Theorem Overdrive_factor_1_is_gain (node : Overdrive.t Q) (x : Q) :
  (Overdrive.factor node == 1)%Q ->
  (Overdrive.sample node x == x * Overdrive.gain node)%Q.
Proof.
  intros Hf. rewrite sample_Q. cbv zeta.
  set (s := (x * Overdrive.gain node)%Q).
  destruct (Qlt_bool 0 (Qabs s - Overdrive.threshold node)); [| reflexivity].
  assert (Hsame : ((Qabs s - (Qabs s - Overdrive.threshold node))
                   + (1 / Overdrive.factor node)
                     * (Qabs s - Overdrive.threshold node) == Qabs s)%Q).
  { rewrite Hf. field. }
  pose proof (Qabs_signed s) as Hsigned.
  destruct (Qlt_bool 0 s); rewrite Hsame; exact Hsigned.
Qed.

(** A new node leaves the sample 2 as it is. *)
Lemma Overdrive_factor_1_is_gain_witness :
  (Overdrive.factor (Overdrive.new (Some [2%Q]) [0%Q]) == 1)%Q /\
  (Overdrive.sample (Overdrive.new (Some [2%Q]) [0%Q]) 2 == 2 * 1)%Q.
Proof.
  split; [reflexivity |].
  apply (Overdrive_factor_1_is_gain (Overdrive.new (Some [2%Q]) [0%Q]) 2).
  reflexivity.
Defined.

(** X26. For a threshold that is not negative and a factor of 1 or more,
    the magnitude of the output is never above that of the scaled sample
    [x * gain], and a scaled sample above the threshold comes out above
    the threshold: the node compresses, it neither amplifies nor cuts at
    the threshold (over exact rationals). *)
Theorem Overdrive_never_amplifies (node : Overdrive.t Q) (x : Q) :
  (0 <= Overdrive.threshold node)%Q ->
  (1 <= Overdrive.factor node)%Q ->
  let s := (x * Overdrive.gain node)%Q in
  (Qabs (Overdrive.sample node x) <= Qabs s)%Q /\
  ((Overdrive.threshold node < Qabs s)%Q ->
   (Overdrive.threshold node < Qabs (Overdrive.sample node x))%Q).
Proof.
  intros Hth Hf s.
  destruct (Qlt_le_dec (Overdrive.threshold node) (Qabs s)) as [Hlt | Hle].
  - pose proof (sample_above node x Hlt) as Hs. cbv zeta in Hs. fold s in Hs.
    set (d := (Qabs s - Overdrive.threshold node)%Q) in *.
    assert (Hd : (0 < d)%Q).
    { unfold d. apply (Qplus_lt_l _ _ (Overdrive.threshold node)).
      ring_simplify. exact Hlt. }
    assert (Hf0 : (0 < Overdrive.factor node)%Q)
      by (apply (Qlt_le_trans _ 1); [reflexivity | exact Hf]).
    assert (Hinv : (0 < / Overdrive.factor node)%Q)
      by (apply Qinv_lt_0_compat, Hf0).
    assert (Hinv1 : (/ Overdrive.factor node <= 1)%Q).
    { apply (Qmult_le_l _ _ (Overdrive.factor node) Hf0).
      rewrite Qmult_inv_r, Qmult_1_r; [exact Hf |].
      intros Hz. rewrite Hz in Hf0. discriminate. }
    set (a := ((Qabs s - d) + (1 / Overdrive.factor node) * d)%Q) in *.
    assert (Ha : (a == Overdrive.threshold node + / Overdrive.factor node * d)%Q)
      by (unfold a, d, Qdiv; ring).
    assert (Hprod : (0 < / Overdrive.factor node * d)%Q)
      by (apply Qmult_lt_0_compat; assumption).
    assert (Hlow : (Overdrive.threshold node < a)%Q).
    { rewrite Ha. rewrite <- (Qplus_0_r (Overdrive.threshold node)) at 1.
      apply Qplus_lt_r, Hprod. }
    assert (Hhigh : (a <= Qabs s)%Q).
    { rewrite Ha.
      assert (Hsd : (Qabs s == Overdrive.threshold node + 1 * d)%Q)
        by (unfold d; ring).
      rewrite Hsd. apply Qplus_le_r.
      apply Qmult_le_compat_r; [exact Hinv1 | apply Qlt_le_weak, Hd]. }
    assert (Habs : (Qabs (Overdrive.sample node x) == a)%Q).
    { rewrite Hs. destruct (Qlt_bool 0 s).
      - apply Qabs_pos. apply Qlt_le_weak, (Qle_lt_trans _ _ _ Hth Hlow).
      - rewrite Qabs_opp. apply Qabs_pos.
        apply Qlt_le_weak, (Qle_lt_trans _ _ _ Hth Hlow). }
    split; [rewrite Habs; exact Hhigh |].
    intros _. rewrite Habs. exact Hlow.
  - rewrite (sample_passthrough node x Hle). fold s.
    split; [apply Qle_refl |].
    intros Hlt. exfalso. apply (Qlt_not_le _ _ Hlt Hle).
Qed.

(** The sample 1 with threshold 0.7 and factor 2 comes out between 0.7
    and 1. *)
Lemma Overdrive_never_amplifies_witness :
  (Qabs (Overdrive.sample softNode 1%Q) <= 1)%Q /\
  (7 # 10 < Qabs (Overdrive.sample softNode 1%Q))%Q.
Proof.
  destruct (Overdrive_never_amplifies softNode 1%Q) as [Hhigh Hlow];
    [discriminate | discriminate |].
  split; [exact Hhigh | apply Hlow; reflexivity].
Defined.

Section Fill.
Context {A : Type} `{Arith A}.

Lemma fill_closed_form (node : Overdrive.t A) (rest : list A) :
  forall (i : nat) (outBuf : list A),
    Overdrive.fill node i rest outBuf
    = take i outBuf
      ++ map (Overdrive.sample node) (take (length outBuf - i) rest)
      ++ drop (i + length rest) outBuf.
Proof.
  induction rest as [| x rest IH]; intros i outBuf.
  - rewrite take_nil. simpl. rewrite Nat.add_0_r. symmetry. apply take_drop.
  - cbn [Overdrive.fill]. rewrite IH. rewrite length_insert.
    destruct (Nat.lt_ge_cases i (length outBuf)) as [Hlt | Hge].
    + rewrite drop_insert_lt by lia.
      rewrite (take_S_r (<[i:=Overdrive.sample node x]> outBuf) i
                 (Overdrive.sample node x))
        by (apply list_lookup_insert_eq; exact Hlt).
      rewrite take_insert_ge by lia.
      replace (length outBuf - i)%nat with (S (length outBuf - S i)) by lia.
      cbn [take map length].
      rewrite <- app_assoc. simpl.
      replace (S (i + length rest))%nat with (i + S (length rest))%nat by lia.
      reflexivity.
    + rewrite list_insert_ge by lia.
      replace (length outBuf - S i)%nat with 0%nat by lia.
      replace (length outBuf - i)%nat with 0%nat by lia.
      rewrite !take_0. simpl.
      rewrite !take_ge, !drop_ge by lia. reflexivity.
Qed.

End Fill.

(** X27. When the input has data, the output buffer after [update] is: the
    processed samples of the input, as many as fit in the output buffer,
    followed by what the output buffer held beyond the length of the
    input.  The parameters and the input are unchanged, and a second
    [update] on the same input changes nothing. *)
Theorem Overdrive_update_buffer (node : Overdrive.t Q) (inBuf : list Q) :
  Overdrive.input node = Some inBuf ->
  let node' := Overdrive.update node in
  Overdrive.output node'
  = map (Overdrive.sample node) (take (length (Overdrive.output node)) inBuf)
    ++ drop (length inBuf) (Overdrive.output node) /\
  Overdrive.gain node' = Overdrive.gain node /\
  Overdrive.threshold node' = Overdrive.threshold node /\
  Overdrive.factor node' = Overdrive.factor node /\
  Overdrive.input node' = Overdrive.input node /\
  Overdrive.update node' = node'.
Proof.
  intros Hin node'. subst node'.
  assert (Hout : forall n : Overdrive.t Q,
             Overdrive.input n = Some inBuf ->
             Overdrive.update n
             = Overdrive.mk (Overdrive.gain n) (Overdrive.threshold n)
                 (Overdrive.factor n) (Some inBuf)
                 (map (Overdrive.sample n) (take (length (Overdrive.output n)) inBuf)
                  ++ drop (length inBuf) (Overdrive.output n))).
  { intros n Hn. unfold Overdrive.update. rewrite Hn, fill_closed_form.
    rewrite take_0, Nat.sub_0_r. reflexivity. }
  rewrite (Hout node Hin). cbn [Overdrive.output Overdrive.gain
    Overdrive.threshold Overdrive.factor Overdrive.input].
  repeat split; trivial; [symmetry; exact Hin |].
  rewrite Hout by reflexivity.
  cbn [Overdrive.output Overdrive.gain Overdrive.threshold Overdrive.factor].
  f_equal.
  set (out := Overdrive.output node).
  set (f := Overdrive.sample
              (Overdrive.mk (Overdrive.gain node) (Overdrive.threshold node)
                 (Overdrive.factor node) (Some inBuf) _)).
  assert (Hf : f = Overdrive.sample node) by reflexivity.
  rewrite Hf. clear f Hf.
  rewrite length_app, length_map, length_take, length_drop.
  replace (length out `min` length inBuf + (length out - length inBuf))%nat
    with (length out) by lia.
  f_equal.
  destruct (Nat.le_ge_cases (length inBuf) (length out)) as [Hle | Hge].
  - rewrite take_ge by lia. rewrite drop_app_length'; [reflexivity |].
    rewrite length_map. reflexivity.
  - rewrite drop_ge; [| rewrite length_app, length_map, length_take, length_drop; lia].
    rewrite drop_ge by lia. reflexivity.
Qed.

(** The node with one sample in and one sample out. *)
Lemma Overdrive_update_buffer_witness :
  Overdrive.output (Overdrive.update softNode) = [Overdrive.sample softNode 1%Q] /\
  Overdrive.update (Overdrive.update softNode) = Overdrive.update softNode.
Proof.
  destruct (Overdrive_update_buffer softNode [1%Q] eq_refl)
    as (Hout & _ & _ & _ & _ & Hagain).
  split; [exact Hout | exact Hagain].
Defined.
